(** * CrossHair static prover core (crosshairlib.py): a shallow embedding

    The development follows the layout of the Python module:
    - [Outcome]: Python control flow (return value, raised exception,
      or a loop that has not finished within the fuel given);
    - [Ast]: the syntax trees of the [ast] module that the code inspects;
    - [Pattern]: [matches], [patthash], [replace_pattern_vars], the
      [RewriteEngine] and the [WrappedRewriteEngine];
    - [Registry]: [FnInfo] and [ModuleInfo];
    - [Compiler]: the [Z3Transformer] methods for comparisons and
      subscripts, with [z3apply] and [_merge_arg];
    - [Solver]: the selection of axioms and the verdict of [solve];
    - [Expansion]: the knowledge-expansion loop of [prove_assertion_fn];
    - [PatternMore], [RegistryMore], [CompilerMore], [SolverMore],
      [ExpansionMore]: what the properties of the second part need on
      top of these ([call_predicate], the loop that fills an engine,
      [find_weight], [check_assertion_fn], ...);
    - [PattToLambda]: [gensym] and [patt_to_lambda];
    - [CoreAxioms]: [core_assertions] and what its axioms say;
    - [PathCover]: the selection loop of [path_cover]
      (crosshair/path_cover.py). *)

From Stdlib Require Import ZArith Ascii String.
From stdpp Require Import base option list strings gmap sorting pretty.

Set Warnings "-register-all".

Local Open Scope string_scope.

(** ** Python outcomes *)

Module Outcome.

(** The exceptions the modelled code can raise. *)
Inductive exn : Type :=
| Exception (msg : string)
| KeyError (key : string)
| IndexError
| AttributeError (attr : string)
| NameError (name : string)
| TypeError (msg : string)
| Z3Exception (value : string).

(** What running a piece of code gives. [OutOfFuel] is what a recursion
    or loop of the Python code gives here when it has not finished
    within the fuel it was given; the code itself would go on. *)
Inductive res (A : Type) : Type :=
| Done (a : A)
| Raise (e : exn)
| OutOfFuel.
Arguments Done {A} a.
Arguments Raise {A} e.
Arguments OutOfFuel {A}.

#[global] Instance res_ret : MRet res := fun A a => Done a.
#[global] Instance res_bind : MBind res := fun A B f m =>
  match m with
  | Done a => f a
  | Raise e => Raise e
  | OutOfFuel => OutOfFuel
  end.

#[global] Instance res_fmap : FMap res := fun A B f m =>
  match m with
  | Done a => Done (f a)
  | Raise e => Raise e
  | OutOfFuel => OutOfFuel
  end.

End Outcome.
Export Outcome.

(** ** Syntax trees *)

Module Ast.

(** The classes of [ast] the prover distinguishes by name, with the
    fields it reads. Every other class (operators such as [Add],
    [Lambda], [Tuple], [arguments], ...) is an [Other] node: its class
    name and the values of its fields, in field order. A Python list
    that is handed around as a value (a [body], or a field of an [Other]
    node) is a [PyList]. Left out are the fields the prover neither reads
    nor sets on the nodes it builds: [ctx], [keywords] and the source
    positions. *)
Inductive node : Type :=
| Name (id : string)
| Num (n : Z)
| NameConstant (value : option bool)
| Call (func : node) (args : list node)
| BinOp (left op right : node)
| BoolOp (op : node) (values : list node)
| Compare (left : node) (ops : list node) (comparators : list node)
| Subscript (value : node) (slice : node)
| Index (value : node)
| Slice (lower upper step : option node)
| ExtSlice (dims : list node)
| Module (body : list node)
| Expr (value : node)
| arg (arg : string) (annotation : option node)
| Other (cls : string) (fields : list node)
| PyList (items : list node).

(** [type(node)] *)
Inductive nodetype : Type :=
| TName | TNum | TNameConstant | TCall | TBinOp | TBoolOp | TCompare
| TSubscript | TIndex | TSlice | TExtSlice | TModule | TExpr | Targ
| TOther (cls : string) | Tlist.

#[global] Instance nodetype_eq_dec : EqDecision nodetype.
Proof. solve_decision. Defined.

Definition type (n : node) : nodetype :=
  match n with
  | Name _ => TName
  | Num _ => TNum
  | NameConstant _ => TNameConstant
  | Call _ _ => TCall
  | BinOp _ _ _ => TBinOp
  | BoolOp _ _ => TBoolOp
  | Compare _ _ _ => TCompare
  | Subscript _ _ => TSubscript
  | Index _ => TIndex
  | Slice _ _ _ => TSlice
  | ExtSlice _ => TExtSlice
  | Module _ => TModule
  | Expr _ => TExpr
  | arg _ _ => Targ
  | Other cls _ => TOther cls
  | PyList _ => Tlist
  end.

(** [isinstance(x, ast.AST)]: everything but a Python list. *)
Definition is_AST (n : node) : bool :=
  match n with PyList _ => false | _ => true end.

(** Operator and context objects carry no fields. *)
Definition Add : node := Other "Add" [].
Definition Sub : node := Other "Sub" [].
Definition And : node := Other "And" [].
Definition Or : node := Other "Or" [].
Definition Lt : node := Other "Lt" [].
Definition LtE : node := Other "LtE" [].
Definition Eq : node := Other "Eq" [].

(** [type(op).__name__] *)
Definition type_name (n : node) : string :=
  match n with
  | Name _ => "Name"
  | Num _ => "Num"
  | NameConstant _ => "NameConstant"
  | Call _ _ => "Call"
  | BinOp _ _ _ => "BinOp"
  | BoolOp _ _ => "BoolOp"
  | Compare _ _ _ => "Compare"
  | Subscript _ _ => "Subscript"
  | Index _ => "Index"
  | Slice _ _ _ => "Slice"
  | ExtSlice _ => "ExtSlice"
  | Module _ => "Module"
  | Expr _ => "Expr"
  | arg _ _ => "arg"
  | Other cls _ => cls
  | PyList _ => "list"
  end.

End Ast.
Export Ast.

(** ** The pattern engine *)

Module Pattern.

(** A bindings dict: pattern-variable name to the subtree bound. *)
Abbreviation bindings := (gmap string node).

(** [patt.id[0] == '$'], with the [IndexError] of an empty identifier. *)
Definition starts_with_dollar (id : string) : res bool :=
  match id with
  | EmptyString => Raise IndexError
  | String c _ => Done (bool_decide (c = "$"%char))
  end.

(** [id[1:]] *)
Definition tail (id : string) : string :=
  match id with
  | EmptyString => EmptyString
  | String _ s => s
  end.

(** [all(m(ni, pi, b) for (ni, pi) in zip(ns, ps))]: [zip] stops at the
    shorter list, [all] stops at the first [False]; the dict [b] is the
    same object throughout, so each call sees what the earlier ones
    left in it. *)
Definition all_zip (m : node → node → bindings → res (bool * bindings)) :
    list node → list node → bindings → res (bool * bindings) :=
  fix go ns ps b :=
    match ns, ps with
    | ni :: ns', pi :: ps' =>
        '(ok, b') ← m ni pi b;
        if ok : bool then go ns' ps' b' else Done (false, b')
    | _, _ => Done (true, b)
    end.

(** [matches(node, patt, bind)]. The result pairs the boolean returned
    with the contents of [bind] on return. The entries of [_MATCHER]
    are inlined at their class. Annotations of [arg] nodes are compared
    with [==], which on [ast] objects is identity: the node and the
    pattern are separately built trees, so two annotations are equal
    only when both are [None]. *)
Fixpoint matches (node patt : node) (bind : bindings) {struct node} :
    res (bool * bindings) :=
  let dispatch :=
    if negb (bool_decide (type patt = type node)) then Done (false, ∅)
    else
      match node, patt with
      | Call nfunc nargs, Call pfunc pargs =>
          '(ok, b) ← matches nfunc pfunc bind;
          if ok : bool then
            if bool_decide (length nargs = length pargs)
            then all_zip matches nargs pargs b
            else Done (false, b)
          else Done (false, b)
      | Name nid, Name pid => Done (bool_decide (nid = pid), bind)
      | Module nbody, Module pbody =>
          (* matches(n.body, p.body, b) on two lists *)
          all_zip matches nbody pbody bind
      | Expr nvalue, Expr pvalue => matches nvalue pvalue bind
      | BinOp nleft nop nright, BinOp pleft pop pright =>
          if bool_decide (type nop = type pop) then
            '(ok, b) ← matches nleft pleft bind;
            if ok : bool then matches nright pright b else Done (false, b)
          else Done (false, bind)
      | BoolOp nop nvalues, BoolOp pop pvalues =>
          if bool_decide (type nop = type pop)
          then all_zip matches nvalues pvalues bind
          else Done (false, bind)
      | Num nn, Num pn => Done (bool_decide (nn = pn), bind)
      | PyList nitems, PyList pitems => all_zip matches nitems pitems bind
      | arg narg nann, arg parg pann =>
          Done (bool_decide (narg = parg) &&
                match nann, pann with None, None => true | _, _ => false end,
                bind)
      | _, _ =>
          Raise (Exception ("Unhandled node type: " ++ type_name patt))
      end in
  match patt with
  | Name pid =>
      d ← starts_with_dollar pid;
      if d : bool then Done (true, <[tail pid := node]> bind) else dispatch
  | _ => dispatch
  end.

(** The first test of [matches]: is the pattern a pattern variable? *)
Definition is_pattern_var (patt : node) : res bool :=
  match patt with
  | Name pid => starts_with_dollar pid
  | _ => Done false
  end.

(** *** Structural hash *)

Section Engine.

(** [hash(cls)] for a class object: fixed for the life of the process,
    otherwise unknown. *)
Variable tyhash : nodetype → Z.

(** [_AST_SUB_HASH]: the discriminant. The [func] of a [Call] is never
    a [str], so a call always gets [hash(0) = 0]. *)
Definition sub_hash (n : node) : Z :=
  match n with
  | BinOp _ op _ => tyhash (type op)
  | Call _ _ => 0
  | BoolOp op _ => tyhash (type op)
  | _ => 0
  end.

Definition patthash (n : node) : Z :=
  (Z.shiftl (tyhash (type n)) 8 + sub_hash n)%Z.

(** *** Substitution *)

(** [ast.NodeTransformer.generic_visit] on the items of a list field:
    an item that is an [AST] is replaced by what [visit] returns for
    it, and a returned list is spliced in; other items stay. *)
Definition visit_list (visit : node → res node) :
    list node → res (list node) :=
  fix go items :=
    match items with
    | [] => Done []
    | value :: rest =>
        vs ← (if is_AST value then
                v ← visit value;
                Done (match v with PyList xs => xs | _ => [v] end)
              else Done [value]);
        rest' ← go rest;
        Done (vs ++ rest')%list
    end.

(** One field: a list is visited item by item, a node is visited. *)
Definition visit_field (visit : node → res node) (old_value : node) :
    res node :=
  match old_value with
  | PyList items => PyList <$> visit_list visit items
  | _ => visit old_value
  end.

(** A field holding [None] is left alone. *)
Definition visit_opt (visit : node → res node) (old_value : option node) :
    res (option node) :=
  match old_value with
  | None => Done None
  | Some v => Some <$> visit_field visit v
  end.

(** The fields of a node of another class, one after the other. *)
Definition visit_fields (visit : node → res node) :
    list node → res (list node) :=
  fix go fs :=
    match fs with
    | [] => Done []
    | f :: rest =>
        f' ← visit_field visit f;
        rest' ← go rest;
        Done (f' :: rest')
    end.

(** [ast.NodeTransformer.generic_visit(node)]: the fields of [node]
    in the order of [_fields]. A list has no [_fields]. *)
Definition generic_visit_fields (visit : node → res node) (n : node) :
    res node :=
  match n with
  | Name id => Done (Name id)
  | Num k => Done (Num k)
  | NameConstant v => Done (NameConstant v)
  | Call func args =>
      func' ← visit_field visit func;
      args' ← visit_list visit args;
      Done (Call func' args')
  | BinOp lhs op rhs =>
      lhs' ← visit_field visit lhs;
      op' ← visit_field visit op;
      rhs' ← visit_field visit rhs;
      Done (BinOp lhs' op' rhs')
  | BoolOp op values =>
      op' ← visit_field visit op;
      values' ← visit_list visit values;
      Done (BoolOp op' values')
  | Compare lhs ops comparators =>
      lhs' ← visit_field visit lhs;
      ops' ← visit_list visit ops;
      comparators' ← visit_list visit comparators;
      Done (Compare lhs' ops' comparators')
  | Subscript value slice =>
      value' ← visit_field visit value;
      slice' ← visit_field visit slice;
      Done (Subscript value' slice')
  | Index value =>
      value' ← visit_field visit value;
      Done (Index value')
  | Slice lower upper step =>
      lower' ← visit_opt visit lower;
      upper' ← visit_opt visit upper;
      step' ← visit_opt visit step;
      Done (Slice lower' upper' step')
  | ExtSlice dims =>
      dims' ← visit_list visit dims;
      Done (ExtSlice dims')
  | Module body =>
      body' ← visit_list visit body;
      Done (Module body')
  | Expr value =>
      value' ← visit_field visit value;
      Done (Expr value')
  | arg a annotation =>
      annotation' ← visit_opt visit annotation;
      Done (arg a annotation')
  | Other cls fields =>
      fields' ← visit_fields visit fields;
      Done (Other cls fields')
  | PyList _ => Raise (AttributeError "_fields")
  end.

(** [PatternVarReplacer(mapping).visit(node)]: [visit_Name] for a
    [Name], [generic_visit] for every other class. [copy.deepcopy]
    is the identity on values. *)
Fixpoint PatternVarReplacer_visit (mapping : bindings) (n : node)
    {struct n} : res node :=
  match n with
  | Name nodeid =>
      d ← starts_with_dollar nodeid;
      if d : bool then
        match mapping !! tail nodeid with
        | Some v => Done v
        | None => Raise (KeyError (tail nodeid))
        end
      else Done (Name nodeid)
  | _ => generic_visit_fields (PatternVarReplacer_visit mapping) n
  end.

Definition replace_pattern_vars (n : node) (bind : bindings) : res node :=
  PatternVarReplacer_visit bind n.

(** [str.isupper()], a builtin that goes by the Unicode database: it
    tells whether the cased characters of the identifier, of which
    there must be one, are all upper case. Identifiers are the UTF-8
    encodings of the Python strings. *)
Variable isupper : string → bool.

(** [PatternVarPreprocessor().visit(node)]: an upper-case [Name] becomes
    a pattern variable. The [mapping] of the class always maps an
    identifier to ['$'] followed by it. *)
Fixpoint PatternVarPreprocessor_visit (n : node) {struct n} : res node :=
  match n with
  | Name nodeid =>
      if isupper nodeid then Done (Name ("$" +:+ nodeid))
      else Done (Name nodeid)
  | _ => generic_visit_fields PatternVarPreprocessor_visit n
  end.

(** The nodes [generic_visit] visits below a node: the [AST] values
    of its fields and the [AST] items of its list fields. *)
Definition field_children (f : node) : list node :=
  match f with
  | PyList items => filter (λ x, is_AST x = true) items
  | _ => [f]
  end.

Definition opt_children (f : option node) : list node :=
  match f with
  | None => []
  | Some v => field_children v
  end.

Definition children (n : node) : list node :=
  match n with
  | Name _ | Num _ | NameConstant _ | PyList _ => []
  | Call func args =>
      field_children func ++ filter (λ x, is_AST x = true) args
  | BinOp lhs op rhs =>
      field_children lhs ++ field_children op ++ field_children rhs
  | BoolOp op values =>
      field_children op ++ filter (λ x, is_AST x = true) values
  | Compare lhs ops comparators =>
      field_children lhs ++ filter (λ x, is_AST x = true) ops ++
      filter (λ x, is_AST x = true) comparators
  | Subscript value slice => field_children value ++ field_children slice
  | Index value => field_children value
  | Slice lower upper step =>
      opt_children lower ++ opt_children upper ++ opt_children step
  | ExtSlice dims => filter (λ x, is_AST x = true) dims
  | Module body => filter (λ x, is_AST x = true) body
  | Expr value => field_children value
  | arg _ annotation => opt_children annotation
  | Other _ fields => concat (map field_children fields)
  end%list.

(** *** Rewrite engines *)

(** A rule as [add] stores it: [(patt, repl, cond)]. The condition is
    called on the bindings dict and may update it before answering
    (as [normalize_binop] does) or raise. *)
Record rule : Type := Rule {
  patt : node;
  repl : node;
  cond : bindings → res (bool * bindings)
}.

(** [always = lambda x: True] *)
Definition always : bindings → res (bool * bindings) :=
  fun b => Done (true, b).

(** A [RewriteEngine] is its [_index]; a [WrappedRewriteEngine] has an
    [inner] engine besides. The index is a [defaultdict(list)]: a
    missing hash reads as the empty list. *)
Inductive engine : Type :=
| RewriteEngine (_index : gmap Z (list rule))
| WrappedRewriteEngine (inner : engine) (_index : gmap Z (list rule)).

Definition index_get (_index : gmap Z (list rule)) (hsh : Z) : list rule :=
  default [] (_index !! hsh).

(** [not r] on a list *)
Definition is_empty {A} (l : list A) : bool :=
  match l with [] => true | _ => false end.

(** [RewriteEngine.lookup] and [WrappedRewriteEngine.lookup] *)
Fixpoint lookup (self : engine) (hsh : Z) : list rule :=
  match self with
  | RewriteEngine _index => index_get _index hsh
  | WrappedRewriteEngine inner _index =>
      let r1 := index_get _index hsh in
      let r2 := lookup inner hsh in
      if is_empty r1 then r2
      else if is_empty r2 then r1
      else (r1 ++ r2)%list
  end.

(** [self.lookup(hsh).append(x)]: the engine after appending to the
    list object [lookup] returns. For a wrapped engine that object is
    the list of the inner engine when the local list is empty, the
    local list when only the inner one is empty, and a fresh list
    ([r1 + r2]) otherwise, in which case the appended rule is lost. *)
Fixpoint lookup_append (self : engine) (hsh : Z) (x : rule) : engine :=
  match self with
  | RewriteEngine _index =>
      RewriteEngine (<[hsh := (index_get _index hsh ++ [x])%list]> _index)
  | WrappedRewriteEngine inner _index =>
      let r1 := index_get _index hsh in
      let r2 := lookup inner hsh in
      if is_empty r1 then WrappedRewriteEngine (lookup_append inner hsh x) _index
      else if is_empty r2
      then WrappedRewriteEngine inner (<[hsh := (r1 ++ [x])%list]> _index)
      else WrappedRewriteEngine inner _index
  end.

(** [RewriteEngine.add(patt, repl, cond)]: the engine afterwards. *)
Definition add (self : engine) (patt repl : node)
    (cond : bindings → res (bool * bindings)) : res engine :=
  patt' ← PatternVarPreprocessor_visit patt;
  repl' ← PatternVarPreprocessor_visit repl;
  Done (lookup_append self (patthash patt') (Rule patt' repl' cond)).

(** [RewriteEngine()] and [WrappedRewriteEngine(inner)] *)
Definition RewriteEngine_new : engine := RewriteEngine ∅.
Definition WrappedRewriteEngine_new (inner : engine) : engine :=
  WrappedRewriteEngine inner ∅.

(** The [for candidate in ...] loop of [rewrite_top]: [None] when the
    loop ends with [matched] still false, otherwise the new node. The
    dict [bind] is shared by all the candidates of one pass. *)
Fixpoint try_candidates (n : node) (candidates : list rule)
    (bind : bindings) : res (option node) :=
  match candidates with
  | [] => Done None
  | candidate :: rest =>
      '(ok, bind1) ← matches n (patt candidate) bind;
      if ok : bool then
        '(c, bind2) ← cond candidate bind1;
        if c : bool then Some <$> replace_pattern_vars (repl candidate) bind2
        else try_candidates n rest bind2
      else try_candidates n rest bind1
  end.

Section Rewrite.

Variable self : engine.

(** [rewrite_top(node)]: the boolean tells whether the node returned
    is a new object ([newnode is not node] at the call site), which
    is the case exactly when some pass matched. *)
Fixpoint rewrite_top (fuel : nat) (n : node) : res (bool * node) :=
  match fuel with
  | O => OutOfFuel
  | S fuel' =>
      r ← try_candidates n (lookup self (patthash n)) ∅;
      match r with
      | None => Done (false, n)
      | Some newnode =>
          '(_, n') ← rewrite_top fuel' newnode;
          Done (true, n')
      end
  end.

(** [RewriteEngine.generic_visit(node)], which is also [visit(node)]
    for every class since the engine defines no [visit_<Class>]. *)
Fixpoint generic_visit (fuel : nat) (n : node) : res node :=
  match fuel with
  | O => OutOfFuel
  | S fuel' =>
      n1 ← generic_visit_fields (generic_visit fuel') n;
      '(changed, newnode) ← rewrite_top fuel' n1;
      if changed : bool then generic_visit fuel' newnode
      else Done n1
  end.

Definition rewrite (fuel : nat) (n : node) : res node :=
  generic_visit fuel n.

(** No candidate for the hash of [n] matches it with its condition
    satisfied: a pass of [rewrite_top] leaves [n] as it is. *)
Definition top_normal (n : node) : Prop :=
  try_candidates n (lookup self (patthash n)) ∅ = Done None.

End Rewrite.

End Engine.

(** A tree in normal form for an engine: no rule applies at its top
    nor at any node below it. *)
Inductive normal (tyhash : nodetype → Z) (self : engine) : node → Prop :=
| normal_node n :
    top_normal tyhash self n →
    (∀ c, c ∈ children n → normal tyhash self c) →
    normal tyhash self n.

End Pattern.

(** ** Stateful code *)

Module StateM.

(** Code that updates an object or a module global: the state after the
    call comes with its outcome, also when it raises. *)
Definition M (S A : Type) : Type := S → res A * S.

#[global] Instance M_ret {S} : MRet (M S) := fun A a s => (Done a, s).
#[global] Instance M_bind {S} : MBind (M S) := fun A B f m s =>
  match m s with
  | (Done a, s') => f a s'
  | (Raise e, s') => (Raise e, s')
  | (OutOfFuel, s') => (OutOfFuel, s')
  end.

Definition raise {S A} (e : exn) : M S A := fun s => (Raise e, s).
Definition out_of_fuel {S A} : M S A := fun s => (OutOfFuel, s).
Definition lift {S A} (r : res A) : M S A := fun s => (r, s).

(** [[f(x) for x in xs]] *)
Fixpoint mapM {S A B} (f : A → M S B) (xs : list A) : M S (list B) :=
  match xs with
  | [] => mret []
  | x :: rest => y ← f x; ys ← mapM f rest; mret (y :: ys)
  end.

End StateM.
Export StateM.

(** ** The definition registry *)

Module Registry.

(** A parsed [ast.FunctionDef] object. Function definitions are used as
    dict keys and set members, which goes by object identity: [oid]. *)
Record FunctionDef : Type := mkFunctionDef {
  oid : positive;
  fd_name : string;
  fd_args : list node;
  fd_body : list node;
  decorator_list : list node;
  returns : option node
}.

Record FnInfo : Type := mkFnInfo {
  name : string;
  moduleinfo : string;
  assertions : list FunctionDef;
  definition : option FunctionDef;
  definitional_assertion : option FunctionDef
}.

(** What the methods of [FnInfo] reach outside the object: the module
    global [_fndef_to_moduleinfo], and the identity given to the next
    object that is created. *)
Record World : Type := mkWorld {
  next_oid : positive;
  _fndef_to_moduleinfo : gmap positive string
}.

(** [FnInfo(name, moduleinfo)] *)
Definition FnInfo_init (name moduleinfo : string) : FnInfo :=
  {| name := name; moduleinfo := moduleinfo; assertions := [];
     definition := None; definitional_assertion := None |}.

Section Helpers.

(** [asthelpers] is not part of the sources at hand; the three helpers
    [fn_annotation_assertion] calls are parameters. *)
Variable fn_args : FunctionDef → list node.
Variable argument_preconditions : list node → list node.
Variable astcall : node → list node → node.

Definition arg_name (a : node) : string :=
  match a with arg x _ => x | _ => "" end.

(** [fn_annotation_assertion(fn)]; [fresh] is the identity of the
    [FunctionDef] it builds. *)
Definition fn_annotation_assertion (fresh : positive) (fn : FunctionDef) :
    option FunctionDef :=
  let args := fn_args fn in
  let preconditions := argument_preconditions args in
  if Pattern.is_empty preconditions && negb (bool_decide (is_Some (returns fn)))
  then None
  else
    let predicate := default (Name "isdefined") (returns fn) in
    let varnamerefs := map (λ a, Name (arg_name a)) args in
    let expectation :=
      astcall predicate [astcall (Name (fd_name fn)) varnamerefs] in
    Some {| oid := fresh;
            fd_name := "_assertdef_" +:+ fd_name fn;
            fd_args := fd_args fn;
            fd_body := [Other "Return" [expectation]];
            decorator_list := [];
            returns := None |}.

(** [FnInfo.add_assertion] *)
Definition add_assertion (self : FnInfo) (assertion : FunctionDef) :
    M World FnInfo := fun w =>
  (Done {| name := name self; moduleinfo := moduleinfo self;
           assertions := assertions self ++ [assertion];
           definition := definition self;
           definitional_assertion := definitional_assertion self |},
   {| next_oid := next_oid w;
      _fndef_to_moduleinfo :=
        <[oid assertion := moduleinfo self]> (_fndef_to_moduleinfo w) |}).

(** [FnInfo.set_definition] *)
Definition set_definition (self : FnInfo) (definition' : FunctionDef) :
    M World FnInfo := fun w =>
  match definition self with
  | Some _ =>
      (Raise (Exception ("multiply defined function: " +:+ name self)), w)
  | None =>
      let w' := {| next_oid := Pos.succ (next_oid w);
                   _fndef_to_moduleinfo :=
                     <[oid definition' := moduleinfo self]>
                       (_fndef_to_moduleinfo w) |} in
      let definitional_assertion' :=
        fn_annotation_assertion (next_oid w) definition' in
      (Done {| name := name self; moduleinfo := moduleinfo self;
               assertions := assertions self;
               definition := Some definition';
               definitional_assertion :=
                 match definitional_assertion' with
                 | Some a => Some a
                 | None => definitional_assertion self
                 end |}, w')
  end.

Definition get_definition (self : FnInfo) : option FunctionDef :=
  definition self.
Definition get_assertions (self : FnInfo) : list FunctionDef :=
  assertions self.

(** The calls a client can make on a [FnInfo]. *)
Inductive call : Type :=
| call_add_assertion (assertion : FunctionDef)
| call_set_definition (definition : FunctionDef)
| call_get_definition
| call_get_assertions.

(** One call on the object; a call that raises leaves it as it was. *)
Definition step (c : call) (st : FnInfo * World) : FnInfo * World :=
  match c with
  | call_add_assertion a =>
      match add_assertion st.1 a st.2 with
      | (Done self', w') => (self', w')
      | (_, w') => (st.1, w')
      end
  | call_set_definition d =>
      match set_definition st.1 d st.2 with
      | (Done self', w') => (self', w')
      | (_, w') => (st.1, w')
      end
  | call_get_definition | call_get_assertions => st
  end.

Definition run (calls : list call) (st : FnInfo * World) : FnInfo * World :=
  foldl (λ st c, step c st) st calls.

(** *** ModuleInfo *)

(** [ModuleInfo.functions]: a dict, in insertion order. *)
Record ModuleInfo : Type := mkModuleInfo {
  module : string;
  functions : list (string * FnInfo)
}.

(** [ModuleInfo(module, module_ast)] *)
Definition ModuleInfo_init (module : string) : ModuleInfo :=
  {| module := module; functions := [("", FnInfo_init "" module)] |}.

Fixpoint dict_get {A} (d : list (string * A)) (k : string) : option A :=
  match d with
  | [] => None
  | (k', v) :: rest => if bool_decide (k' = k) then Some v else dict_get rest k
  end.

(** [d[k] = v]: in place for a key that is there, at the end otherwise. *)
Fixpoint dict_set {A} (d : list (string * A)) (k : string) (v : A) :
    list (string * A) :=
  match d with
  | [] => [(k, v)]
  | (k', v') :: rest =>
      if bool_decide (k' = k) then (k', v) :: rest
      else (k', v') :: dict_set rest k v
  end.

(** [ModuleInfo.get_fn(name)] *)
Definition get_fn (self : ModuleInfo) (name : string) : res FnInfo :=
  match dict_get (functions self) name with
  | Some f => Done f
  | None => Raise (KeyError name)
  end.

(** [ModuleInfo.fn(name)]: the module afterwards and the [FnInfo]. *)
Definition fn (self : ModuleInfo) (name : string) : ModuleInfo * FnInfo :=
  match dict_get (functions self) name with
  | Some f => (self, f)
  | None =>
      let f := FnInfo_init name (module self) in
      ({| module := module self;
          functions := dict_set (functions self) name f |}, f)
  end.

(** [name.startswith('_assert_')] and [name[len('_assert_'):]] *)
Definition strip_assert (name : string) : option string :=
  if String.prefix "_assert_" name
  then Some (String.substring 8 (String.length name - 8) name)
  else None.

(** The body of the loop of [parse_pure] for one top-level
    [FunctionDef]. *)
Definition parse_item (item : FunctionDef) (ret : ModuleInfo) :
    M World ModuleInfo :=
  match strip_assert (fd_name item) with
  | Some name =>
      f ← lift (get_fn ret name);
      f' ← add_assertion f item;
      mret {| module := module ret;
              functions := dict_set (functions ret) name f' |}
  | None =>
      let '(ret1, f) := fn ret (fd_name item) in
      f' ← set_definition f item;
      mret {| module := module ret1;
              functions := dict_set (functions ret1) (fd_name item) f' |}
  end.

(** [parse_pure(module)] on the function definitions of the module
    body. *)
Fixpoint parse_items (items : list FunctionDef) (ret : ModuleInfo) :
    M World ModuleInfo :=
  match items with
  | [] => mret ret
  | item :: rest => ret' ← parse_item item ret; parse_items rest ret'
  end.

Definition parse_pure (module : string) (items : list FunctionDef) :
    M World ModuleInfo :=
  parse_items items (ModuleInfo_init module).

End Helpers.

End Registry.

(** ** The logic compiler *)

Module Compiler.
Import Registry.

(** Terms over the sort [Unk] (and the formulas built from them). *)
Inductive z3expr : Type :=
| Const (name : string)                 (* z3.Const(name, Unk) *)
| Unk_none
| Unk_bool (tobool : bool)
| Unk_int (toint : Z)
| Unk_a (tl hd : z3expr)
| Unk_empty                             (* Unk._ *)
| Unk_undef
| App (f args : z3expr)                 (* the function '.' *)
| Concat (x y : z3expr)
| Is_func (x : z3expr)
| Not (x : z3expr).

#[global] Instance z3expr_eq_dec : EqDecision z3expr.
Proof. solve_decision. Defined.

(** What the transformer passes around: a term, an [ast.Starred]
    wrapped around a value, an attribute of [Z], an [ast.FunctionDef]
    object, or [None]. *)
Inductive z3val : Type :=
| ZE (e : z3expr)
| ZStarred (value : z3val)
| ZIntrinsic (zname : string)
| ZFunctionDef (fd : FunctionDef)
| ZNone.

(** What a name or an operator denotes: the object [resolve] or
    [fn_for_op] returns. *)
Inductive referent : Type :=
| DName (id : string)                   (* an unresolved ast.Name *)
| Darg (oid : positive) (arg : string)  (* an ast.arg object *)
| DFunctionDef (fd : FunctionDef)
| DIntrinsic (zname : string)
| DNone.

(** [Z3BindingEnv]: a namedtuple with the fields [refs] and [support].
    [refs] is keyed by definition objects, that is by identity. *)
Record Z3BindingEnv : Type := mkEnv {
  refs : gmap positive z3expr;
  support : list z3expr
}.

(** [Z3BindingEnv()] *)
Definition Z3BindingEnv_new : Z3BindingEnv := {| refs := ∅; support := [] |}.

(** The value of an attribute of the environment. *)
Inductive env_attr : Type :=
| attr_refs (r : gmap positive z3expr)
| attr_support (s : list z3expr).

(** [self.env.<attr>] *)
Definition env_getattr (attr : string) : M Z3BindingEnv env_attr :=
  fun env =>
    if bool_decide (attr = "refs") then (Done (attr_refs (refs env)), env)
    else if bool_decide (attr = "support")
    then (Done (attr_support (support env)), env)
    else (Raise (AttributeError attr), env).

(** The double quote character *)
Definition dquote : string := String (ascii_of_nat 34) EmptyString.

(** A z3 constructor or function applied to something that is not a
    term is refused by z3. *)
Definition not_a_term : exn := Z3Exception "Z3 expression expected".

Definition as_expr (v : z3val) : res z3expr :=
  match v with
  | ZE e => Done e
  | _ => Raise not_a_term
  end.

(** [_merge_arg(accumulator, arg)] *)
Definition _merge_arg (accumulator arg : z3val) : res z3val :=
  match arg with
  | ZStarred value =>
      acc ← as_expr accumulator;
      if bool_decide (acc = Unk_empty) then Done value
      else v ← as_expr value; Done (ZE (Concat acc v))
  | _ =>
      acc ← as_expr accumulator;
      a ← as_expr arg;
      Done (ZE (Unk_a acc a))
  end.

(** [functools.reduce(f, xs, initial)] for an [f] that can raise *)
Fixpoint reduce {A B} (f : A → B → res A) (xs : list B) (initial : A) : res A :=
  match xs with
  | [] => Done initial
  | x :: rest => a ← f initial x; reduce f rest a
  end.

(** [functools.reduce(f, xs)] *)
Definition reduce1 {A} (f : A → A → res A) (xs : list A) : res A :=
  match xs with
  | [] => Raise (TypeError "reduce() of empty sequence with no initial value")
  | x :: rest => reduce f rest x
  end.

Section Transformer.

(** The registry [_pure_defs] built from the [crosshair] module, and
    the application of an attribute of [Z] to its arguments. *)
Variable _pure_defs : ModuleInfo.
Variable apply_intrinsic : string → list z3val → res z3val.

(** [fn_for_op(optype)] *)
Definition fn_for_op (optype : string) : res referent :=
  f ← get_fn _pure_defs ("_op_" +:+ optype);
  Done (match get_definition f with
        | Some fd => DFunctionDef fd
        | None => DNone
        end).

(** [z3apply(fnval, args)] *)
Definition z3apply (fnval : z3val) (args : list z3val) : res z3val :=
  match fnval with
  | ZIntrinsic zname => apply_intrinsic zname args
  | _ =>
      a ← reduce _merge_arg args (ZE Unk_empty);
      f ← as_expr fnval;
      a' ← as_expr a;
      Done (ZE (App f a'))
  end.

(** [Z3Transformer.register(definition)] *)
Definition register (d : referent) : M Z3BindingEnv z3val :=
  let memo (key : positive) (name : string) : M Z3BindingEnv z3val :=
    fun env =>
      match refs env !! key with
      | Some c => (Done (ZE c), env)
      | None =>
          (Done (ZE (Const name)),
           {| refs := <[key := Const name]> (refs env);
              support := support env |})
      end in
  match d with
  | DName id =>
      raise (Exception ("Undefined identifier: " +:+ dquote +:+ id +:+
                        dquote +:+ " at line [:]"))
  | Darg key a => memo key a
  | DFunctionDef fd => memo (oid fd) (fd_name fd)
  | DIntrinsic zname => mret (ZIntrinsic zname)
  | DNone => mret ZNone
  end.

(** [self.register(fn_for_op(type(op).__name__))] *)
Definition register_op (op : node) : M Z3BindingEnv z3val :=
  d ← lift (fn_for_op (type_name op)); register d.

(** An object used as a value without being registered. *)
Definition val_of_definition (d : referent) : z3val :=
  match d with
  | DFunctionDef fd => ZFunctionDef fd
  | DIntrinsic zname => ZIntrinsic zname
  | _ => ZNone
  end.

(** [Z3Transformer.generic_visit(node)]; the class is named without
    the [<class '...'>] around it. *)
Definition unhandled {St} (cls : string) : M St z3val :=
  raise (Exception ("Unhandled ast - to - z3 transformation: " +:+ cls)).

(** *** Comparisons *)

Section Compare.

(** The state the transformer works on, its [visit], and the
    registration of the function of an operator. *)
Context {St : Type}.
Variable visit : node → M St z3val.
Variable register_op : node → M St z3val.

(** [add(expr, clause)], a closure of [visit_Compare] *)
Definition add (expr : option z3val) (clause : z3val) : M St z3val :=
  match expr with
  | None => mret clause
  | Some e =>
      z3and ← register_op And;
      lift (z3apply z3and [clause; e])
  end.

(** The [for op, left in ...] loop: [ret] and [lastval] after it. *)
Fixpoint compare_loop (pairs : list (node * node))
    (ret : option z3val) (lastval : z3val) :
    M St (option z3val * z3val) :=
  match pairs with
  | [] => mret (ret, lastval)
  | (op, lhs) :: rest =>
      z3fn ← register_op op;
      lhs' ← visit lhs;
      clause ← lift (z3apply z3fn [lhs'; lastval]);
      ret' ← add ret clause;
      compare_loop rest (Some ret') lhs'
  end.

(** [Z3Transformer.visit_Compare(node)] *)
Definition visit_Compare (lhs : node) (ops comparators : list node) :
    M St z3val :=
  match last comparators with
  | None => raise IndexError
  | Some c =>
      lastval ← visit c;
      '(ret, lastval) ←
        compare_loop (rev (zip (tail ops) (removelast comparators)))
          None lastval;
      match ops with
      | [] => raise IndexError
      | op0 :: _ =>
          z3fn ← register_op op0;
          lhs' ← visit lhs;
          clause ← lift (z3apply z3fn [lhs'; lastval]);
          add ret clause
      end
  end.

End Compare.

(** The chained comparison as the specification words it: the
    conjunction of the comparisons of adjacent operands, nested to
    the right. *)
Definition comparison (op : node) (a b : z3expr) : z3expr :=
  App (Const ("_op_" +:+ type_name op)) (Unk_a (Unk_a Unk_empty a) b).

Fixpoint pairwise (ops : list node) (x : z3expr) (xs : list z3expr) :
    list z3expr :=
  match ops, xs with
  | op :: ops', y :: xs' => comparison op x y :: pairwise ops' y xs'
  | _, _ => []
  end.

Definition conjoin (rest : option z3expr) (c : z3expr) : z3expr :=
  match rest with
  | None => c
  | Some r => comparison And c r
  end.

Fixpoint conjunction (cs : list z3expr) : option z3expr :=
  match cs with
  | [] => None
  | c :: rest => Some (conjoin (conjunction rest) c)
  end.

(** A transformer that only records which operands it is asked to
    compile, each operand [n] compiling to the term [term_of n], and
    that names the function of an operator after it. *)
Definition visit_log (term_of : node → z3expr) (n : node) :
    M (list node) z3val :=
  fun visited => (Done (ZE (term_of n)), (visited ++ [n])%list).

Definition register_log (op : node) : M (list node) z3val :=
  mret (ZE (Const ("_op_" +:+ type_name op))).

(** [ret] and [lastval] after the loop of [visit_Compare], as terms,
    when operands compile to [term_of]. *)
Fixpoint loop_terms (term_of : node → z3expr) (pairs : list (node * node))
    (ret : option z3expr) (lastval : z3expr) : option z3expr * z3expr :=
  match pairs with
  | [] => (ret, lastval)
  | (op, lhs) :: rest =>
      loop_terms term_of rest
        (Some (conjoin ret (comparison op (term_of lhs) lastval)))
        (term_of lhs)
  end.

(** The operands [cs ++ [c]] compile to a first term and the others. *)
Definition first_term (term_of : node → z3expr) (cs : list node)
    (last_term : z3expr) : z3expr :=
  match cs with
  | [] => last_term
  | c :: _ => term_of c
  end.

Definition other_terms (term_of : node → z3expr) (cs : list node)
    (last_term : z3expr) : list z3expr :=
  match cs with
  | [] => []
  | _ :: cs' => ((term_of <$> cs') ++ [last_term])%list
  end.

(** *** Subscripts *)

(** [self.env.ops.add(X)]: the attribute [ops] is looked up first;
    neither a dict nor a list would have an [add]. *)
Definition env_ops_add : M Z3BindingEnv unit :=
  _ ← env_getattr "ops";
  raise (AttributeError "add").

Section Subscript.

Variable visit : node → M Z3BindingEnv z3val.

(** [self.visit(x)] for a field that can hold [None] *)
Definition visit_optional (x : option node) : M Z3BindingEnv z3val :=
  match x with
  | Some n => visit n
  | None => unhandled "NoneType"
  end.

(** [Z3Transformer.handle_subscript(value, subscript)]. The name
    [index] in the [ExtSlice] branch is bound neither in the method
    nor in the module; it is taken not to be one of the names that
    [from asthelpers import *] brings in. *)
Definition handle_subscript (value : z3val) (subscript : node) :
    M Z3BindingEnv z3val :=
  match subscript with
  | Index v =>
      _ ← env_ops_add;
      f ← lift (fn_for_op "Get");
      i ← visit v;
      lift (z3apply (val_of_definition f) [value; i])
  | Slice lower upper step =>
      match step with
      | None =>
          _ ← env_ops_add;
          f ← lift (fn_for_op "SubList");
          lo ← visit_optional lower;
          hi ← visit_optional upper;
          lift (z3apply (val_of_definition f) [value; lo; hi])
      | Some st =>
          _ ← env_ops_add;
          f ← lift (fn_for_op "SteppedSubList");
          lo ← visit_optional lower;
          hi ← visit_optional upper;
          st' ← visit st;
          lift (z3apply (val_of_definition f) [value; lo; hi; st'])
      end
  | ExtSlice _ => raise (NameError "index")
  | _ => mret ZNone
  end.

End Subscript.

(** *** The transformer *)

(** The handlers of [Name], [Call], [Lambda], [Starred], [Tuple] and
    [UnaryOp] (name resolution and inlining rest on [asthelpers]):
    a parameter, given the [visit] to use on subtrees. *)
Variable visit_rest :
  (node → M Z3BindingEnv z3val) → node → M Z3BindingEnv z3val.

Definition has_handler (cls : string) : bool :=
  bool_decide (cls ∈ ["Lambda"; "Starred"; "Tuple"; "UnaryOp"]).

(** [Z3Transformer.visit(node)]: dispatch on the class. *)
Fixpoint visit (fuel : nat) (n : node) : M Z3BindingEnv z3val :=
  match fuel with
  | O => out_of_fuel
  | S fuel' =>
      match n with
      | Num k => mret (ZE (Unk_int k))
      | NameConstant value =>
          mret (ZE (match value with
                    | Some b => Unk_bool b
                    | None => Unk_none
                    end))
      | BinOp lhs op rhs =>
          z3fn ← register_op op;
          lhs' ← visit fuel' lhs;
          rhs' ← visit fuel' rhs;
          lift (z3apply z3fn [lhs'; rhs'])
      | BoolOp op values =>
          z3fn ← register_op op;
          args ← mapM (visit fuel') values;
          lift (reduce1 (λ a b, z3apply z3fn [a; b]) args)
      | Compare lhs ops comparators =>
          visit_Compare (visit fuel') register_op lhs ops comparators
      | Subscript value slice =>
          v ← visit fuel' value;
          handle_subscript (visit fuel') v slice
      | Name _ | Call _ _ => visit_rest (visit fuel') n
      | Other cls _ =>
          if has_handler cls then visit_rest (visit fuel') n
          else unhandled cls
      | _ => unhandled (type_name n)
      end
  end.

(** [to_z3(node, env)] *)
Definition to_z3 (fuel : nat) (n : node) (env : Z3BindingEnv) :
    res z3val * Z3BindingEnv :=
  visit fuel n env.

End Transformer.

End Compiler.

(** ** The solver adapter *)

Module Solver.
Import Registry Compiler.

Section Solve.

(** Scores are numbers handed out by the proof oracle; all the code
    does with them is compare them with [<] when sorting. *)
Variable Score : Type.
Variable lt : Score → Score → bool.

(** [Z3Statement] *)
Record Z3Statement : Type := mkStatement {
  score : option Score;
  src_ast : option FunctionDef;
  expr : z3expr
}.

(** [a.score is None] *)
Definition is_required (a : Z3Statement) : bool :=
  match score a with None => true | Some _ => false end.

(** [key(a) < key(b)] for [key = lambda a: a.score] *)
Definition key_lt (a b : Z3Statement) : bool :=
  match score a, score b with
  | Some x, Some y => lt x y
  | _, _ => false
  end.

(** [list.sort(key=...)] is a stable sort: an element goes after the
    elements that are not greater than it and were before it. *)
Fixpoint insert_sorted (a : Z3Statement) (l : list Z3Statement) :
    list Z3Statement :=
  match l with
  | [] => [a]
  | b :: rest =>
      if key_lt b a then b :: insert_sorted a rest else a :: b :: rest
  end.

Definition sort (l : list Z3Statement) : list Z3Statement :=
  foldr insert_sorted [] l.

(** [a] does not come after [b] in ascending order of score. *)
Definition ascending (a b : Z3Statement) : Prop := key_lt b a = false.

(** The assumptions [solve] goes on with. *)
Definition select (assumptions : list Z3Statement) : list Z3Statement :=
  let required_assumptions := filter (λ a, is_required a = true) assumptions in
  let assumptions := filter (λ a, is_required a = false) assumptions in
  let assumptions := sort assumptions in
  let assumptions := take 120 assumptions in
  (required_assumptions ++ assumptions)%list.

(** ['assumption{}'.format(idx)] *)
Definition label (idx : nat) : string := "assumption" +:+ pretty idx.

(** [stmt_index], filled in tracked mode only. *)
Definition make_stmt_index (make_repro_case : bool)
    (assumptions : list Z3Statement) : list (string * Z3Statement) :=
  if make_repro_case then []
  else imap (λ idx a, (label idx, a)) assumptions.

(** What is handed to the solver: each formula with the label it is
    tracked under, if any. *)
Definition asserted (make_repro_case : bool)
    (assumptions : list Z3Statement) (conclusion : z3expr) :
    list (option string * z3expr) :=
  (if make_repro_case then
     map (λ a, (None, expr a)) assumptions ++ [(None, Not conclusion)]
   else
     imap (λ idx a, (Some (label idx), expr a)) assumptions ++
     [(Some "conclusion", Not conclusion)])%list.

(** What [solver.check()] does; with [unsat] comes what
    [solver.unsat_core()] would return, as strings. *)
Inductive check_result : Type :=
| unsat (core : list string)
| sat
| unknown
| check_raises (value : string).

Variable check : list (option string * z3expr) → check_result.

(** The loop that prints the core: it looks every label but
    ['conclusion'] up in [stmt_index]. *)
Fixpoint print_core (stmt_index : list (string * Z3Statement))
    (core : list string) : res unit :=
  match core with
  | [] => Done tt
  | stmt :: rest =>
      if bool_decide (stmt = "conclusion") then print_core stmt_index rest
      else
        match dict_get stmt_index stmt with
        | None => Raise (KeyError stmt)
        | Some _ => print_core stmt_index rest
        end
  end.

(** [report], with the source tree standing for its text. *)
Definition make_report (stmt_index : list (string * Z3Statement))
    (core : list string) : list (FunctionDef * bool) :=
  omap (λ '(k, a), match src_ast a with
                   | Some src => Some (src, bool_decide (k ∈ core))
                   | None => None
                   end) stmt_index.

(** [solve(assumptions, conclusion, oracle)]; [make_repro_case] is
    read from the environment. Returns [(ret, report)]. *)
Definition solve (make_repro_case : bool) (assumptions : list Z3Statement)
    (conclusion : z3expr) : res (option bool * list (FunctionDef * bool)) :=
  let assumptions := select assumptions in
  let stmt_index := make_stmt_index make_repro_case assumptions in
  '(ret, core) ←
    match check (asserted make_repro_case assumptions conclusion) with
    | unsat core =>
        if make_repro_case then Done (Some true, [])
        else
          _ ← print_core stmt_index core;
          if bool_decide ("conclusion" ∈ core) then Done (Some true, core)
          else Raise (Exception
                 "Soundness failure; conclusion not required for proof")
    | sat => Done (Some false, [])
    | unknown => Done (None, [])
    | check_raises value =>
        if bool_decide (value = "canceled") then Done (None, [])
        else Raise (Z3Exception value)
    end;
  Done (ret, make_report stmt_index core).

End Solve.

End Solver.

(** ** Knowledge expansion *)

Module Expansion.
Import Registry Compiler Solver.

Section Loop.

Variable Score : Type.
Variable _pure_defs : ModuleInfo.

(** [make_statement(first, env, scopes)] with the scopes
    [get_scope_for_def] finds: it compiles the assertion function,
    which registers in [env.refs] the definitions the assertion
    refers to and appends to [env.support]; it can return [None] and
    it can raise. The code below it ([assertion_fn_to_z3], the scope
    tracker) rests on [asthelpers]. *)
Variable make_statement_fn :
  FunctionDef → M Z3BindingEnv (option (Z3Statement Score)).

(** [make_statement(first)]: a statement without source *)
Definition make_statement (first : z3expr) : Z3Statement Score :=
  {| score := None; src_ast := None; expr := first |}.

(** The variables of [prove_assertion_fn] the loop works on. *)
Record state : Type := mkState {
  env : Z3BindingEnv;
  baseline : list (option (Z3Statement Score));
  handled : gset positive
}.

(** [baseline.append(make_statement(fn, env, scopes))] *)
Definition append_statement_fn (f : FunctionDef) : M state unit :=
  fun st =>
    match make_statement_fn f (env st) with
    | (Done s, env') =>
        (Done tt, {| env := env'; baseline := baseline st ++ [s];
                     handled := handled st |})
    | (Raise e, env') =>
        (Raise e, {| env := env'; baseline := baseline st;
                     handled := handled st |})
    | (OutOfFuel, env') =>
        (OutOfFuel, {| env := env'; baseline := baseline st;
                     handled := handled st |})
    end.

(** [baseline.append(make_statement(Unk.is_func(env.refs[fn_def])))] *)
Definition append_is_func (fn_def : FunctionDef) : M state unit :=
  fun st =>
    match refs (env st) !! oid fn_def with
    | Some c =>
        (Done tt, {| env := env st;
                     baseline := baseline st ++ [Some (make_statement (Is_func c))];
                     handled := handled st |})
    | None => (Raise (KeyError (fd_name fn_def)), st)
    end.

Fixpoint for_each {A} (f : A → M state unit) (xs : list A) : M state unit :=
  match xs with
  | [] => mret tt
  | x :: rest => _ ← f x; for_each f rest
  end.

(** The body of [for name, fninfo in _pure_defs.functions.items()];
    returns whether it set [addedone]. *)
Definition expand_fn (borderset : gset positive) (fninfo : FnInfo) :
    M state bool :=
  match get_definition fninfo with
  | None => mret false
  | Some fn_def =>
      if bool_decide (oid fn_def ∈ borderset) then
        _ ← (λ st, (Done tt, {| env := env st; baseline := baseline st;
                                handled := {[oid fn_def]} ∪ handled st |}));
        _ ← for_each append_statement_fn (get_assertions fninfo);
        _ ← append_is_func fn_def;
        _ ← match definitional_assertion fninfo with
            | Some a => append_statement_fn a
            | None => mret tt
            end;
        mret true
      else mret false
  end.

Fixpoint expand_fns (borderset : gset positive)
    (fns : list (string * FnInfo)) (addedone : bool) : M state bool :=
  match fns with
  | [] => mret addedone
  | (_, fninfo) :: rest =>
      added ← expand_fn borderset fninfo;
      expand_fns borderset rest (addedone || added)
  end.

(** The first two statements of a round: the support formulas go to
    the baseline, and the environment keeps its [refs] only. *)
Definition absorb_support (st : state) : state :=
  {| env := {| refs := refs (env st); support := [] |};
     baseline := baseline st ++
                 map (λ f, Some (make_statement f)) (support (env st));
     handled := handled st |}.

(** One round of the loop; returns [addedone]. *)
Definition round : M state bool :=
  fun st =>
    let st := absorb_support st in
    let borderset := dom (refs (env st)) ∖ handled st in
    expand_fns borderset (functions _pure_defs) false st.

Definition _MAX_DEPTH : nat := 10.

(** [for iter in range(...)]: [remaining] rounds are left, [iter]
    have been run. Returns the number of rounds run and whether the
    loop was left by [break]. *)
Fixpoint expansion_loop (remaining iter : nat) : M state (nat * bool) :=
  match remaining with
  | O => mret (iter, false)
  | S remaining' =>
      addedone ← round;
      if addedone : bool then expansion_loop remaining' (S iter)
      else mret (S iter, true)
  end.

Definition knowledge_expansion : M state (nat * bool) :=
  expansion_loop _MAX_DEPTH 0.

(** Every definition of the registry that is referred to has been
    handled: the reference closure has reached its fixpoint. *)
Definition closed (st : state) : Prop :=
  ∀ name fninfo fn_def,
    (name, fninfo) ∈ functions _pure_defs →
    get_definition fninfo = Some fn_def →
    oid fn_def ∈ dom (refs (env st)) →
    oid fn_def ∈ handled st.

(** [k] rounds in a row, each of which added a definition. *)
Fixpoint productive_rounds (k : nat) (st : state) : option state :=
  match k with
  | O => Some st
  | S k' =>
      match round st with
      | (Done true, st') => productive_rounds k' st'
      | _ => None
      end
  end.

End Loop.

End Expansion.

(** ** Sample data *)

Module Examples.
Import Pattern Registry Compiler Solver Expansion.

(** A hash of the node classes. *)
Definition ex_tyhash (t : nodetype) : Z :=
  match t with
  | TName => 1 | TNum => 2 | TNameConstant => 3 | TCall => 4 | TBinOp => 5
  | TBoolOp => 6 | TCompare => 7 | TSubscript => 8 | TIndex => 9
  | TSlice => 10 | TExtSlice => 11 | TModule => 12 | TExpr => 13
  | Targ => 14 | Tlist => 15
  | TOther cls => 16 + Z.of_nat (String.length cls)
  end%Z.

(** [str.isupper()] as it is on the identifiers of the samples, which
    are made of ASCII characters: no lower-case letter and at least
    one upper-case letter. *)
Definition is_lower (c : ascii) : bool :=
  (97 <=? nat_of_ascii c)%nat && (nat_of_ascii c <=? 122)%nat.
Definition is_upper (c : ascii) : bool :=
  (65 <=? nat_of_ascii c)%nat && (nat_of_ascii c <=? 90)%nat.
Definition ex_isupper (s : string) : bool :=
  forallb (λ c, negb (is_lower c)) (list_ascii_of_string s) &&
  existsb is_upper (list_ascii_of_string s).

(** The rule of the doctest of [_test]: ['0 + X'] becomes ['X + 1']. *)
Definition ex_rule : rule :=
  Rule (BinOp (Num 0) Add (Name "$X")) (BinOp (Name "$X") Add (Num 1)) always.

Definition ex_engine : engine :=
  RewriteEngine {[ patthash ex_tyhash (patt ex_rule) := [ex_rule] ]}.

(** [0 + 2] *)
Definition ex_tree : node := BinOp (Num 0) Add (Num 2).

(** A local rule with the same hash: ['X + 0'] becomes ['X']. *)
Definition ex_local_rule : rule :=
  Rule (BinOp (Name "$X") Add (Num 0)) (Name "$X") always.

Definition ex_wrapped : engine :=
  WrappedRewriteEngine ex_engine
    {[ patthash ex_tyhash (patt ex_local_rule) := [ex_local_rule] ]}.

(** Two candidates tried in one pass: the first fails after binding
    [X], the second binds [Y] and puts [X] in its replacement. *)
Definition ex_first : rule :=
  Rule (BinOp (Name "$X") Add (Num 3)) (Name "$X") always.
Definition ex_second : rule :=
  Rule (BinOp (Num 0) Add (Name "$Y")) (Name "$X") always.

(** The operators of the doctests of [to_z3], as [parse_pure] would
    register them from the [crosshair] module. *)
Definition ex_def (key : positive) (nm : string) : FunctionDef :=
  {| oid := key; fd_name := nm; fd_args := []; fd_body := [];
     decorator_list := []; returns := None |}.

Definition ex_fninfo (key : positive) (nm : string)
    (asserts : list FunctionDef) : string * FnInfo :=
  (nm, {| name := nm; moduleinfo := "crosshair"; assertions := asserts;
          definition := Some (ex_def key nm);
          definitional_assertion := None |}).

(** Stand-ins for the helpers of [asthelpers]. *)
Definition ex_fn_args (f : FunctionDef) : list node := fd_args f.
Definition ex_argument_preconditions (args : list node) : list node :=
  omap (λ a, match a with arg _ annotation => annotation | _ => None end) args.
Definition ex_astcall (f : node) (args : list node) : node := Call f args.

Definition ex_pure_defs : ModuleInfo :=
  {| module := "crosshair";
     functions := [("", FnInfo_init "" "crosshair");
                   ex_fninfo 1 "_op_And" []; ex_fninfo 2 "_op_LtE" [];
                   ex_fninfo 3 "_op_Lt" []; ex_fninfo 4 "_op_Add" [];
                   ex_fninfo 5 "_op_Get" []] |}.

Definition ex_apply_intrinsic (zname : string) (args : list z3val) :
    res z3val :=
  Raise (Exception "not an intrinsic of this example").

Definition ex_visit_rest (visit : node → M Z3BindingEnv z3val) (n : node) :
    M Z3BindingEnv z3val :=
  raise (Exception "not a node of this example").

(** [0 <= 5 < 9] and [(0 <= 5) and (5 < 9)] *)
Definition ex_chain : node := Compare (Num 0) [LtE; Lt] [Num 5; Num 9].
Definition ex_conj : node :=
  BoolOp And [Compare (Num 0) [LtE] [Num 5]; Compare (Num 5) [Lt] [Num 9]].

Definition ex_term_of (n : node) : z3expr :=
  match n with
  | Num k => Unk_int k
  | _ => Unk_undef
  end.

(** Statements with integer scores. *)
Definition ex_stmt (s : option Z) (nm : string) : Z3Statement Z :=
  {| score := s; src_ast := None; expr := Const nm |}.

Definition ex_assumptions : list (Z3Statement Z) :=
  [ex_stmt None "p"; ex_stmt (Some 5%Z) "q5"; ex_stmt (Some 2%Z) "q2";
   ex_stmt None "not_p"; ex_stmt (Some 9%Z) "q9"].

(** A solver that finds the two required statements, [p] and [not_p],
    contradictory on their own. *)
Definition ex_check (assertions : list (option string * z3expr)) :
    check_result :=
  unsat ["assumption0"; "assumption1"].

(** A registry where the assertion about [f] mentions [g]. *)
Definition ex_registry : ModuleInfo :=
  {| module := "crosshair";
     functions := [("", FnInfo_init "" "crosshair");
                   ex_fninfo 1 "f" [ex_def 11 "_assert_f"];
                   ex_fninfo 2 "g" []] |}.

Definition ex_make_statement_fn (f : FunctionDef) :
    M Z3BindingEnv (option (Z3Statement Z)) :=
  fun env =>
    (Done (Some (ex_stmt None (fd_name f))),
     if bool_decide (fd_name f = "_assert_f")
     then {| refs := <[2%positive := Const "g"]> (refs env);
             support := support env |}
     else env).

Definition ex_state : state Z :=
  {| env := {| refs := {[1%positive := Const "f"]}; support := [] |};
     baseline := []; handled := ∅ |}.

End Examples.

(** ** More of the pattern engine *)

Module PatternMore.
Import Pattern.

(** The height of a tree, counting list values as a level. *)
Fixpoint height (n : node) : nat :=
  let heights := fix go (l : list node) : nat :=
    match l with
    | [] => O
    | x :: rest => Nat.max (height x) (go rest)
    end in
  let opt := λ o : option node,
    match o with
    | None => O
    | Some x => S (height x)
    end in
  match n with
  | Name _ | Num _ | NameConstant _ => O
  | Call func args => S (Nat.max (height func) (heights args))
  | BinOp lhs op rhs =>
      S (Nat.max (height lhs) (Nat.max (height op) (height rhs)))
  | BoolOp op values => S (Nat.max (height op) (heights values))
  | Compare lhs ops comparators =>
      S (Nat.max (height lhs) (Nat.max (heights ops) (heights comparators)))
  | Subscript value slice => S (Nat.max (height value) (height slice))
  | Index value => S (height value)
  | Slice lower upper step => S (Nat.max (opt lower) (Nat.max (opt upper) (opt step)))
  | ExtSlice dims => S (heights dims)
  | Module body => S (heights body)
  | Expr value => S (height value)
  | arg _ annotation => S (opt annotation)
  | Other _ fields => S (heights fields)
  | PyList items => S (heights items)
  end.

(** The largest height in a list of trees. *)
Definition heights (l : list node) : nat :=
  foldr (λ x m, Nat.max (height x) m) O l.

(** The names of the pattern variables [matches] can bind when it goes
    through a pattern: the identifiers after the ['$']. *)
Fixpoint pattern_vars (p : node) : gset string :=
  let vars := fix go (l : list node) : gset string :=
    match l with
    | [] => ∅
    | x :: rest => pattern_vars x ∪ go rest
    end in
  match p with
  | Name id =>
      match id with
      | String "$" rest => {[rest]}
      | _ => ∅
      end
  | Call func args => pattern_vars func ∪ vars args
  | BinOp lhs _ rhs => pattern_vars lhs ∪ pattern_vars rhs
  | BoolOp _ values => vars values
  | Module body => vars body
  | Expr value => pattern_vars value
  | PyList items => vars items
  | _ => ∅
  end.

Definition patterns_vars (l : list node) : gset string :=
  foldr (λ x s, pattern_vars x ∪ s) ∅ l.

(** The outcome [r] of a match on the bindings [b]: the dict was
    cleared and the answer is [False], or only keys in [V] were
    written. *)
Definition wrote_within (V : gset string) (b : bindings)
    (r : res (bool * bindings)) : Prop :=
  ∀ ok b', r = Done (ok, b') →
    (ok = false ∧ b' = ∅) ∨ (∀ k, k ∉ V → b' !! k = b !! k).

(** A template without pattern variables: no [Name] in it starts with
    ['$'] (nor is empty), at the top or below. *)
Definition plain_top (n : node) : Prop :=
  is_AST n = true ∧
  match n with
  | Name id => starts_with_dollar id = Done false
  | _ => True
  end.

Inductive variable_free : node → Prop :=
| variable_free_node n :
    plain_top n →
    (∀ c, c ∈ children n → variable_free c) →
    variable_free n.

(** An engine that has no candidate for any hash. *)
Definition rule_free (self : engine) : Prop := ∀ hsh, lookup self hsh = [].

(** Whether [self.lookup(hsh).append(x)] is lost: the list [lookup]
    returned is the fresh one, [r1 + r2], of a wrapped engine with rules
    for [hsh] on both sides. *)
Fixpoint append_lost (self : engine) (hsh : Z) : bool :=
  match self with
  | RewriteEngine _ => false
  | WrappedRewriteEngine inner _index =>
      if is_empty (index_get _index hsh) then append_lost inner hsh
      else negb (is_empty (lookup inner hsh))
  end.

Section CallPredicate.

Variable tyhash : nodetype → Z.
Variable isupper : string → bool.

(** [for (patt, repl, condition) in rules: self.add(patt, repl,
    condition)], the loop that fills an engine, on parsed rules. *)
Fixpoint add_all (self : engine)
    (rules : list (node * node * (bindings → res (bool * bindings)))) :
    res engine :=
  match rules with
  | [] => Done self
  | (patt, repl, condition) :: rest =>
      self' ← add tyhash isupper self patt repl condition;
      add_all self' rest
  end.

(** The list the module loops over to fill [basic_simplifier]: every
    entry of it is commented out. *)
Definition basic_simplifier_rules :
    list (node * node * (bindings → res (bool * bindings))) :=
  [].

(** The module global [basic_simplifier] as the import of the module
    leaves it: [RewriteEngine()], then the loop over the rules. It is a
    mutable object: [add] on it, or on an engine that wraps it, changes
    it afterwards. *)
Definition basic_simplifier_at_import : res engine :=
  add_all RewriteEngine_new basic_simplifier_rules.

(** [call_predicate(predicate, target)]; [basic_simplifier] is the
    module global as it is when the call is made. *)
Definition call_predicate (basic_simplifier : engine) (fuel : nat)
    (predicate target : node) : res node :=
  rewrite tyhash basic_simplifier fuel (Call predicate [target]).

End CallPredicate.

End PatternMore.

(** ** Fresh symbols and lambdas *)

Module PattToLambda.
Import Pattern.

(** ['{:03d}'.format(n)] on the decimal digits of [n] *)
Definition pad3 (digits : string) : string :=
  match String.length digits with
  | 1%nat => "00" +:+ digits
  | 2%nat => "0" +:+ digits
  | _ => digits
  end.

(** [gensym(name)]; the state is the module global [_SYMCTR]. *)
Definition gensym (name : string) : M nat string :=
  fun _SYMCTR =>
    (Done (name +:+ "#" +:+ pad3 (pretty (S _SYMCTR))), S _SYMCTR).

(** One item of the generator handed to [all]: [type(a) is ast.Name
    and a.id[0] == '$' and a.id[1:].text == v]. A [str] has no
    attribute [text]. *)
Definition arg_is_var (a : node) (v : string) : res bool :=
  match a with
  | Name id =>
      d ← starts_with_dollar id;
      if d : bool then Raise (AttributeError "text") else Done false
  | _ => Done false
  end.

(** [all(... for (a, v) in zip(patt.args, argvars))] *)
Fixpoint args_are_vars (args : list node) (argvars : list string) : res bool :=
  match args, argvars with
  | a :: args', v :: argvars' =>
      ok ← arg_is_var a v;
      if ok : bool then args_are_vars args' argvars' else Done false
  | _, _ => Done true
  end.

(** The test of [patt_to_lambda]: can the lambda be skipped? *)
Definition can_skip (patt : node) (argvars : list string) : res bool :=
  match patt with
  | Call (Name _) args =>
      if bool_decide (length args = length argvars)
      then args_are_vars args argvars
      else Done false
  | _ => Done false
  end.

(** What [patt_to_lambda] returns: the function of the pattern, or a
    new [ast.Lambda], given by the names of its parameters and its
    body. *)
Inductive func_or_lambda : Type :=
| Func (func : node)
| Lambda (params : list string) (body : node).

(** [[(v, gensym(v)) for v in argvars]] *)
Fixpoint make_varmap (argvars : list string) : M nat (list (string * string)) :=
  match argvars with
  | [] => mret []
  | v :: rest =>
      v2 ← gensym v;
      varmap ← make_varmap rest;
      mret ((v, v2) :: varmap)
  end.

(** [{v1: ast.Name(id=v2) for v1, v2 in varmap}]: a later pair
    replaces an earlier one with the same key. *)
Definition varmap_bindings (varmap : list (string * string)) : bindings :=
  foldl (λ m p, <[p.1 := Name p.2]> m) ∅ varmap.

(** [patt_to_lambda(patt, argvars)] *)
Definition patt_to_lambda (patt : node) (argvars : list string) :
    M nat func_or_lambda :=
  skip ← lift (can_skip patt argvars);
  if skip : bool then
    match patt with
    | Call func _ => mret (Func func)
    | _ => raise (AttributeError "func")
    end
  else
    varmap ← make_varmap argvars;
    body ← lift (replace_pattern_vars patt (varmap_bindings varmap));
    mret (Lambda varmap.*2 body).

End PattToLambda.

(** ** More of the registry *)

Module RegistryMore.
Import Registry.

(** What [parse_pure] has on record for a top-level function: an
    [_assert_<name>] function is among the assertions of the entry
    [<name>], any other function is the definition of the entry under
    its own name. *)
Definition recorded (ret : ModuleInfo) (item : FunctionDef) : Prop :=
  match strip_assert (fd_name item) with
  | Some name =>
      ∃ f, dict_get (functions ret) name = Some f ∧ item ∈ assertions f
  | None =>
      ∃ f, dict_get (functions ret) (fd_name item) = Some f ∧
           definition f = Some item
  end.

(** The entries of a registry for the module [m] belong to it and are
    filed under their own name. *)
Definition well_keyed (m : string) (ret : ModuleInfo) : Prop :=
  module ret = m ∧
  ∀ k f, dict_get (functions ret) k = Some f → name f = k ∧ moduleinfo f = m.

(** The names of the functions of a module body that are definitions. *)
Definition defined_names (items : list FunctionDef) : list string :=
  fd_name <$> filter (λ item, strip_assert (fd_name item) = None) items.

End RegistryMore.

(** ** More of the logic compiler *)

Module CompilerMore.
Import Registry Compiler.

(** The tuple of [Unk] that holds the values [es]:
    [a(... a(a(_, e1), e2) ..., en)]. *)
Definition tuple_of (es : list z3expr) : z3expr := foldl Unk_a Unk_empty es.

(** [op(op(e1, e2), e3) ...] for a binary function [f] of the registry:
    what [functools.reduce] builds from single applications. *)
Definition left_nested (f : z3expr) (e : z3expr) (es : list z3expr) : z3expr :=
  foldl (λ a b, App f (tuple_of [a; b])) e es.

(** An operation on the environment that keeps every reference it
    finds, with its constant, whatever its outcome. *)
Definition keeps_refs {A} (m : M Z3BindingEnv A) : Prop :=
  ∀ env r env', m env = (r, env') → refs env ⊆ refs env'.

End CompilerMore.

(** ** More of the solver adapter and of the prover *)

Module SolverMore.
Import Registry Compiler Solver.

Section Ties.

Variable Score : Type.
Variable lt : Score → Score → bool.

(** A scored statement whose score is neither less nor greater than
    [s]: for the sort, it ties with a statement of score [s]. *)
Definition tied (s : Score) (a : Z3Statement Score) : Prop :=
  match score Score a with
  | Some x => lt s x = false ∧ lt x s = false
  | None => False
  end.

#[global] Instance tied_dec s a : Decision (tied s a).
Proof. unfold tied. destruct (score Score a); apply _. Defined.

End Ties.

(** Axioms that are contradictory on their own: a formula is among
    them together with its negation. *)
Definition contradictory {Score} (assumptions : list (Z3Statement Score)) :
    Prop :=
  ∃ e, e ∈ expr Score <$> assumptions ∧ Not e ∈ expr Score <$> assumptions.

(** [calls_name(expr)]: [None] unless [expr] calls a plain name. *)
Definition calls_name (expr : node) : option string :=
  match expr with
  | Call (Name id) _ => Some id
  | _ => None
  end.

(** [dec.args[0].n] *)
Definition first_arg_n (dec : node) : res Z :=
  match dec with
  | Call _ [] => Raise IndexError
  | Call _ (Num n :: _) => Done n
  | Call _ (_ :: _) => Raise (AttributeError "n")
  | _ => Raise (AttributeError "args")
  end.

(** The loop of [find_weight] over [expr.decorator_list] and the
    [return 1] after it. *)
Fixpoint find_weight_in (decorators : list node) : res Z :=
  match decorators with
  | [] => Done 1%Z
  | dec :: rest =>
      if bool_decide (calls_name dec = Some "ch_weight") then first_arg_n dec
      else find_weight_in rest
  end.

(** [find_weight(expr)] for a [FunctionDef] *)
Definition find_weight (expr : FunctionDef) : res Z :=
  find_weight_in (decorator_list expr).

Section Check.

(** What [prooforacle.find_counterexample] returns, and the report of
    [prove_assertion_fn]. *)
Variable Counterexample : Type.

(** [check_assertion_fn(conclusion_fn, conclusion_ast, oracle)], given
    what [find_counterexample] returned and the outcome of
    [prove_assertion_fn], which is called whether or not a
    counterexample was found. *)
Definition check_assertion_fn (counterexample : option Counterexample)
    (proved : res (option bool * list (FunctionDef * bool))) :
    res (option bool * list (FunctionDef * bool)) :=
  '(ret, report) ← proved;
  match counterexample with
  | Some _ =>
      if bool_decide (ret = Some true)
      then Raise (Exception "Counterexample conflicts with proof")
      else Done (Some false, [])
  | None => Done (ret, report)
  end.

End Check.

End SolverMore.

(** ** More of the knowledge expansion *)

Module ExpansionMore.
Import Registry Compiler Solver Expansion.

Section Loop.

Variable Score : Type.
Variable _pure_defs : ModuleInfo.

(** The definitions of the registry, by identity. *)
Definition registered (k : positive) : Prop :=
  ∃ name fninfo fn_def,
    (name, fninfo) ∈ functions _pure_defs ∧
    get_definition fninfo = Some fn_def ∧ oid fn_def = k.

(** From [st] to [st'] the prover only went forward: the baseline was
    appended to, and the handled set gained definitions of the
    registry. *)
Definition extends (st st' : state Score) : Prop :=
  baseline Score st `prefix_of` baseline Score st' ∧
  handled Score st ⊆ handled Score st' ∧
  ∀ k, k ∈ handled Score st' → k ∈ handled Score st ∨ registered k.

(** An operation of the prover that only goes forward, whatever its
    outcome. *)
Definition forward {A} (m : M (state Score) A) : Prop :=
  ∀ st r st', m st = (r, st') → extends st st'.

End Loop.

End ExpansionMore.

(** ** The selection of paths (crosshair/path_cover.py) *)

Module PathCover.

(** [CoverageType] *)
Inductive CoverageType : Type := OPCODE | PATH.

(** [PathSummary], with the fields the selection and the printers
    read; [coverage.offsets_covered] is a set of opcode offsets. *)
Record PathSummary : Type := mkPathSummary {
  formatted_args : string;
  result : string;
  exc : option string;
  offsets_covered : gset nat
}.

(** [max(xs, key=key)] on a list that is not empty, scanned from the
    left with the best element so far: a later element replaces it only
    when its key is greater. Returns the position with the element. *)
Fixpoint max_from {A} (key : A → nat) (best : nat * A) (i : nat)
    (xs : list A) : nat * A :=
  match xs with
  | [] => best
  | x :: rest =>
      if (key best.2 <? key x)%nat then max_from key (i, x) (S i) rest
      else max_from key best (S i) rest
  end.

(** The [while paths:] loop of [path_cover]. The summaries in [paths]
    are distinct objects, each built by one call of
    [on_path_complete], so [[p for p in paths if p is not next_best]]
    drops the one position where [next_best] was found. *)
Fixpoint select_loop (fuel : nat) (coverage_type : CoverageType)
    (paths : list PathSummary) (opcodes_found : gset nat)
    (selected : list PathSummary) : res (list PathSummary) :=
  match fuel with
  | O => OutOfFuel
  | S fuel' =>
      match paths with
      | [] => Done selected
      | p :: rest =>
          let '(i, next_best) :=
            max_from (λ p, size (offsets_covered p ∖ opcodes_found))
              (O, p) 1 rest in
          let cur_offsets := offsets_covered next_best in
          if match coverage_type with
             | OPCODE => bool_decide (size (cur_offsets ∖ opcodes_found) = O)
             | PATH => false
             end
          then Done selected
          else
            select_loop fuel' coverage_type (delete i paths)
              (opcodes_found ∪ cur_offsets) (selected ++ [next_best])%list
      end
  end.

(** The end of [path_cover]: what is returned for the paths that
    [explore_paths] has collected. *)
Definition select_paths (fuel : nat) (coverage_type : CoverageType)
    (paths : list PathSummary) : res (list PathSummary) :=
  select_loop fuel coverage_type paths ∅ [].

(** The opcode offsets some path of the list covers. *)
Definition covered (paths : list PathSummary) : gset nat :=
  ⋃ (offsets_covered <$> paths).

(** Every path of the list covers an offset that neither [found] nor
    the paths before it cover. *)
Fixpoint each_adds (found : gset nat) (paths : list PathSummary) : Prop :=
  match paths with
  | [] => True
  | p :: rest =>
      ¬ offsets_covered p ⊆ found ∧
      each_adds (found ∪ offsets_covered p) rest
  end.

End PathCover.

(** ** The structural axioms *)

Module CoreAxioms.
Import Registry Compiler.

(** [z3.ForAll(vars, Z.Eq(lhs, rhs), patterns=patterns)] over
    constants of sort [Unk], named by their names. *)
Record quantified : Type := ForAll {
  bound : list string;
  lhs : z3expr;
  rhs : z3expr;
  patterns : list z3expr
}.

(** The definitions [core_assertions] looks up before it builds
    anything. *)
Definition core_names : list string :=
  ["isint"; "isbool"; "_builtin_len"; "_builtin_tuple"; "_op_Add"].

(** [[_pure_defs.get_fn(name).get_definition() for name in names]] *)
Fixpoint get_definitions (_pure_defs : ModuleInfo) (names : list string) :
    res (list (option FunctionDef)) :=
  match names with
  | [] => Done []
  | name :: rest =>
      f ← get_fn _pure_defs name;
      ds ← get_definitions _pure_defs rest;
      Done (get_definition f :: ds)
  end.

(** [core_assertions(env)]: the environment is read ([refs =
    env.refs]) but not used. *)
Definition core_assertions (_pure_defs : ModuleInfo) : res (list quantified) :=
  _ ← get_definitions _pure_defs core_names;
  let r := Const "r" in
  let g := Const "g" in
  let x := Const "x" in
  Done [
    (* r + () = r *)
    ForAll ["r"] (Concat r Unk_empty) r [Concat r Unk_empty];
    (* () + r = r *)
    ForAll ["r"] (Concat Unk_empty r) r [Concat Unk_empty r];
    (* a starred one-item tuple is the item appended *)
    ForAll ["x"; "g"] (Concat g (Unk_a Unk_empty x)) (Unk_a g x)
      [Concat g (Unk_a Unk_empty x)];
    (* a starred tuple ending in x is the starred rest, then x *)
    ForAll ["x"; "g"; "r"] (Concat g (Unk_a r x)) (Unk_a (Concat g r) x)
      [Concat g (Unk_a r x)]
  ].

(** *** What the axioms say *)

Section Semantics.

(** The sort [PyFunc] is uninterpreted. *)
Variable PyFunc : Type.

(** The values of the datatype [Unk], as [z3.CreateDatatypes] makes
    them: the terms built from its seven constructors. *)
Inductive unk : Type :=
| v_none
| v_bool (tobool : bool)
| v_int (toint : Z)
| v_func (tofunc : PyFunc)
| v_a (tl hd : unk)
| v_empty
| v_undef.

(** The functions ['.'] and [Concat] are uninterpreted. *)
Variable app : unk → unk → unk.
Variable concat : unk → unk → unk.

(** The value of a term of sort [Unk] when its constants have the
    values [ρ] gives them; [Not] and [is_func] build formulas. *)
Fixpoint eval (ρ : string → unk) (e : z3expr) : option unk :=
  match e with
  | Const name => Some (ρ name)
  | Unk_none => Some v_none
  | Unk_bool b => Some (v_bool b)
  | Unk_int n => Some (v_int n)
  | Unk_a tl hd =>
      tl' ← eval ρ tl; hd' ← eval ρ hd; Some (v_a tl' hd')
  | Unk_empty => Some v_empty
  | Unk_undef => Some v_undef
  | App f args =>
      f' ← eval ρ f; args' ← eval ρ args; Some (app f' args')
  | Concat x y =>
      x' ← eval ρ x; y' ← eval ρ y; Some (concat x' y')
  | Is_func _ | Not _ => None
  end.

(** [ρ] with the constants [names] set to [values]. *)
Fixpoint assign (ρ : string → unk) (names : list string) (values : list unk) :
    string → unk :=
  match names, values with
  | name :: names', v :: values' =>
      λ k, if bool_decide (k = name) then v else assign ρ names' values' k
  | _, _ => ρ
  end.

(** The quantified equation is true: both sides have the same value
    whatever values the bound constants take. *)
Definition holds (ρ : string → unk) (q : quantified) : Prop :=
  ∀ values, length values = length (bound q) →
    ∃ v, eval (assign ρ (bound q) values) (lhs q) = Some v ∧
         eval (assign ρ (bound q) values) (rhs q) = Some v.

End Semantics.

Arguments v_none {PyFunc}.
Arguments v_bool {PyFunc} tobool.
Arguments v_int {PyFunc} toint.
Arguments v_func {PyFunc} tofunc.
Arguments v_a {PyFunc} tl hd.
Arguments v_empty {PyFunc}.
Arguments v_undef {PyFunc}.

(** [Concat] read as the concatenation of tuples: the items of the
    second tuple are appended to the first. On a second argument that
    is no tuple it is the identity when the first is the empty tuple. *)
Fixpoint tuple_concat {PyFunc} (g r : unk PyFunc) : unk PyFunc :=
  match r with
  | v_a tl hd => v_a (tuple_concat g tl) hd
  | v_empty => g
  | _ => match g with v_empty => r | _ => v_undef end
  end.

End CoreAxioms.

(** ** More sample data *)

Module ExamplesMore.
Import Registry Compiler Solver.

(** A solver that finds a model. *)
Definition ex_check_sat (assertions : list (option string * z3expr)) :
    check_result :=
  sat.

(** A solver that needs the first assumption and the negated
    conclusion for its refutation. *)
Definition ex_check_unsat (assertions : list (option string * z3expr)) :
    check_result :=
  unsat ["assumption0"; "conclusion"].

(** Two required axioms, one the negation of the other. *)
Definition ex_contradictory : list (Z3Statement Z) :=
  [{| score := None; src_ast := None; expr := Is_func (Const "p") |};
   {| score := None; src_ast := None; expr := Not (Is_func (Const "p")) |}].

(** A solver whose core is not a smallest one: what [unsat_core]
    promises is a subset of the tracked formulas that is
    unsatisfiable, and any set that includes the two axioms is. *)
Definition ex_check_nonminimal (assertions : list (option string * z3expr)) :
    check_result :=
  unsat ["assumption0"; "assumption1"; "conclusion"].

(** Three paths through a function of five opcodes. *)
Definition ex_paths : list PathCover.PathSummary :=
  [PathCover.mkPathSummary "x=0" "1" None {[0%nat; 2%nat]};
   PathCover.mkPathSummary "x=1" "2" None {[0%nat; 2%nat; 4%nat]};
   PathCover.mkPathSummary "x=2" "2" None {[0%nat; 4%nat]}].

End ExamplesMore.

(** * Properties *)

Local Open Scope list_scope.

Module OutcomeFacts.

Lemma bind_Done {A B} (f : A → res B) (m : res A) (b : B) :
  m ≫= f = Done b → ∃ a, m = Done a ∧ f a = Done b.
Proof. destruct m; simpl; intros H; try discriminate; eauto. Qed.

Lemma fmap_Done {A B} (f : A → B) (m : res A) (b : B) :
  f <$> m = Done b → ∃ a, m = Done a ∧ b = f a.
Proof. destruct m; simpl; intros H; try discriminate. injection H as <-. eauto. Qed.

Lemma Done_bind {A B} (f : A → res B) (a : A) : Done a ≫= f = f a.
Proof. reflexivity. Qed.

End OutcomeFacts.

(** Inverts every hypothesis saying that a sequence of steps returned. *)
Ltac invert_Done :=
  repeat match goal with
  | H : (_ ≫= _) = Done _ |- _ =>
      apply OutcomeFacts.bind_Done in H as (? & ? & H)
  | H : (_ <$> _) = Done _ |- _ =>
      apply OutcomeFacts.fmap_Done in H as (? & H & ->)
  | H : mret _ = Done _ |- _ => injection H as <-
  | H : Done _ = Done _ |- _ => injection H as <-
  | H : Raise _ = Done _ |- _ => discriminate H
  | H : OutOfFuel = Done _ |- _ => discriminate H
  end.

Module PatternFacts.
Import Pattern Examples.

(** **** The generic traversal, relative to the visitor it is given *)

Section Traversal.

Variables v v' : node → res node.

(** [v'] returns whatever [v] returns. *)
Hypothesis v_le : ∀ x y, v x = Done y → v' x = Done y.

Lemma visit_list_mono items r :
  visit_list v items = Done r → visit_list v' items = Done r.
Proof.
  revert r. induction items as [|value rest IH]; intros r H; [done|].
  simpl in *. invert_Done. erewrite IH by eassumption.
  destruct (is_AST value); invert_Done; [erewrite v_le by eassumption|]; done.
Qed.

Lemma visit_field_mono f r :
  visit_field v f = Done r → visit_field v' f = Done r.
Proof.
  destruct f; simpl; auto.
  intros H. invert_Done. by erewrite visit_list_mono by eassumption.
Qed.

Lemma visit_opt_mono f r :
  visit_opt v f = Done r → visit_opt v' f = Done r.
Proof.
  destruct f; simpl; auto.
  intros H. invert_Done. by erewrite visit_field_mono by eassumption.
Qed.

Lemma visit_fields_mono fs r :
  visit_fields v fs = Done r → visit_fields v' fs = Done r.
Proof.
  revert r. induction fs as [|f rest IH]; intros r H; [done|].
  simpl in *. invert_Done. erewrite IH by eassumption.
  by erewrite visit_field_mono by eassumption.
Qed.

Lemma generic_visit_fields_mono n r :
  generic_visit_fields v n = Done r → generic_visit_fields v' n = Done r.
Proof.
  destruct n; simpl; intros H; invert_Done;
    repeat first
      [ erewrite visit_field_mono by eassumption
      | erewrite visit_list_mono by eassumption
      | erewrite visit_opt_mono by eassumption
      | erewrite visit_fields_mono by eassumption ];
    done.
Qed.

End Traversal.

Section Outputs.

Variable v : node → res node.
Variable P : node → Prop.

(** Whatever [v] returns is an [AST] node with property [P]. *)
Hypothesis v_out : ∀ x y, v x = Done y → is_AST y = true ∧ P y.

Lemma visit_list_out items r :
  visit_list v items = Done r →
  ∀ c, c ∈ filter (λ x, is_AST x = true) r → P c.
Proof.
  revert r. induction items as [|value rest IH]; intros r H c Hc.
  - simpl in H. invert_Done. by apply elem_of_nil in Hc.
  - simpl in H. invert_Done.
    apply list_elem_of_filter in Hc as [Hast Hc].
    apply elem_of_app in Hc as [Hc|Hc];
      [|eapply IH; [eassumption|by apply list_elem_of_filter]].
    destruct (is_AST value) eqn:Hv; invert_Done.
    + match goal with Hx : v value = Done ?y |- _ =>
        destruct (v_out _ _ Hx) as [Ha Hp]; destruct y; try discriminate Ha
      end; apply list_elem_of_singleton in Hc; by subst.
    + apply list_elem_of_singleton in Hc. congruence.
Qed.

Lemma visit_field_out f r :
  visit_field v f = Done r → ∀ c, c ∈ field_children r → P c.
Proof.
  intros H c Hc. destruct f; simpl in H;
    try (destruct (v_out _ _ H) as [Ha Hp]; destruct r; try discriminate Ha;
         apply list_elem_of_singleton in Hc; by subst).
  invert_Done. simpl in Hc. by eapply visit_list_out.
Qed.

Lemma visit_opt_out f r :
  visit_opt v f = Done r → ∀ c, c ∈ opt_children r → P c.
Proof.
  intros H c Hc. destruct f; simpl in H; invert_Done; simpl in Hc.
  - by eapply visit_field_out.
  - by apply elem_of_nil in Hc.
Qed.

Lemma visit_fields_out fs r :
  visit_fields v fs = Done r →
  ∀ c, c ∈ concat (map field_children r) → P c.
Proof.
  revert r. induction fs as [|f rest IH]; intros r H c Hc;
    simpl in H; invert_Done; simpl in Hc.
  - by apply elem_of_nil in Hc.
  - apply elem_of_app in Hc as [Hc|Hc]; [by eapply visit_field_out|by eapply IH].
Qed.

Lemma generic_visit_fields_out n r :
  generic_visit_fields v n = Done r →
  is_AST r = true ∧ ∀ c, c ∈ children r → P c.
Proof.
  destruct n; simpl; intros H; invert_Done; (split; [done|]);
    intros c Hc; simpl in Hc;
    repeat (apply elem_of_app in Hc as [Hc|Hc]);
    first [ by apply elem_of_nil in Hc
          | eapply visit_field_out; [|exact Hc]; eassumption
          | eapply visit_list_out; [|exact Hc]; eassumption
          | eapply visit_opt_out; [|exact Hc]; eassumption
          | eapply visit_fields_out; [|exact Hc]; eassumption ].
Qed.

End Outputs.

Section Identity.

Variable v : node → res node.

Lemma visit_list_id items :
  (∀ c, c ∈ filter (λ x, is_AST x = true) items → v c = Done c) →
  visit_list v items = Done items.
Proof.
  induction items as [|value rest IH]; intros H; [done|].
  simpl. rewrite IH.
  - destruct (is_AST value) eqn:Hv; [|done].
    rewrite H by (apply list_elem_of_filter; split; [done|left]).
    by destruct value.
  - intros c Hc. apply H. apply list_elem_of_filter in Hc as [? ?].
    apply list_elem_of_filter. split; [done|by right].
Qed.

Lemma visit_field_id f :
  (∀ c, c ∈ field_children f → v c = Done c) → visit_field v f = Done f.
Proof.
  intros H. destruct f; simpl in *;
    try (apply H; by apply list_elem_of_singleton).
  by rewrite visit_list_id.
Qed.

Lemma visit_opt_id f :
  (∀ c, c ∈ opt_children f → v c = Done c) → visit_opt v f = Done f.
Proof.
  intros H. destruct f; simpl in *; [|done]. by rewrite visit_field_id.
Qed.

Lemma visit_fields_id fs :
  (∀ c, c ∈ concat (map field_children fs) → v c = Done c) →
  visit_fields v fs = Done fs.
Proof.
  induction fs as [|f rest IH]; intros H; [done|]. simpl in *.
  rewrite visit_field_id, IH; [done| |];
    intros c Hc; apply H, elem_of_app; auto.
Qed.

Lemma generic_visit_fields_id n :
  is_AST n = true →
  (∀ c, c ∈ children n → v c = Done c) →
  generic_visit_fields v n = Done n.
Proof.
  intros Ha H. destruct n; try discriminate Ha; simpl in *; try done;
    repeat first
      [ rewrite visit_field_id
      | rewrite visit_list_id
      | rewrite visit_opt_id
      | rewrite visit_fields_id ];
    try done;
    intros c Hc; apply H; repeat rewrite elem_of_app; auto.
Qed.

End Identity.

(** **** The rewrite loops *)

Section RewriteLoops.

Variable tyhash : nodetype → Z.
Variable self : engine.

Lemma rewrite_top_mono fuel n r :
  rewrite_top tyhash self fuel n = Done r →
  rewrite_top tyhash self (S fuel) n = Done r.
Proof.
  revert n r. induction fuel as [|fuel IH]; intros n r H; [discriminate|].
  simpl in H. apply OutcomeFacts.bind_Done in H as (o & Ho & H).
  change (rewrite_top tyhash self (S (S fuel)) n) with
    (try_candidates n (lookup self (patthash tyhash n)) ∅ ≫= λ r0,
       match r0 with
       | None => Done (false, n)
       | Some newnode =>
           '(_, n') ← rewrite_top tyhash self (S fuel) newnode;
           Done (true, n')
       end).
  rewrite Ho, OutcomeFacts.Done_bind. destruct o as [newnode|]; [|done].
  apply OutcomeFacts.bind_Done in H as ([c n'] & Hr & H).
  by rewrite (IH _ _ Hr).
Qed.

Lemma rewrite_top_unchanged fuel n n' :
  rewrite_top tyhash self fuel n = Done (false, n') →
  n' = n ∧ top_normal tyhash self n.
Proof.
  destruct fuel as [|fuel]; [discriminate|]. simpl. intros H.
  apply OutcomeFacts.bind_Done in H as (o & Ho & H).
  destruct o as [newnode|].
  - apply OutcomeFacts.bind_Done in H as ([c n''] & _ & H). discriminate.
  - injection H as <-. done.
Qed.

Lemma generic_visit_AST fuel n r :
  generic_visit tyhash self fuel n = Done r → is_AST r = true.
Proof.
  revert n r. induction fuel as [|fuel IH]; intros n r H; [discriminate|].
  simpl in H. apply OutcomeFacts.bind_Done in H as (n1 & H1 & H).
  apply OutcomeFacts.bind_Done in H as ([changed newnode] & Ht & H).
  destruct changed; [by eapply IH|]. injection H as <-.
  by destruct n; simpl in H1; invert_Done.
Qed.

Lemma generic_visit_mono fuel n r :
  generic_visit tyhash self fuel n = Done r →
  generic_visit tyhash self (S fuel) n = Done r.
Proof.
  revert n r. induction fuel as [|fuel IH]; intros n r H; [discriminate|].
  simpl in H. apply OutcomeFacts.bind_Done in H as (n1 & H1 & H).
  apply OutcomeFacts.bind_Done in H as ([changed newnode] & Ht & H).
  change (generic_visit tyhash self (S (S fuel)) n) with
    (generic_visit_fields (generic_visit tyhash self (S fuel)) n ≫= λ n1,
       '(changed, newnode) ← rewrite_top tyhash self (S fuel) n1;
       if changed : bool then generic_visit tyhash self (S fuel) newnode
       else Done n1).
  rewrite (generic_visit_fields_mono _ _ IH _ _ H1), OutcomeFacts.Done_bind.
  rewrite (rewrite_top_mono _ _ _ Ht), OutcomeFacts.Done_bind.
  destruct changed; [by apply IH|done].
Qed.

Lemma generic_visit_le (fuel fuel' : nat) n r :
  (fuel ≤ fuel')%nat →
  generic_visit tyhash self fuel n = Done r →
  generic_visit tyhash self fuel' n = Done r.
Proof.
  induction 1 as [|fuel' _ IH]; [done|].
  intros H. by apply generic_visit_mono, IH.
Qed.

(** What [generic_visit] returns is in normal form, and visiting it
    again with the same fuel returns it. *)
Lemma generic_visit_normal fuel n r :
  generic_visit tyhash self fuel n = Done r →
  normal tyhash self r ∧ generic_visit tyhash self fuel r = Done r.
Proof.
  revert n r. induction fuel as [|fuel IH]; intros n r H; [discriminate|].
  simpl in H. apply OutcomeFacts.bind_Done in H as (n1 & H1 & H).
  apply OutcomeFacts.bind_Done in H as ([changed newnode] & Ht & H).
  destruct changed.
  - destruct (IH _ _ H) as [Hn Hv]. split; [done|].
    by apply generic_visit_mono.
  - injection H as <-.
    destruct (rewrite_top_unchanged _ _ _ Ht) as [-> Htop].
    destruct (generic_visit_fields_out
                (generic_visit tyhash self fuel)
                (λ y, normal tyhash self y ∧
                      generic_visit tyhash self fuel y = Done y)
                (λ x y Hxy, conj (generic_visit_AST _ _ _ Hxy) (IH _ _ Hxy))
                _ _ H1) as [Hast Hch].
    split.
    + constructor; [done|]. intros c Hc. by apply Hch.
    + change (generic_visit tyhash self (S fuel) n1) with
        (generic_visit_fields (generic_visit tyhash self fuel) n1 ≫= λ n2,
           '(changed, newnode) ← rewrite_top tyhash self fuel n2;
           if changed : bool then generic_visit tyhash self fuel newnode
           else Done n2).
      rewrite generic_visit_fields_id; [|done|].
      * by rewrite OutcomeFacts.Done_bind, Ht.
      * intros c Hc. by apply Hch.
Qed.

End RewriteLoops.

(** C2. For every rule set (every engine, plain or wrapped, and every
    hash of the node classes) and every tree on which [rewrite]
    returns, the tree returned is a fixpoint of [rewrite]: no rule
    matches any of its nodes, and rewriting it again, with the same
    fuel or more, returns the identical tree. *)
Theorem rewrite_fixpoint tyhash self (fuel : nat) T T' :
  rewrite tyhash self fuel T = Done T' →
  normal tyhash self T' ∧
  ∀ fuel' : nat, (fuel ≤ fuel')%nat → rewrite tyhash self fuel' T' = Done T'.
Proof.
  unfold rewrite. intros H.
  destruct (generic_visit_normal _ _ _ _ _ H) as [Hn Hv].
  split; [done|]. intros fuel' Hle. by eapply generic_visit_le.
Qed.


Lemma rewrite_fixpoint_witness :
  normal ex_tyhash ex_engine (BinOp (Num 2) Add (Num 1)) ∧
  ∀ fuel' : nat, (5 ≤ fuel')%nat →
    rewrite ex_tyhash ex_engine fuel' (BinOp (Num 2) Add (Num 1))
      = Done (BinOp (Num 2) Add (Num 1)).
Proof.
  apply (rewrite_fixpoint ex_tyhash ex_engine 5 ex_tree).
  vm_compute. reflexivity.
Defined.

(** **** Matching *)

Lemma all_zip_app m (ns ps extra : list node) (b : bindings) :
  length ns = length ps →
  all_zip m (ns ++ extra) ps b = all_zip m ns ps b.
Proof.
  revert ps b. induction ns as [|n ns IH]; intros [|p ps] b Hlen;
    try discriminate Hlen; simpl.
  - by destruct extra.
  - destruct (m n p b) as [[ok b']| |]; simpl; try done.
    destruct ok; [|done]. apply IH. by injection Hlen.
Qed.

Lemma all_zip_app_r m (ns ps extra : list node) (b : bindings) :
  length ns = length ps →
  all_zip m ns (ps ++ extra) b = all_zip m ns ps b.
Proof.
  revert ps b. induction ns as [|n ns IH]; intros [|p ps] b Hlen;
    try discriminate Hlen; simpl; [done|].
  destruct (m n p b) as [[ok b']| |]; simpl; try done.
  destruct ok; [|done]. apply IH. by injection Hlen.
Qed.

(** C10. [matches] compares the lists of child nodes of a [Module]
    body, of the operands of a [BoolOp] and of two plain lists through
    [zip], without looking at their lengths: the elements of the longer
    list beyond the length of the shorter one play no part, so a
    pattern with fewer elements than the node matches whenever it
    matches the truncated node. The arguments of a [Call] are the only
    lists whose lengths are compared: when they differ the match never
    succeeds. *)
Theorem matches_zip_truncates (nitems extra pitems : list node)
    (nop pop nfunc pfunc : node) (nargs pargs : list node) (bind : bindings) :
  length nitems = length pitems →
  (matches (PyList (nitems ++ extra)) (PyList pitems) bind
     = matches (PyList nitems) (PyList pitems) bind ∧
   matches (PyList nitems) (PyList (pitems ++ extra)) bind
     = matches (PyList nitems) (PyList pitems) bind) ∧
  (matches (Module (nitems ++ extra)) (Module pitems) bind
     = matches (Module nitems) (Module pitems) bind ∧
   matches (Module nitems) (Module (pitems ++ extra)) bind
     = matches (Module nitems) (Module pitems) bind) ∧
  (matches (BoolOp nop (nitems ++ extra)) (BoolOp pop pitems) bind
     = matches (BoolOp nop nitems) (BoolOp pop pitems) bind ∧
   matches (BoolOp nop nitems) (BoolOp pop (pitems ++ extra)) bind
     = matches (BoolOp nop nitems) (BoolOp pop pitems) bind) ∧
  (length nargs ≠ length pargs →
   ∀ b', matches (Call nfunc nargs) (Call pfunc pargs) bind ≠ Done (true, b')).
Proof.
  intros Hlen. repeat split.
  - simpl. by rewrite all_zip_app.
  - simpl. by rewrite all_zip_app_r.
  - simpl. by rewrite all_zip_app.
  - simpl. by rewrite all_zip_app_r.
  - simpl. destruct (bool_decide _); [|done]. by rewrite all_zip_app.
  - simpl. destruct (bool_decide _); [|done]. by rewrite all_zip_app_r.
  - intros Hargs b'. simpl.
    destruct (matches nfunc pfunc bind) as [[ok b1]| |]; simpl; try done.
    destruct ok; [|done]. by rewrite bool_decide_eq_false_2.
Qed.

Lemma matches_kind_mismatch_clears (node patt : node) (bind : bindings) :
  is_pattern_var patt = Done false →
  type patt ≠ type node →
  matches node patt bind = Done (false, ∅).
Proof.
  intros Hv Ht.
  assert (Hd : negb (bool_decide (type patt = type node)) = true)
    by by rewrite bool_decide_eq_false_2.
  destruct patt; simpl in Hv;
    try (destruct node; simpl; simpl in Hd; by rewrite ?Hd).
  destruct node; simpl; rewrite Hv; simpl; simpl in Hd; by rewrite ?Hd.
Qed.

Lemma matches_zip_truncates_witness :
  matches (Module [Expr (Num 1); Expr (Num 2)]) (Module [Expr (Num 1)]) ∅
    = Done (true, ∅) ∧
  matches (Call (Name "f") [Num 1; Num 2]) (Call (Name "f") [Num 1]) ∅
    ≠ Done (true, ∅).
Proof.
  destruct (matches_zip_truncates [Expr (Num 1)] [Expr (Num 2)] [Expr (Num 1)]
              And And (Name "f") (Name "f") [Num 1; Num 2] [Num 1] ∅ eq_refl)
    as (_ & [Hm _] & _ & Hc).
  split.
  - etrans; [exact Hm|]. vm_compute. reflexivity.
  - apply Hc. discriminate.
Defined.

(** C9. What the code does with the bindings when a match fails, for
    a pattern that is not a pattern variable: on a node-kind mismatch
    [matches] clears them, as the claim has it; but when it fails on a
    comparison of values (the identifiers of two [Name]s, the numbers
    of two [Num]s, the operator classes of two [BinOp]s, the numbers
    of arguments of two [Call]s) it returns failure without clearing,
    and within a pass of [rewrite_top] the next candidate is tried
    with what the failed match left. *)
Theorem matches_failure_bindings (node patt : node) (bind : bindings) :
  is_pattern_var patt = Done false →
  (type patt ≠ type node → matches node patt bind = Done (false, ∅)) ∧
  (∀ nid pid, node = Name nid → patt = Name pid → nid ≠ pid →
     matches node patt bind = Done (false, bind)) ∧
  (∀ n p, node = Num n → patt = Num p → n ≠ p →
     matches node patt bind = Done (false, bind)) ∧
  (∀ nl nop nr pl pop pr,
     node = BinOp nl nop nr → patt = BinOp pl pop pr → type nop ≠ type pop →
     matches node patt bind = Done (false, bind)) ∧
  (∀ nfunc nargs pfunc pargs b,
     node = Call nfunc nargs → patt = Call pfunc pargs →
     matches nfunc pfunc bind = Done (true, b) →
     length nargs ≠ length pargs →
     matches node patt bind = Done (false, b)) ∧
  (∀ repl cond rest b,
     matches node patt bind = Done (false, b) →
     try_candidates node (Rule patt repl cond :: rest) bind
       = try_candidates node rest b).
Proof.
  intros Hv. repeat split.
  - intros Ht. by apply matches_kind_mismatch_clears.
  - intros nid pid -> -> Hne. simpl in *. rewrite Hv. simpl.
    by rewrite bool_decide_eq_false_2.
  - intros n p -> -> Hne. simpl. by rewrite bool_decide_eq_false_2.
  - intros nl nop nr pl pop pr -> -> Hne. simpl.
    by rewrite bool_decide_eq_false_2.
  - intros nfunc nargs pfunc pargs b -> -> Hf Hlen. simpl. rewrite Hf. simpl.
    by rewrite bool_decide_eq_false_2.
  - intros repl cond rest b Hm. simpl. by rewrite Hm.
Qed.

Lemma matches_failure_bindings_witness :
  matches (Num 1) (Name "x") {["X" := Num 0]} = Done (false, ∅).
Proof.
  apply (matches_failure_bindings (Num 1) (Name "x") {["X" := Num 0]}).
  - reflexivity.
  - discriminate.
Defined.

(** A failing input: [0 + 2] against [$X + 3] fails after binding
    [X], the bindings are not cleared, and the next candidate of the
    pass, [0 + $Y] with the replacement [$X], succeeds and substitutes
    the binding that only the failed rule made. *)
Lemma matches_failure_keeps_bindings :
  matches (BinOp (Num 0) Add (Num 2)) (patt ex_first) ∅
    = Done (false, {["X" := Num 0]}) ∧
  ({["X" := Num 0]} : bindings) ≠ ∅ ∧
  try_candidates (BinOp (Num 0) Add (Num 2)) [ex_first; ex_second] ∅
    = Done (Some (Num 0)).
Proof.
  split; [vm_compute; reflexivity|]. split; [|vm_compute; reflexivity].
  intros H. apply (f_equal (λ m : bindings, m !! "X")) in H.
  vm_compute in H. discriminate H.
Qed.

(** C8 (amended). For every hash, the lookup of a wrapped engine
    returns the rules of its own index for that hash followed by what
    the inner engine returns for it: the local rules come first, and
    the base rules are used as well, alone when the local index has
    no entry. *)
Theorem wrapped_lookup_appends_base (inner : engine) _index hsh :
  lookup (WrappedRewriteEngine inner _index) hsh
    = index_get _index hsh ++ lookup inner hsh.
Proof.
  simpl. destruct (index_get _index hsh) as [|r1 rest]; simpl; [done|].
  destruct (lookup inner hsh); simpl; [by rewrite app_nil_r|done].
Qed.

(** A rule added to a freshly wrapped engine lands in the index of the
    inner engine: the local index stays empty. *)
Lemma wrapped_add_reaches_inner tyhash isupper (inner : engine) patt repl cond :
  add tyhash isupper (WrappedRewriteEngine_new inner) patt repl cond
    = WrappedRewriteEngine_new <$> add tyhash isupper inner patt repl cond.
Proof.
  unfold add.
  destruct (PatternVarPreprocessor_visit isupper patt) as [patt'| |]; try done.
  destruct (PatternVarPreprocessor_visit isupper repl) as [repl'| |]; done.
Qed.

(** With a local entry for the hash of [0 + 2], the base rule for that
    hash is still returned, and it is the one that rewrites the tree. *)
Lemma wrapped_lookup_uses_base :
  let hsh := patthash ex_tyhash ex_tree in
  lookup ex_wrapped hsh = [ex_local_rule; ex_rule] ∧
  rewrite_top ex_tyhash ex_wrapped 2 ex_tree
    = Done (true, BinOp (Num 2) Add (Num 1)) ∧
  ¬ (∀ (inner : engine) _index (h : Z),
       index_get _index h ≠ [] →
       lookup (WrappedRewriteEngine inner _index) h = index_get _index h).
Proof.
  split; [vm_compute; reflexivity|]. split; [vm_compute; reflexivity|].
  intros H.
  specialize (H ex_engine
                {[ patthash ex_tyhash (patt ex_local_rule) := [ex_local_rule] ]}
                (patthash ex_tyhash ex_tree)).
  vm_compute in H. specialize (H ltac:(discriminate)). discriminate H.
Qed.


End PatternFacts.

Module RegistryFacts.
Import Registry Examples.

Section Helpers.

Variable fn_args : FunctionDef → list node.
Variable argument_preconditions : list node → list node.
Variable astcall : node → list node → node.

#[local] Abbreviation set_definition :=
  (set_definition fn_args argument_preconditions astcall).
#[local] Abbreviation step :=
  (step fn_args argument_preconditions astcall).
#[local] Abbreviation run :=
  (run fn_args argument_preconditions astcall).

Lemma step_keeps_definition c (self : FnInfo) w d0 :
  definition self = Some d0 → definition (step c (self, w)).1 = Some d0.
Proof.
  intros Hd. destruct c; simpl; try done.
  unfold Registry.set_definition. by rewrite Hd.
Qed.

Lemma run_keeps_definition calls (self : FnInfo) w d0 :
  definition self = Some d0 → definition (run calls (self, w)).1 = Some d0.
Proof.
  revert self w. induction calls as [|c calls IH]; intros self w Hd; [done|].
  unfold Registry.run. simpl.
  destruct (step c (self, w)) as [self' w'] eqn:Hs.
  apply IH. change self' with (self', w').1. rewrite <- Hs.
  by apply step_keeps_definition.
Qed.

End Helpers.

(** C5. For every [FnInfo] that has a definition, [set_definition]
    raises "multiply defined function" and changes nothing, and
    whatever calls are made on the object afterwards, its definition
    stays the one that was set. *)
Theorem set_definition_once fn_args argument_preconditions astcall
    (self : FnInfo) (d0 : FunctionDef) :
  definition self = Some d0 →
  (∀ d w,
     set_definition fn_args argument_preconditions astcall self d w
       = (Raise (Exception ("multiply defined function: " +:+ name self)), w)) ∧
  (∀ calls w,
     definition (run fn_args argument_preconditions astcall calls (self, w)).1
       = Some d0).
Proof.
  intros Hd. split.
  - intros d w. unfold set_definition. by rewrite Hd.
  - intros calls w. by apply run_keeps_definition.
Qed.

Lemma set_definition_once_witness :
  (∀ d w,
     set_definition ex_fn_args ex_argument_preconditions ex_astcall
       (ex_fninfo 4 "_op_Add" []).2 d w
       = (Raise (Exception "multiply defined function: _op_Add"), w)) ∧
  (∀ calls w,
     definition (run ex_fn_args ex_argument_preconditions ex_astcall calls
                   ((ex_fninfo 4 "_op_Add" []).2, w)).1
       = Some (ex_def 4 "_op_Add")).
Proof.
  apply (set_definition_once ex_fn_args ex_argument_preconditions ex_astcall
           (ex_fninfo 4 "_op_Add" []).2 (ex_def 4 "_op_Add")).
  reflexivity.
Defined.

(** Setting the definition of a fresh [FnInfo] stores it. *)
Lemma set_definition_first fn_args argument_preconditions astcall
    (self : FnInfo) d w :
  definition self = None →
  ∃ self' w',
    set_definition fn_args argument_preconditions astcall self d w
      = (Done self', w') ∧
    definition self' = Some d.
Proof. intros Hd. unfold set_definition. rewrite Hd. by eexists _, _. Qed.

End RegistryFacts.

Module CompilerFacts.
Import Registry Compiler Examples.

Lemma fmap_rev_list {A B} (f : A → B) (l : list A) :
  f <$> rev l = rev (f <$> l).
Proof.
  induction l as [|a l IH]; [done|].
  simpl. by rewrite fmap_app, IH.
Qed.

Section Chain.

Variable _pure_defs : ModuleInfo.
Variable apply_intrinsic : string → list z3val → res z3val.
Variable term_of : node → z3expr.

#[local] Abbreviation visit_log := (visit_log term_of).
#[local] Abbreviation loop_terms := (loop_terms term_of).
#[local] Abbreviation first_term := (first_term term_of).
#[local] Abbreviation other_terms := (other_terms term_of).
#[local] Abbreviation compare_loop :=
  (compare_loop apply_intrinsic visit_log register_log).

Lemma compare_loop_log pairs ret lastval visited :
  compare_loop pairs (ZE <$> ret) (ZE lastval) visited =
    (Done (ZE <$> (loop_terms pairs ret lastval).1,
           ZE (loop_terms pairs ret lastval).2),
     visited ++ pairs.*2).
Proof.
  revert ret lastval visited.
  induction pairs as [|[op lhs] rest IH]; intros ret lastval visited.
  - simpl. by rewrite app_nil_r.
  - simpl. unfold mbind, M_bind, register_log, Compiler.visit_log, lift,
      mret, M_ret. simpl.
    destruct ret as [r|]; simpl;
      (etrans; [apply (IH (Some _))|]); by rewrite <- app_assoc.
Qed.

Lemma loop_terms_app p1 p2 ret lastval :
  loop_terms (p1 ++ p2) ret lastval =
    loop_terms p2 (loop_terms p1 ret lastval).1 (loop_terms p1 ret lastval).2.
Proof.
  revert ret lastval. induction p1 as [|[op lhs] rest IH]; intros; simpl; [done|].
  apply IH.
Qed.

Lemma terms_split cs last_term :
  (term_of <$> cs) ++ [last_term]
    = first_term cs last_term :: other_terms cs last_term.
Proof. by destruct cs. Qed.

Lemma loop_terms_pairwise os cs last_term :
  length os = length cs →
  loop_terms (rev (zip os cs)) None last_term =
    (conjunction (pairwise os (first_term cs last_term)
                    (other_terms cs last_term)),
     first_term cs last_term).
Proof.
  revert os. induction cs as [|c cs IH]; intros [|o os] Hlen;
    try discriminate Hlen; [done|].
  simpl. rewrite loop_terms_app, IH by (by injection Hlen). simpl.
  by rewrite terms_split.
Qed.

Lemma visit_Compare_chain lhs ops comparators :
  ops ≠ [] →
  length ops = length comparators →
  ∃ t,
    conjunction (pairwise ops (term_of lhs) (term_of <$> comparators)) = Some t ∧
    visit_Compare apply_intrinsic visit_log register_log lhs ops comparators []
      = (Done (ZE t), rev comparators ++ [lhs]).
Proof.
  intros Hne Hlen. destruct ops as [|op0 os]; [done|]. clear Hne.
  destruct (exists_last (l := comparators)) as (cs & c & ->).
  { intros ->. discriminate Hlen. }
  rewrite length_app in Hlen. simpl in Hlen.
  assert (Hlen' : length os = length cs) by lia.
  eexists. split.
  - rewrite fmap_app. simpl. rewrite (terms_split cs (term_of c)). simpl.
    reflexivity.
  - unfold visit_Compare. rewrite last_snoc, removelast_last. simpl.
    unfold mbind at 1, M_bind at 1. unfold Compiler.visit_log at 1.
    unfold mbind at 1, M_bind at 1.
    rewrite (compare_loop_log _ None).
    rewrite loop_terms_pairwise by done. simpl.
    unfold mbind, M_bind, register_log, Compiler.visit_log, lift,
      mret, M_ret. simpl.
    rewrite fmap_rev_list, snd_zip, rev_unit by lia.
    by destruct (conjunction _).
Qed.
End Chain.

Section Subscripts.

Variable _pure_defs : ModuleInfo.
Variable apply_intrinsic : string → list z3val → res z3val.
Variable visit_rest :
  (node → M Z3BindingEnv z3val) → node → M Z3BindingEnv z3val.

Lemma handle_subscript_outcome visit value subscript env :
  handle_subscript _pure_defs apply_intrinsic visit value subscript env =
    match subscript with
    | Index _ | Slice _ _ _ => (Raise (AttributeError "ops"), env)
    | ExtSlice _ => (Raise (NameError "index"), env)
    | _ => (Done ZNone, env)
    end.
Proof.
  destruct subscript as [| | | | | | | | |lower upper [st|]| | | | | |];
    reflexivity.
Qed.

End Subscripts.

Lemma visit_Subscript_raises _pure_defs apply_intrinsic visit_rest
    (fuel : nat) (value slice : node) (env env' : Z3BindingEnv) (v : z3val) :
  visit _pure_defs apply_intrinsic visit_rest fuel value env = (Done v, env') →
  visit _pure_defs apply_intrinsic visit_rest (S fuel) (Subscript value slice) env =
    match slice with
    | Index _ | Slice _ _ _ => (Raise (AttributeError "ops"), env')
    | ExtSlice _ => (Raise (NameError "index"), env')
    | _ => (Done ZNone, env')
    end.
Proof.
  intros Hv. simpl. unfold mbind at 1, M_bind at 1. rewrite Hv.
  apply handle_subscript_outcome.
Qed.

(** C6. Compiling a chained comparison with [n] operators gives the
    conjunction, nested to the right, of the [n] comparisons of adjacent
    operands; the operands are compiled from right to left, each of
    them exactly once. On the sample registry [0 <= 5 < 9] compiles to
    the very term [(0 <= 5) and (5 < 9)] compiles to, in the same
    environment. *)
Theorem visit_Compare_conjunction apply_intrinsic (term_of : node → z3expr)
    (lhs : node) (ops comparators : list node) :
  ops ≠ [] →
  length ops = length comparators →
  (∃ t,
     conjunction (pairwise ops (term_of lhs) (term_of <$> comparators)) = Some t ∧
     visit_Compare apply_intrinsic (visit_log term_of) register_log
       lhs ops comparators []
       = (Done (ZE t), rev comparators ++ [lhs])) ∧
  to_z3 ex_pure_defs ex_apply_intrinsic ex_visit_rest 3 ex_chain Z3BindingEnv_new
    = to_z3 ex_pure_defs ex_apply_intrinsic ex_visit_rest 3 ex_conj Z3BindingEnv_new ∧
  (to_z3 ex_pure_defs ex_apply_intrinsic ex_visit_rest 3 ex_chain Z3BindingEnv_new).1
    = Done (ZE (comparison And
                  (comparison LtE (Unk_int 0) (Unk_int 5))
                  (comparison Lt (Unk_int 5) (Unk_int 9)))).
Proof.
  intros Hne Hlen. split; [by apply visit_Compare_chain|].
  split; vm_compute; reflexivity.
Qed.

Lemma visit_Compare_conjunction_witness :
  visit_Compare ex_apply_intrinsic (visit_log ex_term_of) register_log
    (Num 0) [LtE; Lt] [Num 5; Num 9] []
    = (Done (ZE (comparison And
                   (comparison LtE (Unk_int 0) (Unk_int 5))
                   (comparison Lt (Unk_int 5) (Unk_int 9)))),
       [Num 9; Num 5; Num 0]).
Proof.
  destruct (visit_Compare_conjunction ex_apply_intrinsic ex_term_of
              (Num 0) [LtE; Lt] [Num 5; Num 9])
    as [(t & Ht & Hv) _]; [discriminate|reflexivity|].
  injection Ht as <-. exact Hv.
Defined.

(** C7. What the code does with a subscript: for an [Index] and for a
    [Slice], with or without a step, [handle_subscript] raises
    [AttributeError] on [self.env.ops] before it builds anything, and
    for an [ExtSlice] it raises [NameError] on [index]; no [Get],
    [SubList], [SteppedSubList] or [Add] application is ever returned. *)
Theorem handle_subscript_raises _pure_defs apply_intrinsic visit value env :
  (∀ i, handle_subscript _pure_defs apply_intrinsic visit value (Index i) env
          = (Raise (AttributeError "ops"), env)) ∧
  (∀ lower upper step,
     handle_subscript _pure_defs apply_intrinsic visit value
       (Slice lower upper step) env
       = (Raise (AttributeError "ops"), env)) ∧
  (∀ dims, handle_subscript _pure_defs apply_intrinsic visit value (ExtSlice dims) env
          = (Raise (NameError "index"), env)) ∧
  to_z3 ex_pure_defs ex_apply_intrinsic ex_visit_rest 3
    (Subscript (Num 5) (Index (Num 0))) Z3BindingEnv_new
    = (Raise (AttributeError "ops"), Z3BindingEnv_new).
Proof.
  repeat split; intros; try apply handle_subscript_outcome.
Qed.

End CompilerFacts.

Module SolverFacts.
Import Registry Compiler Solver Examples.

Lemma dict_get_Some_elem {A} (d : list (string * A)) k :
  k ∈ d.*1 → is_Some (dict_get d k).
Proof.
  induction d as [|[k' v] rest IH]; simpl; intros Hin.
  - by apply elem_of_nil in Hin.
  - case_bool_decide; [by eexists|].
    apply elem_of_cons in Hin as [->|Hin]; [done|auto].
Qed.

Lemma filter_all {A} (P : A → Prop) `{!∀ x, Decision (P x)} (l : list A) :
  Forall P l → filter P l = l.
Proof.
  induction 1 as [|a l Ha _ IH]; [done|].
  by rewrite filter_cons_True, IH.
Qed.

Lemma filter_none {A} (P : A → Prop) `{!∀ x, Decision (P x)} (l : list A) :
  Forall (λ a, ¬ P a) l → filter P l = [].
Proof.
  induction 1 as [|a l Ha _ IH]; [done|].
  by rewrite filter_cons_False.
Qed.

Section Selection.

Variable Score : Type.
Variable lt : Score → Score → bool.

#[local] Abbreviation Z3Statement := (Z3Statement Score).
#[local] Abbreviation key_lt := (key_lt Score lt).
#[local] Abbreviation insert_sorted := (insert_sorted Score lt).
#[local] Abbreviation sort := (sort Score lt).
#[local] Abbreviation select := (select Score lt).
#[local] Abbreviation is_required := (is_required Score).
#[local] Abbreviation ascending := (ascending Score lt).

Lemma insert_sorted_perm a l : insert_sorted a l ≡ₚ a :: l.
Proof.
  induction l as [|b rest IH]; simpl; [done|].
  destruct (key_lt b a); [|done]. rewrite IH. apply Permutation_swap.
Qed.

Lemma sort_perm l : sort l ≡ₚ l.
Proof.
  induction l as [|a rest IH]; simpl; [done|].
  by rewrite insert_sorted_perm, IH.
Qed.

(** [<] on scores never holds both ways, and "not less than" is
    transitive: what a total order on numbers gives. *)
Hypothesis lt_asym : ∀ x y, lt x y = true → lt y x = false.
Hypothesis ge_trans : ∀ x y z, lt y x = false → lt z y = false → lt z x = false.

Lemma key_lt_asym a b : key_lt a b = true → key_lt b a = false.
Proof.
  unfold Solver.key_lt. destruct (score Score a), (score Score b); auto.
Qed.

Lemma ascending_trans a b c :
  is_required b = false → ascending a b → ascending b c → ascending a c.
Proof.
  unfold ascending, Solver.key_lt, Solver.is_required.
  destruct (score Score a), (score Score b), (score Score c);
    try done; eauto.
Qed.

Lemma insert_sorted_sorted a l :
  Forall (λ b, is_required b = false) l →
  StronglySorted ascending l →
  StronglySorted ascending (insert_sorted a l).
Proof.
  induction l as [|b rest IH]; simpl; intros Hs Hl.
  - repeat constructor.
  - apply Forall_cons in Hs as [Hb Hs].
    apply StronglySorted_cons in Hl as [Hbr Hl].
    destruct (key_lt b a) eqn:Hba.
    + apply StronglySorted_cons. split; [|auto].
      rewrite insert_sorted_perm. constructor; [|done].
      by apply key_lt_asym.
    + apply StronglySorted_cons. split.
      * constructor; [done|].
        eapply Forall_impl; [exact Hbr|]. intros c Hc.
        by eapply ascending_trans.
      * by apply StronglySorted_cons.
Qed.

Lemma sort_sorted l :
  Forall (λ b, is_required b = false) l → StronglySorted ascending (sort l).
Proof.
  induction l as [|a rest IH]; simpl; intros Hs; [constructor|].
  apply Forall_cons in Hs as [Ha Hs].
  apply insert_sorted_sorted; [|auto].
  by rewrite sort_perm.
Qed.

End Selection.

(** C3. The statements [solve] asserts are the required ones (score
    [None]), all of them and in their order, followed by [kept], the
    first 120 of the scored ones in ascending order of score: [kept]
    is ascending, has [min 120] of the number of scored statements,
    and together with the [dropped] ones makes up the scored
    statements, none of the dropped having a smaller score than a kept
    one. In both modes the formulas handed to the solver are those of
    the selected statements, then the negated conclusion. *)
Theorem select_required_and_top_120 Score (lt : Score → Score → bool)
    (assumptions : list (Z3Statement Score)) :
  (∀ x y, lt x y = true → lt y x = false) →
  (∀ x y z, lt y x = false → lt z y = false → lt z x = false) →
  let required := filter (λ a, is_required Score a = true) assumptions in
  let scored := filter (λ a, is_required Score a = false) assumptions in
  ∃ kept dropped,
    select Score lt assumptions = required ++ kept ∧
    filter (λ a, is_required Score a = true) (select Score lt assumptions)
      = required ∧
    kept ++ dropped ≡ₚ scored ∧
    StronglySorted (ascending Score lt) kept ∧
    length kept = min 120 (length scored) ∧
    (∀ k d, k ∈ kept → d ∈ dropped → key_lt Score lt d k = false) ∧
    ∀ make_repro_case conclusion,
      (asserted Score make_repro_case (select Score lt assumptions) conclusion).*2
        = (expr Score <$> select Score lt assumptions) ++ [Not conclusion].
Proof.
  intros Hasym Htrans required scored.
  set (sorted := sort Score lt scored).
  assert (Hscored : Forall (λ b, is_required Score b = false) scored).
  { apply Forall_forall. intros a Ha. by apply list_elem_of_filter in Ha as [? _]. }
  assert (Hsorted : StronglySorted (ascending Score lt) sorted)
    by (by apply sort_sorted).
  assert (Hperm : sorted ≡ₚ scored) by apply sort_perm.
  exists (take 120 sorted), (drop 120 sorted).
  rewrite <- (take_drop 120 sorted) in Hsorted.
  repeat split.
  - unfold Solver.select. rewrite filter_app. fold required scored sorted.
    rewrite (filter_all _ required), (filter_none _ (take 120 sorted)).
    + by rewrite app_nil_r.
    + apply Forall_take. rewrite Hperm.
      eapply Forall_impl; [exact Hscored|]. simpl. congruence.
    + apply Forall_forall. intros a Ha.
      by apply list_elem_of_filter in Ha as [? _].
  - by rewrite take_drop.
  - by eapply StronglySorted_app_1_l.
  - rewrite length_take. by rewrite Hperm.
  - intros k d Hk Hd.
    exact (StronglySorted_app_1_elem_of _ _ _ _ _ Hsorted Hk Hd).
  - intros make_repro_case conclusion. unfold asserted.
    destruct make_repro_case; rewrite fmap_app; simpl; f_equal.
    + rewrite <- list_fmap_compose. by apply list_fmap_ext.
    + rewrite fmap_imap. apply (imap_const (expr Score)).
Qed.

Lemma Zltb_asym (x y : Z) : (x <? y)%Z = true → (y <? x)%Z = false.
Proof. intros H. apply Z.ltb_lt in H. apply Z.ltb_ge. lia. Qed.

Lemma Zltb_ge_trans (x y z : Z) :
  (y <? x)%Z = false → (z <? y)%Z = false → (z <? x)%Z = false.
Proof. rewrite !Z.ltb_ge. lia. Qed.

Lemma select_required_and_top_120_witness :
  ∃ kept dropped,
    select Z Z.ltb ex_assumptions
      = [ex_stmt None "p"; ex_stmt None "not_p"] ++ kept ∧
    filter (λ a, is_required Z a = true) (select Z Z.ltb ex_assumptions)
      = [ex_stmt None "p"; ex_stmt None "not_p"] ∧
    kept ++ dropped ≡ₚ
      [ex_stmt (Some 5%Z) "q5"; ex_stmt (Some 2%Z) "q2"; ex_stmt (Some 9%Z) "q9"] ∧
    StronglySorted (ascending Z Z.ltb) kept ∧
    length kept = 3%nat ∧
    (∀ k d, k ∈ kept → d ∈ dropped → key_lt Z Z.ltb d k = false) ∧
    ∀ make_repro_case conclusion,
      (asserted Z make_repro_case (select Z Z.ltb ex_assumptions) conclusion).*2
        = (expr Z <$> select Z Z.ltb ex_assumptions) ++ [Not conclusion].
Proof.
  exact (select_required_and_top_120 Z Z.ltb ex_assumptions Zltb_asym Zltb_ge_trans).
Defined.

Section Verdict.

Variable Score : Type.
Variable lt : Score → Score → bool.
Variable check : list (option string * z3expr) → check_result.

Lemma print_core_cases (stmt_index : list (string * Z3Statement Score)) core :
  print_core Score stmt_index core = Done tt ∨
  ∃ k, print_core Score stmt_index core = Raise (KeyError k).
Proof.
  induction core as [|stmt rest IH]; simpl; [by left|].
  case_bool_decide; [done|].
  destruct (dict_get stmt_index stmt); [done|]. right. by eexists.
Qed.

Lemma print_core_known (l : list (Z3Statement Score)) core :
  (∀ stmt, stmt ∈ core →
     stmt = "conclusion" ∨ ∃ idx, (idx < length l)%nat ∧ stmt = label idx) →
  print_core Score (make_stmt_index Score false l) core = Done tt.
Proof.
  induction core as [|stmt rest IH]; simpl; intros H; [done|].
  case_bool_decide as Hc; [apply IH; intros; apply H; by right|].
  destruct (H stmt) as [?|(idx & Hidx & ->)]; [by left|done|].
  destruct (dict_get_Some_elem (imap (λ idx a, (label idx, a)) l) (label idx))
    as [a Ha].
  - apply lookup_lt_is_Some_2 in Hidx as [a Ha].
    apply list_elem_of_fmap. exists (label idx, a). split; [done|].
    by apply (elem_of_lookup_imap_2 (λ idx a, (label idx, a)) l a idx).
  - rewrite Ha. apply IH. intros; apply H; by right.
Qed.

End Verdict.

(** C1 (amended). In tracked mode, when the solver answers unsat: if
    the label ['conclusion'] is not in the core, [solve] raises,
    whatever the core holds, and never returns a verdict; with a core
    made of labels that were tracked, what it raises is the soundness
    failure, while with ['conclusion'] in the core it returns [True].
    The test is of the label alone. *)
Theorem solve_soundness_check Score lt check
    (assumptions : list (Z3Statement Score)) conclusion core :
  check (asserted Score false (select Score lt assumptions) conclusion)
    = unsat core →
  ("conclusion" ∉ core →
     ∃ e, solve Score lt check false assumptions conclusion = Raise e) ∧
  ((∀ stmt, stmt ∈ core →
      stmt = "conclusion" ∨
      ∃ idx, (idx < length (select Score lt assumptions))%nat ∧ stmt = label idx) →
   ("conclusion" ∉ core →
      solve Score lt check false assumptions conclusion =
        Raise (Exception "Soundness failure; conclusion not required for proof")) ∧
   ("conclusion" ∈ core →
      solve Score lt check false assumptions conclusion =
        Done (Some true,
              make_report Score
                (make_stmt_index Score false (select Score lt assumptions))
                core))).
Proof.
  intros Hcheck. unfold solve. rewrite Hcheck. cbv zeta. split.
  - intros Hn.
    destruct (print_core_cases Score
                (make_stmt_index Score false (select Score lt assumptions)) core)
      as [->|[k ->]]; simpl.
    + rewrite bool_decide_eq_false_2 by done. by eexists.
    + by eexists.
  - intros Hknown. rewrite print_core_known by done. simpl. split; intros Hc.
    + by rewrite bool_decide_eq_false_2.
    + by rewrite bool_decide_eq_true_2.
Qed.

Lemma solve_soundness_check_witness :
  solve Z Z.ltb ex_check false ex_assumptions (Const "c")
    = Raise (Exception "Soundness failure; conclusion not required for proof").
Proof.
  destruct (solve_soundness_check Z Z.ltb ex_check ex_assumptions (Const "c")
              ["assumption0"; "assumption1"] eq_refl) as [_ H].
  apply H.
  - intros stmt Hin. right.
    apply elem_of_cons in Hin as [->|Hin]; [exists 0%nat; split; [vm_compute; lia|reflexivity]|].
    apply list_elem_of_singleton in Hin as ->.
    exists 1%nat. split; [vm_compute; lia|reflexivity].
  - intros Hin. apply elem_of_cons in Hin as [Hin|Hin]; [discriminate Hin|].
    apply list_elem_of_singleton in Hin. discriminate Hin.
Defined.

(** The label test does not tell whether the axioms alone are
    contradictory: with the axioms [is_func(p)] and [Not(is_func(p))]
    and a core that names them and ['conclusion'], [solve] reports the
    proof as a success. *)
Lemma solve_accepts_contradictory_axioms :
  SolverMore.contradictory ExamplesMore.ex_contradictory ∧
  solve Z Z.ltb ExamplesMore.ex_check_nonminimal false
    ExamplesMore.ex_contradictory (Is_func (Const "c"))
    = Done (Some true, []) ∧
  ¬ (∀ check (assumptions : list (Z3Statement Z)) conclusion report,
       SolverMore.contradictory assumptions →
       solve Z Z.ltb check false assumptions conclusion
         ≠ Done (Some true, report)).
Proof.
  assert (SolverMore.contradictory ExamplesMore.ex_contradictory) as Hc.
  { exists (Is_func (Const "p")). split.
    - apply elem_of_cons. by left.
    - apply elem_of_cons. right. apply elem_of_cons. by left. }
  assert (solve Z Z.ltb ExamplesMore.ex_check_nonminimal false
            ExamplesMore.ex_contradictory (Is_func (Const "c"))
          = Done (Some true, [])) as Hs by (vm_compute; reflexivity).
  split; [exact Hc|]. split; [exact Hs|].
  intros H. exact (H _ _ _ _ Hc Hs).
Qed.

End SolverFacts.

Module ExpansionFacts.
Import Registry Compiler Solver Expansion Examples.

Section Loop.

Variable Score : Type.
Variable _pure_defs : ModuleInfo.
Variable make_statement_fn :
  FunctionDef → M Z3BindingEnv (option (Z3Statement Score)).

#[local] Abbreviation state := (state Score).
#[local] Abbreviation expand_fn := (expand_fn Score make_statement_fn).
#[local] Abbreviation expand_fns := (expand_fns Score make_statement_fn).
#[local] Abbreviation round := (round Score _pure_defs make_statement_fn).
#[local] Abbreviation expansion_loop := (expansion_loop Score _pure_defs make_statement_fn).
#[local] Abbreviation knowledge_expansion :=
  (knowledge_expansion Score _pure_defs make_statement_fn).
#[local] Abbreviation closed := (closed Score _pure_defs).
#[local] Abbreviation productive_rounds :=
  (productive_rounds Score _pure_defs make_statement_fn).

(** A function whose definition is in the border set is expanded:
    the body of the loop reports an addition, unless it raises. *)
Lemma expand_fn_added borderset fninfo (st st' : state) fn_def b :
  get_definition fninfo = Some fn_def →
  oid fn_def ∈ borderset →
  expand_fn borderset fninfo st = (Done b, st') → b = true.
Proof.
  intros Hd Hin. unfold expand_fn. rewrite Hd.
  rewrite bool_decide_eq_true_2 by done.
  unfold mbind, M_bind, mret, M_ret.
  repeat match goal with
         | |- context [match ?x with _ => _ end] => destruct x
         end; congruence.
Qed.

(** A function that has no definition, or whose definition is not in
    the border set, is skipped. *)
Lemma expand_fn_skipped borderset fninfo (st : state) :
  (∀ fn_def, get_definition fninfo = Some fn_def → oid fn_def ∉ borderset) →
  expand_fn borderset fninfo st = (Done false, st).
Proof.
  intros H. unfold expand_fn. destruct (get_definition fninfo) as [d|]; [|done].
  by rewrite bool_decide_eq_false_2 by auto.
Qed.

Lemma expand_fns_true borderset fns (st st' : state) b :
  expand_fns borderset fns true st = (Done b, st') → b = true.
Proof.
  revert st. induction fns as [|[name fninfo] rest IH]; intros st; simpl.
  - unfold mret, M_ret. congruence.
  - unfold mbind, M_bind. destruct (expand_fn _ _ _) as [[added| |] st1];
      try discriminate. simpl. apply IH.
Qed.

(** Nothing is added exactly when no definition of the registry is
    in the border set, and then the state is as before. *)
Lemma expand_fns_false borderset fns (st st' : state) :
  expand_fns borderset fns false st = (Done false, st') →
  st' = st ∧
  ∀ name fninfo fn_def, (name, fninfo) ∈ fns →
    get_definition fninfo = Some fn_def → oid fn_def ∉ borderset.
Proof.
  revert st. induction fns as [|[name fninfo] rest IH]; intros st; simpl.
  - unfold mret, M_ret. intros [= <-]. split; [done|].
    intros ??? Hin. by apply elem_of_nil in Hin.
  - unfold mbind, M_bind.
    destruct (expand_fn _ _ _) as [[added| |] st1] eqn:He; try discriminate.
    destruct added; simpl.
    + intros H. by apply expand_fns_true in H.
    + intros H. destruct (IH _ H) as [-> Hrest].
      assert (Hskip : ∀ fn_def, get_definition fninfo = Some fn_def →
                                oid fn_def ∉ borderset).
      { intros fn_def Hd Hin.
        by pose proof (expand_fn_added _ _ _ _ _ _ Hd Hin He). }
      rewrite expand_fn_skipped in He by done. injection He as <-.
      split; [done|]. intros name' fninfo' fn_def Hin Hd.
      apply elem_of_cons in Hin as [[= -> ->]|Hin]; eauto.
Qed.

Lemma expand_fns_skipped borderset fns (st : state) b :
  (∀ name fninfo fn_def, (name, fninfo) ∈ fns →
     get_definition fninfo = Some fn_def → oid fn_def ∉ borderset) →
  expand_fns borderset fns b st = (Done b, st).
Proof.
  revert b. induction fns as [|[name fninfo] rest IH]; intros b H; simpl; [done|].
  unfold mbind, M_bind. rewrite expand_fn_skipped.
  - rewrite orb_false_r. apply IH. intros ??? Hin. eapply H. by right.
  - intros fn_def. eapply H. by left.
Qed.

(** A round on a closed state adds nothing: it only moves the support
    formulas to the baseline. *)
Lemma round_closed (st : state) :
  closed st → round st = (Done false, absorb_support Score st).
Proof.
  intros Hc. unfold round. apply expand_fns_skipped.
  intros name fninfo fn_def Hin Hd Hb.
  apply elem_of_difference in Hb as [Hr Hh]. apply Hh.
  by eapply (Hc name fninfo fn_def).
Qed.

(** A round that adds nothing was run on a closed state, and leaves a
    closed state. *)
Lemma round_false (st st' : state) :
  round st = (Done false, st') →
  closed st ∧ st' = absorb_support Score st ∧ closed st'.
Proof.
  unfold round. intros H. apply expand_fns_false in H as [-> H].
  assert (Hc : closed st).
  { intros name fninfo fn_def Hin Hd Hr.
    destruct (decide (oid fn_def ∈ handled Score st)) as [|Hn]; [done|].
    exfalso. eapply H; [done..|]. apply elem_of_difference. done. }
  done.
Qed.

Lemma expansion_loop_result remaining iter (st st' : state) n b :
  expansion_loop remaining iter st = (Done (n, b), st') →
  ∃ k st_k,
    productive_rounds k st = Some st_k ∧
    (if b then (k < remaining)%nat ∧ n = (iter + S k)%nat ∧ closed st_k ∧
               st' = absorb_support Score st_k
     else k = remaining ∧ n = (iter + k)%nat ∧ st' = st_k).
Proof.
  revert iter st. induction remaining as [|remaining IH]; intros iter st; simpl.
  - unfold mret, M_ret. intros [= <- <- <-]. exists 0%nat, st.
    split; [done|]. repeat split; lia.
  - unfold mbind, M_bind.
    destruct (round st) as [[addedone| |] st1] eqn:Hr; try discriminate.
    destruct addedone.
    + intros H. destruct (IH _ _ H) as (k & st_k & Hp & Hk).
      exists (S k), st_k. simpl. rewrite Hr. split; [done|].
      destruct b.
      * destruct Hk as (? & -> & ? & ->). repeat split; [lia|lia|done].
      * destruct Hk as (-> & -> & ->). repeat split; lia.
    + unfold mret, M_ret. intros [= <- <- <-].
      apply round_false in Hr as (Hc & -> & _).
      exists 0%nat, st. split; [done|]. repeat split; [lia|lia|done].
Qed.

Lemma expansion_loop_stops remaining iter k (st st_k : state) :
  productive_rounds k st = Some st_k →
  closed st_k →
  (k < remaining)%nat →
  expansion_loop remaining iter st =
    (Done ((iter + S k)%nat, true), absorb_support Score st_k).
Proof.
  revert remaining iter st. induction k as [|k IH]; intros remaining iter st; simpl.
  - intros [= ->] Hc Hlt. destruct remaining as [|remaining]; [lia|]. simpl.
    unfold mbind, M_bind. rewrite round_closed by done.
    unfold mret, M_ret. do 3 f_equal. lia.
  - destruct (round st) as [[[|]| |] st1] eqn:Hr; try discriminate.
    intros Hp Hc Hlt. destruct remaining as [|remaining]; [lia|]. simpl.
    unfold mbind, M_bind. rewrite Hr.
    rewrite (IH remaining (S iter) st1) by (done || lia).
    do 3 f_equal. lia.
Qed.

End Loop.

(** C4. The knowledge-expansion loop runs at most 10 rounds; it is left
    by [break] at the first round that adds no definition to the
    handled set, and then the state is closed (every referenced
    definition of the registry is handled; the round changed neither
    [refs] nor [handled]); if every round added one, it ends after the
    tenth. Whenever the closure is reached after [k < 10] rounds, the
    loop returns after round [k + 1], in that closed state. *)
Theorem knowledge_expansion_rounds Score _pure_defs make_statement_fn
    (st : state Score) :
  (∀ n b st',
     knowledge_expansion Score _pure_defs make_statement_fn st = (Done (n, b), st') →
     (n ≤ 10)%nat ∧
     ∃ k st_k,
       productive_rounds Score _pure_defs make_statement_fn k st = Some st_k ∧
       if b then n = S k ∧ closed Score _pure_defs st_k ∧
                 closed Score _pure_defs st' ∧
                 refs (env Score st') = refs (env Score st_k) ∧
                 handled Score st' = handled Score st_k
       else n = 10%nat ∧ k = 10%nat ∧ st' = st_k) ∧
  (∀ k st_k,
     (k < 10)%nat →
     productive_rounds Score _pure_defs make_statement_fn k st = Some st_k →
     closed Score _pure_defs st_k →
     knowledge_expansion Score _pure_defs make_statement_fn st =
       (Done (S k, true), absorb_support Score st_k)).
Proof.
  split.
  - intros n b st' H. apply expansion_loop_result in H as (k & st_k & Hp & Hk).
    destruct b.
    + destruct Hk as (Hlt & -> & Hc & ->). unfold _MAX_DEPTH in Hlt.
      split; [simpl; lia|]. exists k, st_k. split; [done|].
      repeat split; done.
    + destruct Hk as (-> & -> & ->). unfold _MAX_DEPTH. split; [simpl; lia|].
      exists 10%nat, st_k. done.
  - intros k st_k Hlt Hp Hc.
    exact (expansion_loop_stops _ _ _ _ 0 k st st_k Hp Hc Hlt).
Qed.

Lemma knowledge_expansion_rounds_witness :
  ∃ st_2,
    productive_rounds Z ex_registry ex_make_statement_fn 2 ex_state = Some st_2 ∧
    knowledge_expansion Z ex_registry ex_make_statement_fn ex_state
      = (Done (3%nat, true), absorb_support Z st_2) ∧
    handled Z st_2 = {[1%positive; 2%positive]}.
Proof.
  destruct (productive_rounds Z ex_registry ex_make_statement_fn 2 ex_state)
    as [st_2|] eqn:Hp; [|vm_compute in Hp; discriminate Hp].
  exists st_2. split; [done|].
  assert (Hst : st_2 =
    {| env := {| refs := {[1%positive := Const "f"; 2%positive := Const "g"]};
                 support := [] |};
       baseline := [Some (ex_stmt None "_assert_f");
                    Some (make_statement Z (Is_func (Const "f")));
                    Some (make_statement Z (Is_func (Const "g")))];
       handled := {[1%positive; 2%positive]} |}).
  { vm_compute in Hp. injection Hp as <-. vm_compute. reflexivity. }
  split; [|by rewrite Hst; vm_compute].
  apply (knowledge_expansion_rounds Z ex_registry ex_make_statement_fn ex_state);
    [lia|exact Hp|].
  rewrite Hst. intros nm fninfo fn_def Hin Hd _. simpl in Hin.
  apply elem_of_cons in Hin as [Heq|Hin];
    [injection Heq as -> ->; discriminate Hd|].
  apply elem_of_cons in Hin as [Heq|Hin];
    [injection Heq as -> ->; injection Hd as <-; simpl; set_solver|].
  apply elem_of_cons in Hin as [Heq|Hin];
    [injection Heq as -> ->; injection Hd as <-; simpl; set_solver|].
  by apply elem_of_nil in Hin.
Defined.

End ExpansionFacts.

(** ** The doctests of the module, run on the embedding *)

Module Doctests.
Import Pattern Registry Compiler Examples.

(** [matches(astparse('0 + 2'), patt, bindings)] is [True] and binds
    [X] to [2]; [replace_pattern_vars(repl, bindings)] is [(2 + 1)]. *)
Example test_matches_binds :
  matches ex_tree (patt ex_rule) ∅ = Done (true, {["X" := Num 2]}).
Proof. vm_compute. reflexivity. Qed.

(** [basic_simplifier.add(exprparse('0 + X'), exprparse('X + 1'), always)] *)
Example test_add :
  Pattern.add ex_tyhash ex_isupper RewriteEngine_new
    (BinOp (Num 0) Add (Name "X")) (BinOp (Name "X") Add (Num 1)) always
    = Done ex_engine.
Proof. vm_compute. reflexivity. Qed.

Example test_replace_pattern_vars :
  replace_pattern_vars (repl ex_rule) {["X" := Num 2]}
    = Done (BinOp (Num 2) Add (Num 1)).
Proof. vm_compute. reflexivity. Qed.

(** [to_z3(exprparse('False'), Z3BindingEnv())] is [bool(False)]. *)
Example to_z3_False :
  (to_z3 ex_pure_defs ex_apply_intrinsic ex_visit_rest 1
     (NameConstant (Some false)) Z3BindingEnv_new).1
    = Done (ZE (Unk_bool false)).
Proof. reflexivity. Qed.

(** [to_z3(exprparse('4 + 0'), ...)] is
    [.(_op_Add, a(a(_, int(4)), int(0)))]. *)
Example to_z3_add :
  (to_z3 ex_pure_defs ex_apply_intrinsic ex_visit_rest 2
     (BinOp (Num 4) Add (Num 0)) Z3BindingEnv_new).1
    = Done (ZE (App (Const "_op_Add")
                  (Unk_a (Unk_a Unk_empty (Unk_int 4)) (Unk_int 0)))).
Proof. vm_compute. reflexivity. Qed.

(** [to_z3(exprparse('True and False'), ...)] is
    [.(_op_And, a(a(_, bool(True)), bool(False)))]. *)
Example to_z3_and :
  (to_z3 ex_pure_defs ex_apply_intrinsic ex_visit_rest 2
     (BoolOp And [NameConstant (Some true); NameConstant (Some false)])
     Z3BindingEnv_new).1
    = Done (ZE (App (Const "_op_And")
                  (Unk_a (Unk_a Unk_empty (Unk_bool true)) (Unk_bool false)))).
Proof. vm_compute. reflexivity. Qed.

(** [to_z3(exprparse('0 <= 5'), ...)] is
    [.(_op_LtE, a(a(_, int(0)), int(5)))]. *)
Example to_z3_lte :
  (to_z3 ex_pure_defs ex_apply_intrinsic ex_visit_rest 2
     (Compare (Num 0) [LtE] [Num 5]) Z3BindingEnv_new).1
    = Done (ZE (App (Const "_op_LtE")
                  (Unk_a (Unk_a Unk_empty (Unk_int 0)) (Unk_int 5)))).
Proof. vm_compute. reflexivity. Qed.

(** The merge of arguments: [(4, *())] gives [Concat(a(_, int(4)), _)],
    and a starred first argument stands for the whole list. *)
Example merge_arg_starred :
  reduce _merge_arg [ZE (Unk_int 4); ZStarred (ZE Unk_empty)] (ZE Unk_empty)
    = Done (ZE (Concat (Unk_a Unk_empty (Unk_int 4)) Unk_empty)) ∧
  reduce _merge_arg [ZStarred (ZE (Const "_builtin_range")); ZE (Unk_int 4)]
    (ZE Unk_empty)
    = Done (ZE (Unk_a (Const "_builtin_range") (Unk_int 4))).
Proof. split; reflexivity. Qed.

(** Two definitions under one name: [parse_pure] raises. *)
Example parse_pure_twice :
  (parse_pure ex_fn_args ex_argument_preconditions ex_astcall "crosshair"
     [ex_def 1 "f"; ex_def 2 "f"]
     {| next_oid := 100; _fndef_to_moduleinfo := ∅ |}).1
    = Raise (Exception "multiply defined function: f").
Proof. vm_compute. reflexivity. Qed.

End Doctests.

Module PatternMoreFacts.
Import Pattern PatternMore Examples PatternFacts.

(** X1. A node that a pattern matches is filed under the hash of the
    pattern: when [matches] succeeds against a pattern that is not a
    pattern variable, node and pattern have the same [patthash], so a
    rule stored under the hash of its pattern is among the candidates
    [lookup] returns for every node it can match. *)
Theorem matches_same_hash tyhash (node patt : node) (bind b' : bindings) :
  is_pattern_var patt = Done false →
  matches node patt bind = Done (true, b') →
  patthash tyhash node = patthash tyhash patt.
Proof.
  intros Hv Hm. unfold patthash.
  destruct (decide (type patt = type node)) as [Ht|Ht].
  - rewrite Ht. f_equal.
    destruct patt, node; try discriminate Ht; try reflexivity; simpl in *.
    + (* BinOp *) destruct (bool_decide (type _ = type _)) eqn:Hop; [|discriminate].
      apply bool_decide_eq_true in Hop. by rewrite Hop.
    + destruct (bool_decide (type _ = type _)) eqn:Hop; [|discriminate].
      apply bool_decide_eq_true in Hop. by rewrite Hop.
  - rewrite (matches_kind_mismatch_clears _ _ _ Hv Ht) in Hm. discriminate.
Qed.

Lemma matches_same_hash_witness :
  patthash ex_tyhash ex_tree = patthash ex_tyhash (patt ex_rule).
Proof.
  apply (matches_same_hash ex_tyhash ex_tree (patt ex_rule) ∅ {["X" := Num 2]}).
  - reflexivity.
  - vm_compute. reflexivity.
Defined.

(** **** Adding rules *)

Lemma index_get_insert (_index : gmap Z (list rule)) h h' l :
  index_get (<[h := l]> _index) h' =
    if decide (h' = h) then l else index_get _index h'.
Proof.
  unfold index_get. destruct (decide (h' = h)) as [->|Hne].
  - by rewrite lookup_insert_eq.
  - by rewrite lookup_insert_ne.
Qed.

Lemma lookup_lookup_append (self : engine) h x h' :
  lookup (lookup_append self h x) h' =
    if decide (h' = h) then
      if append_lost self h then lookup self h else lookup self h ++ [x]
    else lookup self h'.
Proof.
  induction self as [_index|inner IH _index].
  - apply index_get_insert.
  - cbn [lookup_append append_lost].
    destruct (index_get _index h) as [|r1 rest1] eqn:H1; cbn [is_empty].
    + cbn [lookup]. rewrite IH.
      destruct (decide (h' = h)) as [->|Hne]; [|done].
      by rewrite H1.
    + destruct (lookup inner h) as [|r2 rest2] eqn:H2; cbn [is_empty negb].
      * cbn [lookup]. rewrite index_get_insert.
        destruct (decide (h' = h)) as [->|Hne]; [|done].
        rewrite H2, H1. done.
      * destruct (decide (h' = h)) as [->|Hne]; done.
Qed.

(** X2. After [add], the candidates for every other hash are as before,
    and those for the hash of the preprocessed pattern are the earlier
    ones followed by the new rule, which therefore is tried last; the
    one exception is a wrapped engine that has rules for that hash on
    both sides, where the rule is appended to a temporary list and the
    candidates do not change. *)
Theorem add_then_lookup tyhash isupper (self self' : engine)
    (patt repl : node) cond :
  add tyhash isupper self patt repl cond = Done self' →
  ∃ patt' repl',
    PatternVarPreprocessor_visit isupper patt = Done patt' ∧
    PatternVarPreprocessor_visit isupper repl = Done repl' ∧
    ∀ hsh,
      lookup self' hsh =
        if decide (hsh = patthash tyhash patt') then
          if append_lost self hsh then lookup self hsh
          else lookup self hsh ++ [Rule patt' repl' cond]
        else lookup self hsh.
Proof.
  unfold add. intros H.
  destruct (PatternVarPreprocessor_visit isupper patt) as [patt'| |];
    try discriminate.
  destruct (PatternVarPreprocessor_visit isupper repl) as [repl'| |];
    try discriminate.
  simpl in H. injection H as <-.
  exists patt', repl'. repeat split. intros hsh.
  rewrite lookup_lookup_append.
  destruct (decide (hsh = patthash tyhash patt')) as [->|]; done.
Qed.

Lemma add_then_lookup_witness :
  ∃ patt' repl',
    PatternVarPreprocessor_visit ex_isupper (BinOp (Name "X") Add (Num 0))
      = Done patt' ∧
    PatternVarPreprocessor_visit ex_isupper (Name "X") = Done repl' ∧
    ∀ hsh,
      lookup
        (RewriteEngine
           {[ patthash ex_tyhash (patt ex_rule) := [ex_rule; ex_local_rule] ]})
        hsh =
        if decide (hsh = patthash ex_tyhash patt') then
          if append_lost ex_engine hsh then lookup ex_engine hsh
          else lookup ex_engine hsh ++ [Rule patt' repl' always]
        else lookup ex_engine hsh.
Proof.
  apply (add_then_lookup ex_tyhash ex_isupper ex_engine _
           (BinOp (Name "X") Add (Num 0)) (Name "X") always).
  vm_compute. reflexivity.
Defined.

(** X3. Rules added to a freshly wrapped engine all land in the engine
    it wraps: the outcome is that of adding them to the inner engine,
    and the local index is still empty. This is what
    [attempt_reduce_fn_xform] does to [basic_simplifier]. *)
Theorem add_all_wrapped_reaches_inner tyhash isupper (inner : engine) rules :
  add_all tyhash isupper (WrappedRewriteEngine_new inner) rules
    = WrappedRewriteEngine_new <$> add_all tyhash isupper inner rules.
Proof.
  revert inner. induction rules as [|[[p r] c] rules IH]; intros inner; [done|].
  simpl. rewrite wrapped_add_reaches_inner.
  destruct (add tyhash isupper inner p r c) as [inner'| |]; simpl; [|done..].
  apply IH.
Qed.

(** **** Heights *)

Lemma height_list_eq (l : list node) :
  (fix go (l : list node) : nat :=
     match l with
     | [] => O
     | x :: rest => Nat.max (height x) (go rest)
     end) l = heights l.
Proof. induction l as [|x l IH]; simpl; [done|]. by rewrite IH. Qed.

Lemma heights_elem (l : list node) c : c ∈ l → (height c ≤ heights l)%nat.
Proof.
  induction l as [|x l IH]; intros Hc; [by apply elem_of_nil in Hc|].
  simpl. apply elem_of_cons in Hc as [->|Hc]; [lia|]. specialize (IH Hc). lia.
Qed.

Lemma heights_filter (l : list node) c :
  c ∈ filter (λ x, is_AST x = true) l → (height c ≤ heights l)%nat.
Proof. intros Hc. apply list_elem_of_filter in Hc as [_ Hc]. by apply heights_elem. Qed.

Ltac fold_heights :=
  repeat match goal with
  | |- context [?f ?l] =>
      is_fix f; rewrite (height_list_eq l)
  end.

Lemma field_children_height f c :
  c ∈ field_children f → (height c ≤ height f)%nat.
Proof.
  destruct f; simpl; intros Hc;
    try (apply list_elem_of_singleton in Hc as ->; simpl; lia).
  fold_heights. apply heights_filter in Hc. lia.
Qed.

Lemma opt_children_height (o : option node) c :
  c ∈ opt_children o →
  (height c < match o with None => O | Some x => S (height x) end)%nat.
Proof.
  destruct o as [f|]; simpl; intros Hc; [|by apply elem_of_nil in Hc].
  apply field_children_height in Hc. lia.
Qed.

Lemma fields_children_height (fs : list node) c :
  c ∈ concat (map field_children fs) → (height c ≤ heights fs)%nat.
Proof.
  induction fs as [|f fs IH]; simpl; intros Hc; [by apply elem_of_nil in Hc|].
  apply elem_of_app in Hc as [Hc|Hc].
  - apply field_children_height in Hc. lia.
  - specialize (IH Hc). lia.
Qed.

Lemma children_height n c : c ∈ children n → (height c < height n)%nat.
Proof.
  destruct n; simpl; fold_heights; intros Hc;
    repeat (apply elem_of_app in Hc as [Hc|Hc]);
    first
      [ by apply elem_of_nil in Hc
      | apply field_children_height in Hc; lia
      | apply heights_filter in Hc; lia
      | apply opt_children_height in Hc; lia
      | apply fields_children_height in Hc; lia ].
Qed.

Lemma field_children_AST f c : is_AST f = true ∨ True → c ∈ field_children f → is_AST c = true.
Proof.
  intros _. destruct f; simpl; intros Hc;
    try (by apply list_elem_of_singleton in Hc as ->).
  by apply list_elem_of_filter in Hc as [? _].
Qed.

Lemma children_AST n c : c ∈ children n → is_AST c = true.
Proof.
  destruct n; simpl; intros Hc;
    repeat (apply elem_of_app in Hc as [Hc|Hc]);
    first
      [ by apply elem_of_nil in Hc
      | by eapply field_children_AST; [by right|exact Hc]
      | by apply list_elem_of_filter in Hc as [? _]
      | idtac ].
  - destruct lower as [f|]; [|by apply elem_of_nil in Hc].
    by eapply field_children_AST; [by right|exact Hc].
  - destruct upper as [f|]; [|by apply elem_of_nil in Hc].
    by eapply field_children_AST; [by right|exact Hc].
  - destruct step as [f|]; [|by apply elem_of_nil in Hc].
    by eapply field_children_AST; [by right|exact Hc].
  - destruct annotation as [f|]; [|by apply elem_of_nil in Hc].
    by eapply field_children_AST; [by right|exact Hc].
  - induction fields as [|f fs IH]; simpl in Hc; [by apply elem_of_nil in Hc|].
    apply elem_of_app in Hc as [Hc|Hc]; [|auto].
    by eapply field_children_AST; [by right|exact Hc].
Qed.

(** **** Trees in normal form *)

Section Normal.

Variable tyhash : nodetype → Z.
Variable self : engine.

Lemma normal_generic_visit (fuel : nat) n :
  normal tyhash self n → is_AST n = true → (height n + 2 ≤ fuel)%nat →
  generic_visit tyhash self fuel n = Done n.
Proof.
  revert n. induction fuel as [|fuel IH]; intros n Hn Hast Hfuel; [lia|].
  destruct Hn as [n Htop Hch].
  change (generic_visit tyhash self (S fuel) n) with
    (generic_visit_fields (generic_visit tyhash self fuel) n ≫= λ n1,
       '(changed, newnode) ← rewrite_top tyhash self fuel n1;
       if changed : bool then generic_visit tyhash self fuel newnode
       else Done n1).
  rewrite generic_visit_fields_id; [|done|].
  - rewrite OutcomeFacts.Done_bind.
    destruct fuel as [|fuel]; [lia|]. simpl.
    unfold top_normal in Htop. by rewrite Htop.
  - intros c Hc. apply IH; [by apply Hch|by eapply children_AST|].
    apply children_height in Hc. lia.
Qed.

End Normal.

Lemma rule_free_normal tyhash self n : rule_free self → normal tyhash self n.
Proof.
  intros Hfree.
  assert (∀ h n, (height n < h)%nat → normal tyhash self n) as H.
  { clear n. induction h as [|h IH]; intros n Hh; [lia|].
    constructor.
    { unfold top_normal. by rewrite Hfree. }
    intros c Hc. apply IH. apply children_height in Hc. lia. }
  apply (H (S (height n))). lia.
Qed.

Lemma RewriteEngine_new_rule_free : rule_free RewriteEngine_new.
Proof. intros hsh. simpl. unfold index_get. by rewrite lookup_empty. Qed.

(** X4. A tree in normal form for an engine comes back from [rewrite]
    as it went in, once the fuel covers its height: no rule fires at any
    node, and [generic_visit] rebuilds each node from unchanged fields. *)
Theorem rewrite_normal_unchanged tyhash self (fuel : nat) n :
  normal tyhash self n → is_AST n = true → (height n + 2 ≤ fuel)%nat →
  rewrite tyhash self fuel n = Done n.
Proof. apply normal_generic_visit. Qed.

Lemma rewrite_normal_unchanged_witness :
  rewrite ex_tyhash ex_engine 3 (Num 2) = Done (Num 2).
Proof.
  apply (rewrite_normal_unchanged ex_tyhash ex_engine 3 (Num 2)).
  - constructor; [by vm_compute|]. intros c Hc. by apply elem_of_nil in Hc.
  - reflexivity.
  - simpl. lia.
Defined.

(** X5. As long as the module global [basic_simplifier] has no rule,
    which is how the import of the module leaves it, every entry of
    its rule list being commented out, [call_predicate] returns the
    bare call node [predicate(target)]. The result depends on that
    state: an [add] on the global, or on an engine wrapping it,
    changes what later calls return. *)
Theorem call_predicate_plain_call tyhash (basic_simplifier : engine)
    (fuel : nat) (predicate target : node) :
  rule_free basic_simplifier →
  (height (Call predicate [target]) + 2 ≤ fuel)%nat →
  call_predicate tyhash basic_simplifier fuel predicate target =
    Done (Call predicate [target]).
Proof.
  intros Hfree Hfuel. apply normal_generic_visit; [|done..].
  by apply rule_free_normal.
Qed.

Lemma call_predicate_plain_call_witness :
  ∃ basic_simplifier,
    basic_simplifier_at_import ex_tyhash ex_isupper = Done basic_simplifier ∧
    call_predicate ex_tyhash basic_simplifier 4 (Name "isint") (Num 2) =
      Done (Call (Name "isint") [Num 2]).
Proof.
  exists RewriteEngine_new. split; [reflexivity|].
  apply (call_predicate_plain_call ex_tyhash RewriteEngine_new 4
           (Name "isint") (Num 2)).
  - exact RewriteEngine_new_rule_free.
  - simpl. lia.
Defined.

(** Once a rule for [isint(X)] has been added through a wrapper, as
    [attempt_reduce_fn_xform] adds its rule, the same call is
    rewritten. *)
Example call_predicate_after_add :
  let rule := Rule (Call (Name "isint") [Name "$X"]) (NameConstant (Some true))
                always in
  let basic_simplifier :=
    RewriteEngine {[ patthash ex_tyhash (patt rule) := [rule] ]} in
  add ex_tyhash ex_isupper (WrappedRewriteEngine_new RewriteEngine_new)
    (Call (Name "isint") [Name "X"]) (NameConstant (Some true)) always
    = Done (WrappedRewriteEngine_new basic_simplifier) ∧
  call_predicate ex_tyhash basic_simplifier 4 (Name "isint") (Num 2) =
    Done (NameConstant (Some true)).
Proof. split; vm_compute; reflexivity. Qed.

(** **** Substitution and preprocessing *)

Lemma replace_variable_free_height (mapping : bindings) h n :
  (height n < h)%nat → variable_free n →
  PatternVarReplacer_visit mapping n = Done n.
Proof.
  revert n. induction h as [|h IH]; intros n Hh Hn; [lia|].
  destruct Hn as [n [Hast Htop] Hch].
  assert (generic_visit_fields (PatternVarReplacer_visit mapping) n = Done n)
    as Hgen.
  { apply generic_visit_fields_id; [done|].
    intros c Hc. apply IH; [|by apply Hch].
    apply children_height in Hc. lia. }
  destruct n; try exact Hgen.
  simpl. by rewrite Htop.
Qed.

(** X6. Substituting into a template that holds no pattern variable
    returns the template, whatever the bindings: no key is looked up,
    so no [KeyError] can come from it. *)
Theorem replace_pattern_vars_variable_free (n : node) (bind : bindings) :
  variable_free n → replace_pattern_vars n bind = Done n.
Proof.
  intros Hn. unfold replace_pattern_vars.
  apply (replace_variable_free_height bind (S (height n))); [lia|done].
Qed.

Lemma replace_pattern_vars_variable_free_witness :
  replace_pattern_vars (Call (Name "f") [Num 1]) ∅ = Done (Call (Name "f") [Num 1]).
Proof.
  apply (replace_pattern_vars_variable_free (Call (Name "f") [Num 1]) ∅).
  constructor; [done|]. intros c Hc. simpl in Hc.
  apply elem_of_cons in Hc as [->|Hc].
  - constructor; [done|]. intros c Hc. by apply elem_of_nil in Hc.
  - apply list_elem_of_singleton in Hc as ->.
    constructor; [done|]. intros c Hc. by apply elem_of_nil in Hc.
Defined.

(** X7. An identifier for which [str.isupper] holds is a pattern
    variable: once preprocessed, the pattern [X] matches every node and
    binds it under [X], keeping the other bindings, and substituting
    the bindings into the same template gives the node back. *)
Theorem upper_case_name_matches_all (isupper : string → bool) (X : string)
    (n : node) (bind : bindings) :
  isupper X = true →
  ∃ patt,
    PatternVarPreprocessor_visit isupper (Name X) = Done patt ∧
    matches n patt bind = Done (true, <[X := n]> bind) ∧
    replace_pattern_vars patt (<[X := n]> bind) = Done n.
Proof.
  intros HX. exists (Name ("$" +:+ X)). simpl. rewrite HX.
  split; [done|]. split.
  - by destruct n.
  - unfold replace_pattern_vars. simpl. by rewrite lookup_insert_eq.
Qed.

Lemma upper_case_name_matches_all_witness :
  ∃ patt,
    PatternVarPreprocessor_visit ex_isupper (Name "X") = Done patt ∧
    matches ex_tree patt ∅ = Done (true, <["X" := ex_tree]> ∅) ∧
    replace_pattern_vars patt (<["X" := ex_tree]> ∅) = Done ex_tree.
Proof.
  apply (upper_case_name_matches_all ex_isupper "X" ex_tree ∅). reflexivity.
Defined.

(** X8. A variable that occurs twice in a pattern is not required to
    match equal subtrees: [$v op $v] matches every binary operation
    with an operator of that class, and the variable is left bound to
    the right operand. *)
Theorem matches_repeated_variable (v : string) (nl nop nr pop : node)
    (bind : bindings) :
  type nop = type pop →
  matches (BinOp nl nop nr)
    (BinOp (Name ("$" +:+ v)) pop (Name ("$" +:+ v))) bind
  = Done (true, <[v := nr]> bind).
Proof.
  intros Hop. simpl. rewrite bool_decide_eq_true_2 by done.
  assert (∀ m b, matches m (Name ("$" +:+ v)) b = Done (true, <[v := m]> b))
    as Hvar by (by intros []).
  rewrite Hvar. simpl. rewrite Hvar. by rewrite insert_insert_eq.
Qed.

Lemma matches_repeated_variable_witness :
  matches (BinOp (Num 1) Add (Num 2))
    (BinOp (Name ("$" +:+ "X")) Add (Name ("$" +:+ "X"))) ∅
  = Done (true, <["X" := Num 2]> ∅).
Proof.
  apply (matches_repeated_variable "X" (Num 1) Add (Num 2) Add ∅). reflexivity.
Defined.

(** **** What a match writes *)

Lemma pattern_vars_list_eq (l : list node) :
  (fix go (l : list node) : gset string :=
     match l with
     | [] => ∅
     | x :: rest => pattern_vars x ∪ go rest
     end) l = patterns_vars l.
Proof. induction l as [|x l IH]; simpl; [done|]. by rewrite IH. Qed.

Lemma pattern_vars_Name id :
  starts_with_dollar id = Done true → pattern_vars (Name id) = {[tail id]}.
Proof.
  destruct id as [|c rest]; [discriminate|]. simpl. intros [= Hc].
  apply bool_decide_eq_true in Hc. by subst c.
Qed.

Lemma wrote_within_mono V V' b r :
  V ⊆ V' → wrote_within V b r → wrote_within V' b r.
Proof.
  intros HV H ok b' Hr. destruct (H ok b' Hr) as [?|Hk]; [by left|].
  right. intros k Hn. apply Hk. set_solver.
Qed.

Lemma wrote_within_same V b ok : wrote_within V b (Done (ok, b)).
Proof. intros ok' b' [= <- <-]. by right. Qed.

Lemma wrote_within_seq V b (r : res (bool * bindings))
    (k : bindings → res (bool * bindings)) :
  wrote_within V b r →
  (∀ b1, wrote_within V b1 (k b1)) →
  wrote_within V b
    ('(ok, b1) ← r; if ok : bool then k b1 else Done (false, b1)).
Proof.
  intros Hr Hk ok b' Heq.
  destruct r as [[ok1 b1]| |]; simpl in Heq; try discriminate.
  destruct (Hr ok1 b1 eq_refl) as [[-> ->]|H1].
  - injection Heq as <- <-. by left.
  - destruct ok1.
    + destruct (Hk b1 ok b' Heq) as [?|H2]; [by left|].
      right. intros x Hx. rewrite H2 by done. by apply H1.
    + injection Heq as <- <-. by right.
Qed.

Lemma all_zip_wrote_within m ns ps b :
  (∀ n p b, n ∈ ns → wrote_within (pattern_vars p) b (m n p b)) →
  wrote_within (patterns_vars ps) b (all_zip m ns ps b).
Proof.
  revert ps b. induction ns as [|n ns IH]; intros ps b Hm.
  - destruct ps; apply wrote_within_same.
  - destruct ps as [|p ps]; [apply wrote_within_same|].
    change (all_zip m (n :: ns) (p :: ps) b) with
      ('(ok, b1) ← m n p b;
       if ok : bool then all_zip m ns ps b1 else Done (false, b1)).
    apply wrote_within_seq.
    + eapply wrote_within_mono; [|apply Hm; by left]. simpl. set_solver.
    + intros b1. eapply wrote_within_mono; [|apply IH].
      * simpl. set_solver.
      * intros n' p' b' Hn. apply Hm. by right.
Qed.

Ltac fold_vars :=
  repeat match goal with
  | |- context [?f ?l] => is_fix f; rewrite (pattern_vars_list_eq l)
  end.

Lemma wrote_within_cleared V b : wrote_within V b (Done (false, ∅)).
Proof. intros ok b' [= <- <-]. by left. Qed.

Lemma wrote_within_Raise V b e : wrote_within V b (Raise e).
Proof. intros ok b' [=]. Qed.

Lemma wrote_within_var n pid b :
  wrote_within (pattern_vars (Name pid)) b
    (d ← starts_with_dollar pid;
     if d : bool then Done (true, <[tail pid := n]> b)
     else if negb (bool_decide (TName = type n)) then Done (false, ∅)
     else match n with
          | Name nid => Done (bool_decide (nid = pid), b)
          | _ => Raise (Exception ("Unhandled node type: " ++ "Name"))
          end).
Proof.
  destruct (starts_with_dollar pid) as [[]| |] eqn:Hd.
  - rewrite (pattern_vars_Name _ Hd). intros ok b' [= <- <-]. right.
    intros k Hk. apply lookup_insert_ne. set_solver.
  - destruct n; simpl; first
      [apply wrote_within_cleared|apply wrote_within_same].
  - intros ok b' [=].
  - intros ok b' [=].
Qed.

Lemma matches_wrote_within n p b :
  wrote_within (pattern_vars p) b (matches n p b).
Proof.
  assert (∀ h n, (height n < h)%nat →
            ∀ p b, wrote_within (pattern_vars p) b (matches n p b)) as H.
  { clear. induction h as [|h IH]; intros n Hh p b; [lia|].
    destruct p as [pid| | | | | | | | | | | | | | |].
    { destruct n; apply wrote_within_var. }
    all: destruct n; simpl;
      try apply wrote_within_cleared; try apply wrote_within_Raise;
      try apply wrote_within_same.
    all: fold_vars; simpl in Hh; revert Hh; fold_heights; intros Hh.
    - apply (wrote_within_seq _ _ _
        (λ b0, if bool_decide (length args0 = length args)
               then all_zip matches args0 args b0 else Done (false, b0))).
      + eapply wrote_within_mono; [|apply IH; lia]. set_solver.
      + intros b1. case_bool_decide; [|apply wrote_within_same].
        eapply wrote_within_mono; [|apply all_zip_wrote_within].
        * set_solver.
        * intros n' p' b' Hn. apply IH. apply heights_elem in Hn. lia.
    - case_bool_decide; [|apply wrote_within_same].
      apply (wrote_within_seq _ _ _ (λ b0, matches n3 p3 b0)).
      + eapply wrote_within_mono; [|apply IH; lia]. set_solver.
      + intros b1. eapply wrote_within_mono; [|apply IH; lia]. set_solver.
    - case_bool_decide; [|apply wrote_within_same].
      apply all_zip_wrote_within.
      intros n' p' b' Hn. apply IH. apply heights_elem in Hn. lia.
    - apply all_zip_wrote_within.
      intros n' p' b' Hn. apply IH. apply heights_elem in Hn. lia.
    - apply IH. lia.
    - destruct (negb _); [apply wrote_within_cleared|apply wrote_within_Raise].
    - apply all_zip_wrote_within.
      intros n' p' b' Hn. apply IH. apply heights_elem in Hn. lia. }
  apply (H (S (height n))). lia.
Qed.

(** X9. A match only writes the variables of its pattern: when
    [matches] returns, either the answer is [False] and the bindings
    dict was cleared, or every key that is not a pattern variable of
    the pattern holds what it held before the call. *)
Theorem matches_writes_pattern_vars (node patt : node) (bind bind' : bindings)
    (ok : bool) :
  matches node patt bind = Done (ok, bind') →
  (ok = false ∧ bind' = ∅) ∨
  (∀ k, k ∉ pattern_vars patt → bind' !! k = bind !! k).
Proof. apply matches_wrote_within. Qed.

Lemma matches_writes_pattern_vars_witness :
  (true = false ∧ ({["X" := Num 2; "Y" := Num 7]} : bindings) = ∅) ∨
  (∀ k, k ∉ pattern_vars (patt ex_rule) →
     ({["X" := Num 2; "Y" := Num 7]} : bindings) !! k =
     ({["Y" := Num 7]} : bindings) !! k).
Proof.
  apply (matches_writes_pattern_vars ex_tree (patt ex_rule)
           {["Y" := Num 7]} {["X" := Num 2; "Y" := Num 7]} true).
  vm_compute. reflexivity.
Defined.

End PatternMoreFacts.

Module PattToLambdaFacts.
Import Pattern PattToLambda Examples.

Lemma arg_is_var_not_true a v : arg_is_var a v ≠ Done true.
Proof.
  destruct a; simpl; try discriminate.
  destruct (starts_with_dollar id) as [[]| |]; discriminate.
Qed.

Lemma can_skip_true patt argvars :
  can_skip patt argvars = Done true → argvars = [].
Proof.
  destruct patt as [| | |func args| | | | | | | | | | | |]; try discriminate.
  destruct func; try discriminate. simpl.
  case_bool_decide as Hlen; [|discriminate].
  destruct args as [|a args], argvars as [|v argvars]; try done. simpl.
  pose proof (arg_is_var_not_true a v).
  destruct (arg_is_var a v) as [[]| |]; done.
Qed.

(** X10. The shortcut of [patt_to_lambda] is dead code for any
    non-empty list of variables: the function of the pattern is never
    returned as it is. For the very patterns the shortcut is meant
    for, a call of a name whose first argument is a pattern variable,
    with as many arguments as variables, the call raises
    [AttributeError] (a [str] has no [text]) and no symbol is made. *)
Theorem patt_to_lambda_never_skips (patt : node) (argvars : list string)
    (_SYMCTR : nat) :
  argvars ≠ [] →
  (∀ func _SYMCTR',
     patt_to_lambda patt argvars _SYMCTR ≠ (Done (Func func), _SYMCTR')) ∧
  (∀ fname id rest,
     patt = Call (Name fname) (Name id :: rest) →
     length (Name id :: rest) = length argvars →
     starts_with_dollar id = Done true →
     patt_to_lambda patt argvars _SYMCTR
       = (Raise (AttributeError "text"), _SYMCTR)).
Proof.
  intros Hne. split.
  - intros func ctr'. unfold patt_to_lambda, mbind, M_bind, lift.
    destruct (can_skip patt argvars) as [[]| |] eqn:Hs; try discriminate.
    + by apply can_skip_true in Hs.
    + destruct (make_varmap argvars _SYMCTR) as [[varmap| |] ctr1];
        try discriminate.
      destruct (replace_pattern_vars _ _); discriminate.
  - intros fname id rest -> Hlen Hd.
    unfold patt_to_lambda, mbind, M_bind, lift, can_skip.
    rewrite bool_decide_eq_true_2 by done.
    destruct argvars as [|v argvars]; [done|]. simpl. by rewrite Hd.
Qed.

Lemma patt_to_lambda_never_skips_witness :
  patt_to_lambda (Call (Name "f") [Name "$R"]) ["R"] 0
    = (Raise (AttributeError "text"), 0%nat).
Proof.
  destruct (patt_to_lambda_never_skips (Call (Name "f") [Name "$R"]) ["R"] 0)
    as [_ H]; [discriminate|].
  apply (H "f" "$R" []); reflexivity.
Defined.

(** A pattern that is no such call does get its lambda, over a fresh
    symbol. *)
Example patt_to_lambda_sample :
  patt_to_lambda (BinOp (Name "$R") Add (Num 1)) ["R"] 0
    = (Done (Lambda ["R#001"] (BinOp (Name "R#001") Add (Num 1))), 1%nat).
Proof. vm_compute. reflexivity. Qed.

End PattToLambdaFacts.

Module RegistryMoreFacts.
Import Registry RegistryMore Examples.

Lemma dict_get_dict_set {A} (d : list (string * A)) k v k' :
  dict_get (dict_set d k v) k' =
    if bool_decide (k = k') then Some v else dict_get d k'.
Proof.
  induction d as [|[k0 v0] rest IH]; simpl.
  - done.
  - destruct (bool_decide (k0 = k)) eqn:H0; simpl.
    + apply bool_decide_eq_true in H0 as ->. by case_bool_decide.
    + apply bool_decide_eq_false in H0. rewrite IH.
      repeat case_bool_decide; congruence.
Qed.

Lemma dict_set_twice {A} (d : list (string * A)) k v v' :
  dict_set (dict_set d k v) k v' = dict_set d k v'.
Proof.
  induction d as [|[k0 v0] rest IH]; simpl.
  - by rewrite bool_decide_eq_true_2.
  - destruct (bool_decide (k0 = k)) eqn:H0; simpl; rewrite H0; [done|].
    by rewrite IH.
Qed.

Section Parse.

Variable fn_args : FunctionDef → list node.
Variable argument_preconditions : list node → list node.
Variable astcall : node → list node → node.

#[local] Abbreviation parse_item :=
  (parse_item fn_args argument_preconditions astcall).
#[local] Abbreviation parse_items :=
  (parse_items fn_args argument_preconditions astcall).
#[local] Abbreviation parse_pure :=
  (parse_pure fn_args argument_preconditions astcall).

(** What one step of the loop does to the registry and to the global
    [_fndef_to_moduleinfo]. *)
Lemma parse_item_cases item ret w ret' w' :
  parse_item item ret w = (Done ret', w') →
  module ret' = module ret ∧
  _fndef_to_moduleinfo w' =
    <[oid item := default (module ret)
                    (moduleinfo <$>
                       dict_get (functions ret)
                         (default (fd_name item) (strip_assert (fd_name item))))]>
      (_fndef_to_moduleinfo w) ∧
  match strip_assert (fd_name item) with
  | Some nm =>
      ∃ f, dict_get (functions ret) nm = Some f ∧
        functions ret' =
          dict_set (functions ret) nm
            {| name := name f; moduleinfo := moduleinfo f;
               assertions := assertions f ++ [item];
               definition := definition f;
               definitional_assertion := definitional_assertion f |}
  | None =>
      ∃ f da,
        (dict_get (functions ret) (fd_name item) = Some f ∨
         dict_get (functions ret) (fd_name item) = None ∧
         f = FnInfo_init (fd_name item) (module ret)) ∧
        definition f = None ∧
        functions ret' =
          dict_set (functions ret) (fd_name item)
            {| name := name f; moduleinfo := moduleinfo f;
               assertions := assertions f;
               definition := Some item;
               definitional_assertion := da |}
  end.
Proof.
  unfold Registry.parse_item.
  destruct (strip_assert (fd_name item)) as [nm|] eqn:Hs; simpl.
  - unfold get_fn. destruct (dict_get (functions ret) nm) as [f|] eqn:Hf;
      unfold mbind, M_bind, lift; simpl; [|discriminate].
    intros [= <- <-]. simpl. repeat split. by exists f.
  - unfold fn.
    destruct (dict_get (functions ret) (fd_name item)) as [f|] eqn:Hf;
      unfold mbind, M_bind, Registry.set_definition; simpl.
    + destruct (definition f) eqn:Hd; [discriminate|].
      intros [= <- <-]. simpl. repeat split.
      eexists f, _. repeat split; [by left|done].
    + intros [= <- <-]. simpl. repeat split.
      eexists (FnInfo_init (fd_name item) (module ret)), _.
      repeat split; [by right|].
      simpl. apply dict_set_twice.
Qed.

Lemma parse_item_well_keyed m item ret w ret' w' :
  well_keyed m ret → parse_item item ret w = (Done ret', w') →
  well_keyed m ret' ∧
  _fndef_to_moduleinfo w' = <[oid item := m]> (_fndef_to_moduleinfo w).
Proof.
  intros [Hm Hk] H. apply parse_item_cases in H as (Hm' & Hw & H).
  destruct (strip_assert (fd_name item)) as [nm|] eqn:Hs; simpl in Hw.
  - destruct H as (f & Hf & Hfun). rewrite Hf in Hw. simpl in Hw.
    destruct (Hk _ _ Hf) as [Hn Hmi]. rewrite Hmi in Hw.
    split; [|done]. split; [congruence|].
    intros k f'. rewrite Hfun, dict_get_dict_set. case_bool_decide.
    + intros [= <-]. simpl. by subst.
    + apply Hk.
  - destruct H as (f & da & Hf & Hd & Hfun).
    assert (name f = fd_name item ∧ moduleinfo f = m) as [Hn Hmi].
    { destruct Hf as [Hf|[_ ->]]; [by apply Hk|]. simpl. by rewrite Hm. }
    assert (default (module ret)
              (moduleinfo <$> dict_get (functions ret) (fd_name item)) = m)
      as Hdef.
    { destruct Hf as [Hf|[Hf _]]; rewrite Hf; simpl; [|done].
      by destruct (Hk _ _ Hf). }
    rewrite Hdef in Hw. split; [|done]. split; [congruence|].
    intros k f'. rewrite Hfun, dict_get_dict_set. case_bool_decide.
    + intros [= <-]. simpl. by subst.
    + apply Hk.
Qed.

Lemma parse_item_recorded item ret w ret' w' :
  parse_item item ret w = (Done ret', w') →
  recorded ret' item ∧ ∀ d, recorded ret d → recorded ret' d.
Proof.
  intros H. apply parse_item_cases in H as (_ & _ & H).
  destruct (strip_assert (fd_name item)) as [nm|] eqn:Hs.
  - destruct H as (f & Hf & Hfun). split.
    + unfold recorded. rewrite Hs, Hfun. eexists. split.
      * rewrite dict_get_dict_set. by rewrite bool_decide_eq_true_2.
      * simpl. apply elem_of_app. right. by left.
    + intros d. unfold recorded. rewrite Hfun.
      destruct (strip_assert (fd_name d)) as [nm'|];
        intros (f' & Hf' & Hd); rewrite dict_get_dict_set; case_bool_decide;
        try (by exists f').
      * subst nm'. rewrite Hf in Hf'. injection Hf' as <-.
        eexists. split; [done|]. simpl. apply elem_of_app. by left.
      * rewrite H in Hf. rewrite Hf in Hf'. injection Hf' as <-.
        eexists. split; [done|]. done.
  - destruct H as (f & da & Hf & Hnone & Hfun). split.
    + unfold recorded. rewrite Hs, Hfun. eexists. split.
      * rewrite dict_get_dict_set. by rewrite bool_decide_eq_true_2.
      * done.
    + intros d. unfold recorded. rewrite Hfun.
      destruct (strip_assert (fd_name d)) as [nm'|];
        intros (f' & Hf' & Hd); rewrite dict_get_dict_set; case_bool_decide;
        try (by exists f').
      * subst nm'. eexists. split; [done|]. simpl.
        destruct Hf as [Hf|[Hf _]]; rewrite Hf in Hf'; [|discriminate].
        by injection Hf' as <-.
      * rewrite <- H in Hf'.
        destruct Hf as [Hf|[Hf _]]; rewrite Hf in Hf'; [|discriminate].
        injection Hf' as <-. congruence.
Qed.

Lemma parse_items_records m items ret w ret' w' :
  well_keyed m ret → parse_items items ret w = (Done ret', w') →
  well_keyed m ret' ∧
  (∀ d, recorded ret d → recorded ret' d) ∧
  (∀ k, _fndef_to_moduleinfo w !! k = Some m →
        _fndef_to_moduleinfo w' !! k = Some m) ∧
  ∀ item, item ∈ items →
    recorded ret' item ∧ _fndef_to_moduleinfo w' !! oid item = Some m.
Proof.
  revert ret w. induction items as [|item rest IH]; intros ret w Hwk H.
  - injection H as <- <-. split; [done|]. split; [done|]. split; [done|].
    intros item Hin. by apply elem_of_nil in Hin.
  - simpl in H. unfold mbind, M_bind in H.
    destruct (parse_item item ret w) as [[ret1| |] w1] eqn:H1; try discriminate.
    destruct (parse_item_well_keyed m _ _ _ _ _ Hwk H1) as [Hwk1 Hw1].
    destruct (parse_item_recorded _ _ _ _ _ H1) as [Hrec1 Hkeep1].
    destruct (IH _ _ Hwk1 H) as (Hwk' & Hkeep & Hworld & Hitems).
    assert (∀ k, _fndef_to_moduleinfo w !! k = Some m →
                 _fndef_to_moduleinfo w1 !! k = Some m) as Hworld1.
    { intros k Hk. rewrite Hw1. destruct (decide (k = oid item)) as [->|].
      - by rewrite lookup_insert_eq.
      - by rewrite lookup_insert_ne. }
    split; [done|]. split; [by auto|]. split; [by auto|].
    intros item' Hin. apply elem_of_cons in Hin as [->|Hin]; [|by apply Hitems].
    split; [by apply Hkeep|].
    apply Hworld. rewrite Hw1. by rewrite lookup_insert_eq.
Qed.

Lemma ModuleInfo_init_well_keyed m : well_keyed m (ModuleInfo_init m).
Proof.
  split; [done|]. intros k f. simpl. case_bool_decide; [|done].
  intros [= <-]. by subst.
Qed.

Lemma parse_items_app pre post ret w :
  parse_items (pre ++ post) ret w =
    match parse_items pre ret w with
    | (Done ret1, w1) => parse_items post ret1 w1
    | (Raise e, w1) => (Raise e, w1)
    | (OutOfFuel, w1) => (OutOfFuel, w1)
    end.
Proof.
  revert ret w. induction pre as [|item pre IH]; intros ret w; [done|].
  simpl. unfold mbind, M_bind.
  destruct (parse_item item ret w) as [[ret1| |] w1]; [apply IH|done..].
Qed.

(** The keys of the registry are the empty name and the names of the
    definitions met so far. *)
Lemma parse_items_keys items ret w ret' w' k :
  parse_items items ret w = (Done ret', w') →
  is_Some (dict_get (functions ret') k) →
  is_Some (dict_get (functions ret) k) ∨ k ∈ defined_names items.
Proof.
  revert ret w. induction items as [|item rest IH]; intros ret w H Hk.
  - injection H as <- <-. by left.
  - simpl in H. unfold mbind, M_bind in H.
    destruct (parse_item item ret w) as [[ret1| |] w1] eqn:H1; try discriminate.
    destruct (IH _ _ H Hk) as [Hk1|Hin].
    + apply parse_item_cases in H1 as (_ & _ & H1). unfold defined_names.
      destruct (strip_assert (fd_name item)) as [nm|] eqn:Hs.
      * destruct H1 as (f & Hf & Hfun). left.
        rewrite Hfun, dict_get_dict_set in Hk1.
        case_bool_decide; [subst; by eexists|done].
      * destruct H1 as (f & da & Hf & Hnone & Hfun).
        rewrite Hfun, dict_get_dict_set in Hk1.
        case_bool_decide; [|by left]. right. subst k.
        rewrite filter_cons_True by done. by left.
    + right. unfold defined_names in *.
      destruct (decide (strip_assert (fd_name item) = None)).
      * rewrite filter_cons_True by done. by right.
      * by rewrite filter_cons_False.
Qed.

(** A name that has a definition keeps it, and the name of a
    definition that is accepted had none. *)
Lemma parse_item_defined item ret w ret' w' :
  parse_item item ret w = (Done ret', w') →
  (∀ k f, dict_get (functions ret) k = Some f → is_Some (definition f) →
     ∃ f', dict_get (functions ret') k = Some f' ∧ is_Some (definition f')) ∧
  (strip_assert (fd_name item) = None →
     (∃ f', dict_get (functions ret') (fd_name item) = Some f' ∧
            is_Some (definition f')) ∧
     ∀ f, dict_get (functions ret) (fd_name item) = Some f →
          definition f = None).
Proof.
  intros H. apply parse_item_cases in H as (_ & _ & H).
  destruct (strip_assert (fd_name item)) as [nm|] eqn:Hs.
  - destruct H as (f & Hf & Hfun). split; [|done].
    intros k f0 Hk Hd. rewrite Hfun, dict_get_dict_set. case_bool_decide.
    + subst k. rewrite Hf in Hk. injection Hk as <-. by eexists.
    + by exists f0.
  - destruct H as (f & da & Hf & Hnone & Hfun). split.
    + intros k f0 Hk Hd. rewrite Hfun, dict_get_dict_set. case_bool_decide.
      * by eexists.
      * by exists f0.
    + intros _. split.
      * rewrite Hfun, dict_get_dict_set, bool_decide_eq_true_2 by done.
        by eexists.
      * intros f0 Hf0. destruct Hf as [Hf|[Hf _]]; congruence.
Qed.

Lemma parse_items_defined_once items ret w ret' w' :
  parse_items items ret w = (Done ret', w') →
  NoDup (defined_names items) ∧
  ∀ k f, dict_get (functions ret) k = Some f → is_Some (definition f) →
         k ∉ defined_names items.
Proof.
  revert ret w. induction items as [|item rest IH]; intros ret w H.
  - split; [constructor|]. intros k f _ _ Hin. by apply elem_of_nil in Hin.
  - simpl in H. unfold mbind, M_bind in H.
    destruct (parse_item item ret w) as [[ret1| |] w1] eqn:H1; try discriminate.
    destruct (IH _ _ H) as [Hnodup Hfresh].
    destruct (parse_item_defined _ _ _ _ _ H1) as [Hkeep Hnew].
    unfold defined_names in *.
    destruct (decide (strip_assert (fd_name item) = None)) as [Hs|Hs].
    + rewrite filter_cons_True by done. simpl.
      destruct (Hnew Hs) as [(f' & Hf' & Hd') Hnone].
      split.
      * constructor; [|done]. by eapply Hfresh.
      * intros k f Hk Hd Hin. apply elem_of_cons in Hin as [->|Hin].
        -- rewrite (Hnone _ Hk) in Hd. by destruct Hd.
        -- destruct (Hkeep _ _ Hk Hd) as (f1 & Hf1 & Hd1).
           by eapply Hfresh.
    + rewrite filter_cons_False by done. split; [done|].
      intros k f Hk Hd. destruct (Hkeep _ _ Hk Hd) as (f1 & Hf1 & Hd1).
      by eapply Hfresh.
Qed.

End Parse.

(** X11. When [parse_pure] returns, every function of the module body
    is on record: a definition under its own name, an [_assert_<name>]
    function among the assertions of [<name>]; every entry is filed
    under its own name and belongs to the module; and the global
    [_fndef_to_moduleinfo] maps every one of the functions to the
    module. *)
Theorem parse_pure_records fn_args argument_preconditions astcall
    (m : string) (items : list FunctionDef) (w w' : World) (ret : ModuleInfo) :
  parse_pure fn_args argument_preconditions astcall m items w = (Done ret, w') →
  well_keyed m ret ∧
  ∀ item, item ∈ items →
    recorded ret item ∧ _fndef_to_moduleinfo w' !! oid item = Some m.
Proof.
  intros H.
  destruct (parse_items_records fn_args argument_preconditions astcall
              m items _ _ _ _ (ModuleInfo_init_well_keyed m) H)
    as (Hwk & _ & _ & Hitems).
  by split.
Qed.

Lemma parse_pure_records_witness :
  ∃ ret w',
    parse_pure ex_fn_args ex_argument_preconditions ex_astcall "crosshair"
      [ex_def 1 "f"; ex_def 11 "_assert_f"]
      {| next_oid := 100; _fndef_to_moduleinfo := ∅ |} = (Done ret, w') ∧
    well_keyed "crosshair" ret ∧
    ∀ item, item ∈ [ex_def 1 "f"; ex_def 11 "_assert_f"] →
      recorded ret item ∧
      _fndef_to_moduleinfo w' !! oid item = Some "crosshair".
Proof.
  eexists _, _. split; [vm_compute; reflexivity|].
  apply (parse_pure_records ex_fn_args ex_argument_preconditions ex_astcall
           "crosshair" [ex_def 1 "f"; ex_def 11 "_assert_f"]
           {| next_oid := 100; _fndef_to_moduleinfo := ∅ |}).
  vm_compute. reflexivity.
Defined.

(** X12. An assertion function that comes before the definition it is
    about, or has none, stops [parse_pure]: when the functions before
    [_assert_<name>] are accepted and none of them defines [<name>],
    the call raises [KeyError] for that name. Only the empty name,
    that of the global assertions, needs no definition. *)
Theorem parse_pure_assertion_needs_definition
    fn_args argument_preconditions astcall (m : string)
    (pre post : list FunctionDef) (a : FunctionDef) (nm : string)
    (w w1 : World) (ret1 : ModuleInfo) :
  strip_assert (fd_name a) = Some nm →
  nm ≠ EmptyString →
  nm ∉ defined_names pre →
  parse_pure fn_args argument_preconditions astcall m pre w = (Done ret1, w1) →
  parse_pure fn_args argument_preconditions astcall m (pre ++ a :: post) w
    = (Raise (KeyError nm), w1).
Proof.
  intros Hs Hne Hnot Hpre. unfold parse_pure in *.
  rewrite parse_items_app, Hpre. simpl. unfold mbind, M_bind.
  unfold Registry.parse_item. rewrite Hs. unfold get_fn. simpl.
  destruct (dict_get (functions ret1) nm) as [f|] eqn:Hf; [|done].
  destruct (parse_items_keys _ _ _ _ _ _ _ _ nm Hpre) as [Hk|Hk];
    [by eexists| |done].
  simpl in Hk. rewrite bool_decide_eq_false_2 in Hk by done.
  by destruct Hk.
Qed.

Lemma parse_pure_assertion_needs_definition_witness :
  parse_pure ex_fn_args ex_argument_preconditions ex_astcall "crosshair"
    ([ex_def 2 "g"] ++ ex_def 11 "_assert_f" :: [ex_def 1 "f"])
    {| next_oid := 100; _fndef_to_moduleinfo := ∅ |}
  = (Raise (KeyError "f"),
     {| next_oid := 101;
        _fndef_to_moduleinfo := {[2%positive := "crosshair"]} |}).
Proof.
  eapply (parse_pure_assertion_needs_definition
            ex_fn_args ex_argument_preconditions ex_astcall "crosshair"
            [ex_def 2 "g"] [ex_def 1 "f"] (ex_def 11 "_assert_f") "f").
  - reflexivity.
  - discriminate.
  - vm_compute. intros H. apply elem_of_cons in H as [H|H]; [discriminate H|].
    by apply elem_of_nil in H.
  - vm_compute. reflexivity.
Defined.

(** X13. [parse_pure] accepts at most one definition per name: when it
    returns, no two definitions of the module body share a name
    (a second one raises "multiply defined function"). *)
Theorem parse_pure_definitions_unique
    fn_args argument_preconditions astcall (m : string)
    (items : list FunctionDef) (w w' : World) (ret : ModuleInfo) :
  parse_pure fn_args argument_preconditions astcall m items w = (Done ret, w') →
  NoDup (defined_names items).
Proof.
  intros H.
  by destruct (parse_items_defined_once fn_args argument_preconditions astcall
                 items _ _ _ _ H).
Qed.

Lemma parse_pure_definitions_unique_witness :
  NoDup (defined_names [ex_def 1 "f"; ex_def 11 "_assert_f"; ex_def 2 "g"]).
Proof.
  apply (parse_pure_definitions_unique
           ex_fn_args ex_argument_preconditions ex_astcall "crosshair"
           [ex_def 1 "f"; ex_def 11 "_assert_f"; ex_def 2 "g"]
           {| next_oid := 100; _fndef_to_moduleinfo := ∅ |}
           {| next_oid := 102;
              _fndef_to_moduleinfo :=
                {[1%positive := "crosshair"; 11%positive := "crosshair";
                  2%positive := "crosshair"]} |}
           {| module := "crosshair";
              functions :=
                [("", FnInfo_init "" "crosshair");
                 ("f", {| name := "f"; moduleinfo := "crosshair";
                          assertions := [ex_def 11 "_assert_f"];
                          definition := Some (ex_def 1 "f");
                          definitional_assertion := None |});
                 ("g", {| name := "g"; moduleinfo := "crosshair";
                          assertions := [];
                          definition := Some (ex_def 2 "g");
                          definitional_assertion := None |})] |}).
  vm_compute. reflexivity.
Defined.

End RegistryMoreFacts.

Module CompilerMoreFacts.
Import Registry Compiler CompilerMore Examples.

(** **** Argument tuples *)

Lemma reduce_merge_plain (es : list z3expr) (acc : z3expr) :
  reduce _merge_arg (ZE <$> es) (ZE acc) = Done (ZE (foldl Unk_a acc es)).
Proof.
  revert acc. induction es as [|e es IH]; intros acc; [done|].
  simpl. apply IH.
Qed.

Lemma reduce_app {A B} (f : A → B → res A) xs ys (a : A) :
  reduce f (xs ++ ys) a = (reduce f xs a ≫= reduce f ys).
Proof.
  revert a. induction xs as [|x xs IH]; intros a; simpl; [done|].
  destruct (f a x); simpl; [apply IH|done..].
Qed.

Lemma tuple_of_snoc es e : tuple_of (es ++ [e]) = Unk_a (tuple_of es) e.
Proof. unfold tuple_of. by rewrite foldl_app. Qed.

Lemma tuple_of_inj : Inj (=) (=) tuple_of.
Proof.
  intros es. induction es as [|e es IH] using rev_ind;
    intros es'; destruct es' as [|e' es' _] using rev_ind;
    rewrite ?tuple_of_snoc; try done.
  intros [= H ->]. by rewrite (IH _ H).
Qed.

(** X14. A function of the registry applied to plain arguments gets
    them as one tuple, [a(... a(_, e1) ..., en)], and different argument
    lists give different tuples. A starred argument that comes last is
    appended with [Concat], except when it is the only argument, where
    it is the argument tuple. *)
Theorem z3apply_argument_tuple apply_intrinsic
    (f s : z3expr) (es es' : list z3expr) :
  z3apply apply_intrinsic (ZE f) (ZE <$> es)
    = Done (ZE (App f (tuple_of es))) ∧
  (tuple_of es = tuple_of es' → es = es') ∧
  z3apply apply_intrinsic (ZE f) ((ZE <$> es) ++ [ZStarred (ZE s)])
    = Done (ZE (App f (match es with
                       | [] => s
                       | _ => Concat (tuple_of es) s
                       end))).
Proof.
  split; [|split].
  - unfold z3apply. by rewrite reduce_merge_plain.
  - apply tuple_of_inj.
  - unfold z3apply. rewrite reduce_app, reduce_merge_plain. simpl.
    fold (tuple_of es).
    destruct es as [|e es _] using rev_ind; [done|].
    rewrite tuple_of_snoc. simpl. by destruct es.
Qed.

(** **** References *)

Lemma register_cases (d : referent) env r env' :
  register d env = (r, env') →
  env' = env ∨
  ∃ key nm, refs env !! key = None ∧ r = Done (ZE (Const nm)) ∧
    env' = {| refs := <[key := Const nm]> (refs env); support := support env |}.
Proof.
  destruct d as [id|key a|fd|zname|]; simpl.
  - intros [= <- <-]. by left.
  - destruct (refs env !! key) eqn:Hk; intros [= <- <-]; [by left|].
    right. by eexists _, _.
  - destruct (refs env !! oid fd) eqn:Hk; intros [= <- <-]; [by left|].
    right. by eexists _, _.
  - intros [= <- <-]. by left.
  - intros [= <- <-]. by left.
Qed.

Lemma keeps_refs_register d : keeps_refs (register d).
Proof.
  intros env r env' H. apply register_cases in H as [->|(k & nm & Hk & _ & ->)].
  - done.
  - simpl. by apply insert_subseteq.
Qed.

(** X15. [register] memoises: a definition that is registered keeps
    its constant, so registering it again returns the same value and
    changes nothing; a call adds at most the one reference, leaves the
    others as they are and never touches [support]. *)
Theorem register_memoises (d : referent) (env env' : Z3BindingEnv)
    (v : z3val) :
  register d env = (Done v, env') →
  register d env' = (Done v, env') ∧
  refs env ⊆ refs env' ∧
  support env' = support env.
Proof.
  intros H. split; [|split].
  - destruct d as [id|key a|fd|zname|]; simpl in *;
      [discriminate| | |by injection H as <- <-..].
    + destruct (refs env !! key) eqn:Hk; injection H as <- <-.
      * by rewrite Hk.
      * simpl. by rewrite lookup_insert_eq.
    + destruct (refs env !! oid fd) eqn:Hk; injection H as <- <-.
      * by rewrite Hk.
      * simpl. by rewrite lookup_insert_eq.
  - by eapply keeps_refs_register.
  - apply register_cases in H as [->|(k & nm & _ & _ & ->)]; done.
Qed.

Lemma register_memoises_witness :
  register (DFunctionDef (ex_def 4 "_op_Add"))
    {| refs := {[4%positive := Const "_op_Add"]}; support := [] |}
  = (Done (ZE (Const "_op_Add")),
     {| refs := {[4%positive := Const "_op_Add"]}; support := [] |}) ∧
  refs Z3BindingEnv_new ⊆
    refs {| refs := {[4%positive := Const "_op_Add"]}; support := [] |} ∧
  support {| refs := {[4%positive := Const "_op_Add"]}; support := [] |}
    = support Z3BindingEnv_new.
Proof.
  apply (register_memoises (DFunctionDef (ex_def 4 "_op_Add"))
           Z3BindingEnv_new
           {| refs := {[4%positive := Const "_op_Add"]}; support := [] |}
           (ZE (Const "_op_Add"))).
  vm_compute. reflexivity.
Defined.

Lemma reduce_left_nested apply_intrinsic (f e : z3expr) (es : list z3expr) :
  reduce (λ a b, z3apply apply_intrinsic (ZE f) [a; b]) (ZE <$> es) (ZE e)
    = Done (ZE (left_nested f e es)).
Proof.
  revert e. induction es as [|e' es IH]; intros e; [done|].
  simpl. apply IH.
Qed.

(** X17. A boolean operation is compiled to applications of the
    function of its operator nested to the left, [op(op(e1, e2), e3)],
    from operands compiled left to right after the operator is
    registered; without operands it raises [TypeError]. *)
Theorem visit_BoolOp_left_nested _pure_defs apply_intrinsic visit_rest
    (fuel : nat) (op : node) (values : list node)
    (env env1 env2 : Z3BindingEnv) (f e : z3expr) (es : list z3expr) :
  register_op _pure_defs op env = (Done (ZE f), env1) →
  mapM (visit _pure_defs apply_intrinsic visit_rest fuel) values env1
    = (Done (ZE <$> e :: es), env2) →
  visit _pure_defs apply_intrinsic visit_rest (S fuel) (BoolOp op values) env
    = (Done (ZE (left_nested f e es)), env2) ∧
  visit _pure_defs apply_intrinsic visit_rest (S fuel) (BoolOp op []) env
    = (Raise (TypeError "reduce() of empty sequence with no initial value"),
       env1).
Proof.
  intros Hop Hargs. split.
  - simpl. unfold mbind at 1, M_bind at 1. rewrite Hop.
    unfold mbind at 1, M_bind at 1. rewrite Hargs.
    unfold lift, reduce1. simpl fmap. cbv iota beta.
    by rewrite reduce_left_nested.
  - simpl. unfold mbind at 1, M_bind at 1. by rewrite Hop.
Qed.

Lemma visit_BoolOp_left_nested_witness :
  visit ex_pure_defs ex_apply_intrinsic ex_visit_rest 2
    (BoolOp And [NameConstant (Some true); NameConstant (Some false); Num 1])
    Z3BindingEnv_new
  = (Done (ZE (left_nested (Const "_op_And") (Unk_bool true)
                 [Unk_bool false; Unk_int 1])),
     {| refs := {[1%positive := Const "_op_And"]}; support := [] |}).
Proof.
  apply (visit_BoolOp_left_nested ex_pure_defs ex_apply_intrinsic ex_visit_rest
           1 And [NameConstant (Some true); NameConstant (Some false); Num 1]
           Z3BindingEnv_new
           {| refs := {[1%positive := Const "_op_And"]}; support := [] |}
           {| refs := {[1%positive := Const "_op_And"]}; support := [] |}
           (Const "_op_And") (Unk_bool true) [Unk_bool false; Unk_int 1]).
  - vm_compute. reflexivity.
  - vm_compute. reflexivity.
Defined.

End CompilerMoreFacts.

Module SolverMoreFacts.
Import Registry Compiler Solver SolverMore Examples ExamplesMore.

(** **** Ties in the sort *)

Section Stable.

Variable Score : Type.
Variable lt : Score → Score → bool.

#[local] Abbreviation Z3Statement := (Z3Statement Score).
#[local] Abbreviation key_lt := (key_lt Score lt).
#[local] Abbreviation insert_sorted := (insert_sorted Score lt).
#[local] Abbreviation sort := (sort Score lt).
#[local] Abbreviation select := (select Score lt).
#[local] Abbreviation is_required := (is_required Score).
#[local] Abbreviation tied := (tied Score lt).

Hypothesis ge_trans :
  ∀ x y z, lt y x = false → lt z y = false → lt z x = false.

Lemma tied_not_lt (s : Score) (a b : Z3Statement) :
  tied s a → tied s b → key_lt b a = false.
Proof.
  unfold SolverMore.tied, Solver.key_lt.
  destruct (score Score a) as [x|]; [|done].
  destruct (score Score b) as [y|]; [|done].
  intros [Hsx _] [_ Hys]. by apply (ge_trans x s y).
Qed.

Lemma insert_sorted_tied c a l :
  filter (tied c) (insert_sorted a l) = filter (tied c) (a :: l).
Proof.
  induction l as [|b l IH]; [done|]. simpl.
  destruct (key_lt b a) eqn:Hba; [|done].
  rewrite (filter_cons _ b), IH, !(filter_cons _ a), (filter_cons _ b).
  destruct (decide (tied c a)) as [Ha|]; [|done].
  destruct (decide (tied c b)) as [Hb|]; [|done].
  by rewrite (tied_not_lt c a b) in Hba.
Qed.

Lemma sort_tied c l : filter (tied c) (sort l) = filter (tied c) l.
Proof.
  induction l as [|a l IH]; [done|].
  unfold Solver.sort in *. simpl.
  by rewrite insert_sorted_tied, !(filter_cons _ a), IH.
Qed.

Lemma filter_take_prefix {A} (P : A → Prop) `{!∀ x, Decision (P x)} n (l : list A) :
  filter P (take n l) `prefix_of` filter P l.
Proof.
  exists (filter P (drop n l)). by rewrite <- filter_app, take_drop.
Qed.

Lemma select_tied c assumptions :
  filter (tied c) (select assumptions) `prefix_of` filter (tied c) assumptions.
Proof.
  unfold Solver.select. rewrite filter_app.
  rewrite (SolverFacts.filter_none (tied c)
             (filter (λ a, is_required a = true) assumptions)).
  - simpl. etrans; [apply filter_take_prefix|]. rewrite sort_tied.
    rewrite list_filter_filter. 
    assert (filter (λ x, tied c x ∧ is_required x = false) assumptions
            = filter (tied c) assumptions) as ->; [|done].
    apply list_filter_iff. intros x.
    unfold SolverMore.tied, Solver.is_required.
    destruct (score Score x); tauto.
  - apply Forall_forall. intros a Ha.
    apply list_elem_of_filter in Ha as [Hr _].
    unfold SolverMore.tied, Solver.is_required in *.
    destruct (score Score a); [discriminate Hr|tauto].
Qed.

End Stable.

(** X18. The sort by score is stable, so the cut at 120 never lets a
    statement overtake one of equal score: among the scored statements
    that tie with a given one, those [solve] goes on with are the
    first ones, in the order they were given. *)
Theorem select_keeps_order_of_ties Score (lt : Score → Score → bool)
    (c : Score) (assumptions : list (Z3Statement Score)) :
  (∀ x y z, lt y x = false → lt z y = false → lt z x = false) →
  filter (tied Score lt c) (select Score lt assumptions)
    `prefix_of` filter (tied Score lt c) assumptions.
Proof. intros H. by apply select_tied. Qed.

Lemma select_keeps_order_of_ties_witness :
  filter (tied Z Z.ltb 5%Z) (select Z Z.ltb ex_assumptions)
    `prefix_of` filter (tied Z Z.ltb 5%Z) ex_assumptions.
Proof.
  apply (select_keeps_order_of_ties Z Z.ltb 5%Z ex_assumptions).
  intros x y z. rewrite !Z.ltb_ge. lia.
Defined.

(** **** Labels *)

Lemma label_inj : Inj (=) (=) label.
Proof.
  intros i j H. unfold label in H. simpl in H.
  injection H as H. by apply (inj pretty).
Qed.

Lemma dict_get_labels {A} (l : list A) (k i : nat) :
  dict_get (imap (λ j a, (label (k + j), a)) l) (label (k + i)) = l !! i.
Proof.
  revert k i. induction l as [|x l IH]; intros k i; [done|].
  simpl. destruct i as [|i].
  - by rewrite bool_decide_eq_true_2.
  - rewrite bool_decide_eq_false_2
      by (intros H; apply label_inj in H; lia).
    simpl. rewrite <- (IH (S k) i).
    replace (k + S i)%nat with (S k + i)%nat by lia.
    f_equal. apply imap_ext. intros j a _. simpl. do 2 f_equal. lia.
Qed.

(** X19. In tracked mode every statement is found in [stmt_index]
    under its own label: the labels of different positions differ,
    none of them is ['conclusion'], and a position past the end has
    no entry. *)
Theorem stmt_index_label_lookup Score
    (assumptions : list (Z3Statement Score)) (idx idx' : nat) :
  dict_get (make_stmt_index Score false assumptions) (label idx)
    = assumptions !! idx ∧
  label idx ≠ "conclusion" ∧
  (label idx = label idx' → idx = idx').
Proof.
  split; [|split].
  - apply (dict_get_labels assumptions 0 idx).
  - discriminate.
  - apply label_inj.
Qed.

(** X20. What a verdict of [solve] tells about the solver: [True] is
    returned only for [unsat], in tracked mode only with
    ['conclusion'] in the core; [False] only for [sat]; [None] only
    for [unknown] or a canceled check. In repro mode the report is
    empty. *)
Theorem solve_verdict_origin Score lt check (make_repro_case : bool)
    (assumptions : list (Z3Statement Score)) (conclusion : z3expr)
    (ret : option bool) (report : list (FunctionDef * bool)) :
  solve Score lt check make_repro_case assumptions conclusion
    = Done (ret, report) →
  match ret with
  | Some true =>
      ∃ core,
        check (asserted Score make_repro_case (select Score lt assumptions)
                 conclusion) = unsat core ∧
        (make_repro_case = false → "conclusion" ∈ core)
  | Some false =>
      check (asserted Score make_repro_case (select Score lt assumptions)
               conclusion) = sat
  | None =>
      check (asserted Score make_repro_case (select Score lt assumptions)
               conclusion) = unknown ∨
      check (asserted Score make_repro_case (select Score lt assumptions)
               conclusion) = check_raises "canceled"
  end ∧
  (make_repro_case = true → report = []).
Proof.
  unfold solve. cbv zeta.
  destruct (check _) as [core| | |value] eqn:Hc.
  - destruct make_repro_case; simpl.
    + intros [= <- <-]. split; [|done]. exists core. by split.
    + destruct (print_core _ _ _); simpl; try discriminate.
      case_bool_decide as Hin; simpl; [|discriminate].
      intros [= <- <-]. split; [|done]. by exists core.
  - simpl. intros [= <- <-]. split; [done|].
    by intros ->.
  - simpl. intros [= <- <-]. split; [by left|]. by intros ->.
  - case_bool_decide as Hv; simpl; [|discriminate].
    intros [= <- <-]. subst value. split; [by right|]. by intros ->.
Qed.

Lemma solve_verdict_origin_witness :
  ex_check_sat (asserted Z false (select Z Z.ltb ex_assumptions) (Const "c"))
    = sat ∧
  (false = true → @nil (FunctionDef * bool) = []).
Proof.
  apply (solve_verdict_origin Z Z.ltb ex_check_sat false ex_assumptions
           (Const "c") (Some false) []).
  vm_compute. reflexivity.
Defined.

(** **** Weights and the final verdict *)

Lemma find_weight_in_skip (pre rest : list node) :
  (∀ dec, dec ∈ pre → calls_name dec ≠ Some "ch_weight") →
  find_weight_in (pre ++ rest) = find_weight_in rest.
Proof.
  induction pre as [|d pre IH]; intros H; [done|]. simpl.
  rewrite bool_decide_eq_false_2 by (apply H; by left).
  apply IH. intros dec Hin. apply H. by right.
Qed.

(** X21. The weight of an assertion is the number given to its first
    [ch_weight] decorator, whatever decorators follow it, and 1 when
    it has none; a first [ch_weight()] without arguments raises
    [IndexError]. *)
Theorem find_weight_first_decorator (fn : FunctionDef)
    (pre post args : list node) (n : Z) :
  (∀ dec, dec ∈ pre → calls_name dec ≠ Some "ch_weight") →
  (decorator_list fn = pre → find_weight fn = Done 1%Z) ∧
  (decorator_list fn
     = pre ++ Call (Name "ch_weight") (Num n :: args) :: post →
   find_weight fn = Done n) ∧
  (decorator_list fn = pre ++ Call (Name "ch_weight") [] :: post →
   find_weight fn = Raise IndexError).
Proof.
  intros Hpre. unfold find_weight. repeat split; intros ->.
  - rewrite <- (app_nil_r pre). by rewrite find_weight_in_skip.
  - by rewrite find_weight_in_skip.
  - by rewrite find_weight_in_skip.
Qed.

Lemma find_weight_first_decorator_witness :
  find_weight
    {| oid := 1; fd_name := "_assert_f"; fd_args := []; fd_body := [];
       decorator_list :=
         [Call (Name "ch_pattern") []] ++
         Call (Name "ch_weight") (Num 7 :: []) ::
         [Call (Name "ch_weight") [Num 9]];
       returns := None |}
  = Done 7%Z.
Proof.
  apply (find_weight_first_decorator _ [Call (Name "ch_pattern") []]
           [Call (Name "ch_weight") [Num 9]] [] 7).
  - intros dec Hin. apply list_elem_of_singleton in Hin as ->. discriminate.
  - reflexivity.
Defined.

(** X22. [check_assertion_fn] reports a proof only when no
    counterexample was found and the solver answered [unsat], in
    tracked mode with ['conclusion'] in the core: with a
    counterexample at hand a proof raises "Counterexample conflicts
    with proof" and anything else becomes [False], so [True] is never
    returned. *)
Theorem check_assertion_fn_proof_origin Counterexample Score lt check
    (make_repro_case : bool) (counterexample : option Counterexample)
    (assumptions : list (Z3Statement Score)) (conclusion : z3expr)
    (report : list (FunctionDef * bool)) :
  check_assertion_fn Counterexample counterexample
    (solve Score lt check make_repro_case assumptions conclusion)
    = Done (Some true, report) →
  counterexample = None ∧
  ∃ core,
    check (asserted Score make_repro_case (select Score lt assumptions)
             conclusion) = unsat core ∧
    (make_repro_case = false → "conclusion" ∈ core).
Proof.
  unfold check_assertion_fn.
  destruct (solve _ _ _ _ _ _) as [[ret rep]| |] eqn:Hs; simpl;
    try discriminate.
  destruct counterexample as [c|].
  - case_bool_decide; discriminate.
  - intros [= -> ->]. split; [done|].
    revert Hs. unfold solve. cbv zeta.
    destruct (check _) as [core| | |value]; simpl.
    + intros Hs. exists core. split; [done|]. intros ->. simpl in Hs.
      destruct (print_core _ _ _); simpl in Hs; try discriminate.
      by case_bool_decide.
    + discriminate.
    + discriminate.
    + case_bool_decide; discriminate.
Qed.

Lemma check_assertion_fn_proof_origin_witness :
  @None nat = None ∧
  ∃ core,
    ex_check_unsat (asserted Z false (select Z Z.ltb ex_assumptions) (Const "c"))
      = unsat core ∧
    (false = false → "conclusion" ∈ core).
Proof.
  apply (check_assertion_fn_proof_origin nat Z Z.ltb ex_check_unsat false
           None ex_assumptions (Const "c") []).
  vm_compute. reflexivity.
Defined.

End SolverMoreFacts.

Module ExpansionMoreFacts.
Import Registry Compiler Solver Expansion ExpansionMore Examples.

Section Loop.

Variable Score : Type.
Variable _pure_defs : ModuleInfo.
Variable make_statement_fn :
  FunctionDef → M Z3BindingEnv (option (Z3Statement Score)).

#[local] Abbreviation state := (state Score).
#[local] Abbreviation extends := (extends Score _pure_defs).
#[local] Abbreviation expand_fn := (expand_fn Score make_statement_fn).
#[local] Abbreviation expand_fns := (expand_fns Score make_statement_fn).
#[local] Abbreviation round := (round Score _pure_defs make_statement_fn).
#[local] Abbreviation expansion_loop :=
  (expansion_loop Score _pure_defs make_statement_fn).

#[local] Abbreviation forward := (forward Score _pure_defs).

Lemma extends_refl (st : state) : extends st st.
Proof. split; [done|]. split; [done|]. intros k Hk. by left. Qed.

Lemma extends_trans (st1 st2 st3 : state) :
  extends st1 st2 → extends st2 st3 → extends st1 st3.
Proof.
  intros (Hb1 & Hh1 & Hr1) (Hb2 & Hh2 & Hr2). split; [by etrans|].
  split; [by etrans|]. intros k Hk.
  destruct (Hr2 k Hk) as [Hk2|?]; [|by right]. by apply Hr1.
Qed.

Lemma forward_bind {A B} (m : M state A) (k : A → M state B) :
  forward m → (∀ a, forward (k a)) → forward (m ≫= k).
Proof.
  intros Hm Hk st r st'. unfold mbind, M_bind.
  destruct (m st) as [[a| |] st1] eqn:H1.
  - intros H2. eapply extends_trans; [by eapply Hm|by eapply Hk].
  - intros [= <- <-]. by eapply Hm.
  - intros [= <- <-]. by eapply Hm.
Qed.

Lemma forward_mret {A} (a : A) : forward (mret a).
Proof. intros st r st' [= <- <-]. apply extends_refl. Qed.

Lemma forward_append_statement_fn f :
  forward (append_statement_fn Score make_statement_fn f).
Proof.
  intros st r st'. unfold append_statement_fn.
  destruct (make_statement_fn f (env Score st)) as [[s| |] env'];
    intros [= <- <-]; (split; [|split]); simpl; try done;
    try (by intros k Hk; left).
  by apply prefix_app_r.
Qed.

Lemma forward_append_is_func fn_def :
  forward (append_is_func Score fn_def).
Proof.
  intros st r st'. unfold append_is_func.
  destruct (refs (env Score st) !! oid fn_def);
    intros [= <- <-]; [|apply extends_refl].
  split; [|split]; simpl; try done; [by apply prefix_app_r|].
  intros k Hk. by left.
Qed.

Lemma forward_for_each {A} (f : A → M state unit) xs :
  (∀ x, forward (f x)) → forward (for_each Score f xs).
Proof.
  intros Hf. induction xs as [|x xs IH]; [apply forward_mret|].
  simpl. apply forward_bind; [done|]. by intros _.
Qed.

Lemma forward_expand_fn borderset name fninfo :
  (name, fninfo) ∈ functions _pure_defs →
  forward (expand_fn borderset fninfo).
Proof.
  intros Hin. unfold Expansion.expand_fn.
  destruct (get_definition fninfo) as [fn_def|] eqn:Hd; [|apply forward_mret].
  case_bool_decide; [|apply forward_mret].
  apply forward_bind.
  { intros st r st' [= <- <-]. split; [|split]; simpl; [done|set_solver|].
    intros k Hk. apply elem_of_union in Hk as [Hk|Hk]; [|by left].
    right. apply elem_of_singleton in Hk as ->. by exists name, fninfo, fn_def. }
  intros _. apply forward_bind.
  { apply forward_for_each. apply forward_append_statement_fn. }
  intros _. apply forward_bind; [apply forward_append_is_func|].
  intros _. apply forward_bind; [|intros _; apply forward_mret].
  destruct (definitional_assertion fninfo);
    [apply forward_append_statement_fn|apply forward_mret].
Qed.

Lemma forward_expand_fns borderset fns addedone :
  fns ⊆ functions _pure_defs →
  forward (expand_fns borderset fns addedone).
Proof.
  revert addedone. induction fns as [|[name fninfo] rest IH];
    intros addedone Hsub; [apply forward_mret|].
  simpl. apply forward_bind.
  - apply (forward_expand_fn _ name). apply Hsub. by left.
  - intros added. apply IH. intros x Hx. apply Hsub. by right.
Qed.

Lemma forward_round : forward round.
Proof.
  intros st r st' H. unfold Expansion.round in H.
  apply forward_expand_fns in H; [|done].
  eapply extends_trans; [|exact H].
  split; [|split]; simpl; try done; [by apply prefix_app_r|].
  intros k Hk. by left.
Qed.

Lemma forward_expansion_loop remaining iter :
  forward (expansion_loop remaining iter).
Proof.
  revert iter. induction remaining as [|remaining IH]; intros iter;
    [apply forward_mret|].
  simpl. apply forward_bind; [apply forward_round|].
  intros [|]; [apply IH|apply forward_mret].
Qed.

End Loop.

(** X23. Knowledge expansion only goes forward, whether it returns or
    raises: the statements that were in the baseline stay at its
    front in their order, nothing leaves the handled set, and what
    joins it is a definition of the registry. *)
Theorem knowledge_expansion_extends Score _pure_defs make_statement_fn
    (st st' : state Score) (r : res (nat * bool)) :
  knowledge_expansion Score _pure_defs make_statement_fn st = (r, st') →
  baseline Score st `prefix_of` baseline Score st' ∧
  handled Score st ⊆ handled Score st' ∧
  ∀ k, k ∈ handled Score st' →
    k ∈ handled Score st ∨ registered _pure_defs k.
Proof. apply forward_expansion_loop. Qed.

Lemma knowledge_expansion_extends_witness :
  baseline Z ex_state `prefix_of`
    baseline Z (knowledge_expansion Z ex_registry ex_make_statement_fn ex_state).2 ∧
  handled Z ex_state ⊆
    handled Z (knowledge_expansion Z ex_registry ex_make_statement_fn ex_state).2 ∧
  ∀ k, k ∈ handled Z
             (knowledge_expansion Z ex_registry ex_make_statement_fn ex_state).2 →
    k ∈ handled Z ex_state ∨ registered ex_registry k.
Proof.
  apply (knowledge_expansion_extends Z ex_registry ex_make_statement_fn ex_state
           (knowledge_expansion Z ex_registry ex_make_statement_fn ex_state).2
           (knowledge_expansion Z ex_registry ex_make_statement_fn ex_state).1).
  apply surjective_pairing.
Defined.

End ExpansionMoreFacts.

Module CoreAxiomsFacts.
Import Registry Compiler CoreAxioms Examples.

Lemma get_definitions_cases _pure_defs names :
  (∃ ds, get_definitions _pure_defs names = Done ds ∧
         Forall (λ name, is_Some (dict_get (functions _pure_defs) name)) names) ∨
  (∃ name, get_definitions _pure_defs names = Raise (KeyError name) ∧
           name ∈ names ∧ dict_get (functions _pure_defs) name = None).
Proof.
  induction names as [|name rest IH]; simpl.
  - left. by exists [].
  - unfold get_fn.
    destruct (dict_get (functions _pure_defs) name) as [f|] eqn:Hf; simpl.
    + destruct IH as [(ds & -> & Hall)|(k & -> & Hk & Hnone)]; simpl.
      * left. eexists. split; [done|]. constructor; [by eexists|done].
      * right. exists k. split; [done|]. split; [by right|done].
    + right. exists name. split; [done|]. split; [by left|done].
Qed.

(** X24. [core_assertions] needs the five definitions it looks up,
    though it uses none of them: it returns its four axioms exactly
    when the registry has an entry for each of [isint], [isbool],
    [_builtin_len], [_builtin_tuple] and [_op_Add], and raises
    [KeyError] for a missing one otherwise. *)
Theorem core_assertions_needs_names (_pure_defs : ModuleInfo) :
  (Forall (λ name, is_Some (dict_get (functions _pure_defs) name)) core_names ∧
   ∃ axioms, core_assertions _pure_defs = Done axioms ∧ length axioms = 4%nat) ∨
  (∃ name, name ∈ core_names ∧
     dict_get (functions _pure_defs) name = None ∧
     core_assertions _pure_defs = Raise (KeyError name)).
Proof.
  unfold core_assertions.
  destruct (get_definitions_cases _pure_defs core_names)
    as [(ds & -> & Hall)|(k & -> & Hk & Hnone)]; simpl.
  - left. split; [done|]. by eexists.
  - right. by exists k.
Qed.

Section Semantics.

Variable PyFunc : Type.
Variable app : unk PyFunc → unk PyFunc → unk PyFunc.

#[local] Abbreviation unk := (unk PyFunc).

Lemma tuple_concat_empty_l (r : unk) : tuple_concat v_empty r = r.
Proof. induction r; simpl; congruence. Qed.

Lemma values_1 (values : list unk) :
  length values = 1%nat → ∃ a, values = [a].
Proof. destruct values as [|a [|]]; try discriminate. by exists a. Qed.

Lemma values_2 (values : list unk) :
  length values = 2%nat → ∃ a b, values = [a; b].
Proof. destruct values as [|a [|b [|]]]; try discriminate. by exists a, b. Qed.

Lemma values_3 (values : list unk) :
  length values = 3%nat → ∃ a b c, values = [a; b; c].
Proof.
  destruct values as [|a [|b [|c [|]]]]; try discriminate. by exists a, b, c.
Qed.

End Semantics.

(** X25. The structural axioms are consistent: all four hold when
    [Concat] is read as the concatenation of tuples, whatever the
    other symbols are. *)
Theorem core_assertions_hold_for_tuples (PyFunc : Type)
    (app : unk PyFunc → unk PyFunc → unk PyFunc) (ρ : string → unk PyFunc)
    (_pure_defs : ModuleInfo) (axioms : list quantified) (q : quantified) :
  core_assertions _pure_defs = Done axioms →
  q ∈ axioms →
  holds PyFunc app tuple_concat ρ q.
Proof.
  unfold core_assertions.
  destruct (get_definitions _pure_defs core_names); simpl; try discriminate.
  intros [= <-] Hq.
  repeat (apply elem_of_cons in Hq as [->|Hq]);
    [| | | |by apply elem_of_nil in Hq]; intros values Hlen; simpl in Hlen.
  - apply values_1 in Hlen as (u & ->). by eexists.
  - apply values_1 in Hlen as (u & ->). simpl. eexists. split; [|done].
    by rewrite tuple_concat_empty_l.
  - apply values_2 in Hlen as (u & w & ->). by eexists.
  - apply values_3 in Hlen as (u & w & z & ->). by eexists.
Qed.

Lemma core_assertions_hold_for_tuples_witness :
  holds nat (λ f _, f) tuple_concat (λ _, v_none)
    (ForAll ["r"] (Concat Unk_empty (Const "r")) (Const "r")
       [Concat Unk_empty (Const "r")]).
Proof.
  eapply (core_assertions_hold_for_tuples nat (λ f _, f) (λ _, v_none)
            {| module := "crosshair";
               functions :=
                 (λ name, (name, FnInfo_init name "crosshair")) <$> core_names |}).
  - vm_compute. reflexivity.
  - apply elem_of_cons. right. apply elem_of_cons. by left.
Defined.

(** X26. The third axiom, [Concat(g, a(_, x)) = a(g, x)], follows from
    the first and the fourth, whatever [Concat] is: it adds nothing
    to them. *)
Theorem core_assertions_third_follows (PyFunc : Type)
    (app concat : unk PyFunc → unk PyFunc → unk PyFunc) (ρ : string → unk PyFunc)
    (_pure_defs : ModuleInfo) (q1 q2 q3 q4 : quantified) :
  core_assertions _pure_defs = Done [q1; q2; q3; q4] →
  holds PyFunc app concat ρ q1 →
  holds PyFunc app concat ρ q4 →
  holds PyFunc app concat ρ q3.
Proof.
  unfold core_assertions.
  destruct (get_definitions _pure_defs core_names); simpl; try discriminate.
  intros [= <- <- <- <-] H1 H4 values Hlen. simpl in Hlen.
  apply values_2 in Hlen as (x & g & ->).
  destruct (H1 [g] eq_refl) as (v1 & Hl1 & Hr1).
  destruct (H4 [x; g; v_empty] eq_refl) as (v4 & Hl4 & Hr4).
  simpl in *. injection Hr1 as <-. injection Hl1 as Hl1.
  injection Hl4 as <-. injection Hr4 as Hr4.
  eexists. split; [done|]. simpl. by rewrite <- Hr4, Hl1.
Qed.

Lemma core_assertions_third_follows_witness :
  holds nat (λ f _, f) tuple_concat (λ _, v_none)
    (ForAll ["x"; "g"] (Concat (Const "g") (Unk_a Unk_empty (Const "x")))
       (Unk_a (Const "g") (Const "x"))
       [Concat (Const "g") (Unk_a Unk_empty (Const "x"))]).
Proof.
  eapply (core_assertions_third_follows nat (λ f _, f) tuple_concat (λ _, v_none)
            {| module := "crosshair";
               functions :=
                 (λ name, (name, FnInfo_init name "crosshair")) <$> core_names |}).
  - vm_compute. reflexivity.
  - intros values Hlen. apply values_1 in Hlen as (u & ->). by eexists.
  - intros values Hlen. apply values_3 in Hlen as (u & w & z & ->). by eexists.
Defined.

End CoreAxiomsFacts.

Module PathCoverFacts.
Import PathCover ExamplesMore.

Lemma max_from_spec {A} (key : A → nat) (pre xs : list A) (bi : nat) (bx : A) :
  pre !! bi = Some bx →
  (∀ y, y ∈ pre → (key y ≤ key bx)%nat) →
  ∃ i x, max_from key (bi, bx) (length pre) xs = (i, x) ∧
    (pre ++ xs) !! i = Some x ∧
    ∀ y, y ∈ pre ++ xs → (key y ≤ key x)%nat.
Proof.
  revert pre bi bx. induction xs as [|x xs IH]; intros pre bi bx Hb Hmax.
  - exists bi, bx. rewrite app_nil_r. done.
  - simpl. destruct (key bx <? key x)%nat eqn:Hlt.
    + apply Nat.ltb_lt in Hlt.
      destruct (IH (pre ++ [x]) (length pre) x) as (i & x' & Hr & Hi & Hm).
      * rewrite lookup_app_r by lia. by rewrite Nat.sub_diag.
      * intros y Hy. apply elem_of_app in Hy as [Hy|Hy].
        -- specialize (Hmax y Hy). lia.
        -- apply list_elem_of_singleton in Hy as ->. lia.
      * rewrite length_app in Hr. simpl in Hr.
        replace (length pre + 1)%nat with (S (length pre)) in Hr by lia.
        exists i, x'. rewrite <- app_assoc in Hi, Hm. done.
    + apply Nat.ltb_ge in Hlt.
      destruct (IH (pre ++ [x]) bi bx) as (i & x' & Hr & Hi & Hm).
      * by apply lookup_app_l_Some.
      * intros y Hy. apply elem_of_app in Hy as [Hy|Hy]; [by apply Hmax|].
        by apply list_elem_of_singleton in Hy as ->.
      * rewrite length_app in Hr. simpl in Hr.
        replace (length pre + 1)%nat with (S (length pre)) in Hr by lia.
        exists i, x'. rewrite <- app_assoc in Hi, Hm. done.
Qed.

Lemma max_from_first {A} (key : A → nat) (p : A) (rest : list A) :
  ∃ i x, max_from key (O, p) 1 rest = (i, x) ∧
    (p :: rest) !! i = Some x ∧
    ∀ y, y ∈ p :: rest → (key y ≤ key x)%nat.
Proof.
  apply (max_from_spec key [p] rest 0 p); [done|].
  intros y Hy. by apply list_elem_of_singleton in Hy as ->.
Qed.

Lemma elem_of_covered paths o :
  o ∈ covered paths ↔ ∃ p, p ∈ paths ∧ o ∈ offsets_covered p.
Proof.
  unfold covered. rewrite elem_of_union_list. split.
  - intros (X & HX & Ho). apply list_elem_of_fmap in HX as (p & -> & Hp).
    by exists p.
  - intros (p & Hp & Ho). exists (offsets_covered p). split; [|done].
    apply list_elem_of_fmap. by exists p.
Qed.

Lemma covered_cons p paths :
  covered (p :: paths) = offsets_covered p ∪ covered paths.
Proof. done. Qed.

Lemma covered_perm l l' : l ≡ₚ l' → covered l = covered l'.
Proof.
  intros H. apply set_eq. intros o. rewrite !elem_of_covered.
  by setoid_rewrite H.
Qed.

Lemma each_adds_app found l1 l2 :
  each_adds found (l1 ++ l2) ↔
  each_adds found l1 ∧ each_adds (found ∪ covered l1) l2.
Proof.
  revert found. induction l1 as [|p l1 IH]; intros found; simpl.
  - unfold covered. simpl. rewrite (right_id_L ∅ (∪)). tauto.
  - rewrite IH, covered_cons, (assoc_L (∪)). tauto.
Qed.

Lemma select_loop_spec (fuel : nat) ct paths found selected :
  (length paths < fuel)%nat →
  ∃ new,
    select_loop fuel ct paths found selected = Done (selected ++ new) ∧
    new ⊆+ paths ∧
    match ct with
    | PATH => new ≡ₚ paths
    | OPCODE =>
        covered new ∪ found = covered paths ∪ found ∧ each_adds found new
    end.
Proof.
  revert paths found selected.
  induction fuel as [|fuel IH]; intros paths found selected Hfuel; [lia|].
  destruct paths as [|p rest].
  { exists []. rewrite app_nil_r. split; [done|]. split; [done|].
    by destruct ct. }
  cbn [select_loop].
  destruct (max_from_first (λ p, size (offsets_covered p ∖ found)) p rest)
    as (i & x & -> & Hi & Hmax).
  assert (p :: rest ≡ₚ x :: delete i (p :: rest)) as Hperm
    by (by apply delete_Permutation).
  assert (length (delete i (p :: rest)) < fuel)%nat as Hlen.
  { apply Permutation_length in Hperm. simpl in *. lia. }
  destruct (IH (delete i (p :: rest)) (found ∪ offsets_covered x)
              (selected ++ [x]) Hlen) as (new & Hrun & Hsub & Hspec).
  destruct ct.
  - case_bool_decide as Hz.
    + exists []. rewrite app_nil_r. split; [done|].
      split; [apply submseteq_nil_l|]. split; [|done].
      assert (covered (p :: rest) ⊆ found) as Hall.
      2: { unfold covered at 1. simpl. rewrite (left_id_L ∅ (∪)).
           symmetry. by apply subseteq_union_1_L. }
      intros o Ho. apply elem_of_covered in Ho as (y & Hy & Ho).
      specialize (Hmax y Hy). simpl in Hmax. rewrite Hz in Hmax.
      assert (size (offsets_covered y ∖ found) = 0%nat) as Hy0 by lia.
      apply size_empty_inv in Hy0. clear -Hy0 Ho. set_solver.
    + exists (x :: new). rewrite Hrun, <- app_assoc. split; [done|].
      split; [rewrite Hperm; by apply submseteq_skip|].
      destruct Hspec as [Hcov Hadds]. split.
      * rewrite (covered_perm _ _ Hperm), !covered_cons.
        assert (∀ A B C : gset nat, A ∪ B ∪ C = B ∪ (C ∪ A)) as Hre
          by (intros A B C; rewrite (comm_L (∪) A B), <- (assoc_L (∪));
              by rewrite (comm_L (∪) A C)).
        rewrite !Hre. exact Hcov.
      * simpl. split; [|done]. intros Hx. apply Hz.
        apply size_empty_iff, elem_of_equiv_empty. intros o Ho.
        apply elem_of_difference in Ho as [Ho1 Ho2]. apply Ho2, Hx, Ho1.
  - exists (x :: new). rewrite Hrun, <- app_assoc. split; [done|].
    split; [rewrite Hperm; by apply submseteq_skip|].
    rewrite Hperm. by constructor.
Qed.

(** X27. With coverage type [OPCODE] the selection returns paths out
    of those given that cover every opcode offset any given path
    covers, each selected path covering an offset the ones selected
    before it do not; so no more paths are selected than there are
    offsets covered. *)
Theorem select_paths_opcode_cover (paths : list PathSummary) :
  ∃ selected,
    select_paths (S (length paths)) OPCODE paths = Done selected ∧
    selected ⊆+ paths ∧
    covered selected = covered paths ∧
    each_adds ∅ selected ∧
    (length selected ≤ size (covered paths))%nat.
Proof.
  destruct (select_loop_spec (S (length paths)) OPCODE paths ∅ [])
    as (new & Hrun & Hsub & Hcov & Hadds); [lia|].
  exists new. split; [done|]. split; [done|].
  assert (covered new = covered paths) as Hc
    by (by rewrite !(right_id_L ∅ (∪)) in Hcov).
  split; [done|]. split; [done|].
  rewrite <- Hc.
  assert (∀ found, each_adds found new →
            (length new + size found ≤ size (found ∪ covered new))%nat) as H.
  { clear. induction new as [|p new IH]; intros found Hp.
    - unfold covered. simpl. rewrite (right_id_L ∅ (∪)). lia.
    - destruct Hp as [Hnew Hrest]. specialize (IH _ Hrest).
      rewrite covered_cons, (assoc_L (∪)). simpl.
      assert (size found < size (found ∪ offsets_covered p))%nat; [|lia].
      apply subset_size. split; [apply union_subseteq_l|].
      intros H. apply Hnew. etrans; [apply union_subseteq_r|exact H]. }
  specialize (H ∅ Hadds). rewrite size_empty, (left_id_L ∅ (∪)) in H. lia.
Qed.

(** X28. With coverage type [PATH] every path is selected, once: the
    selection is a rearrangement of the paths given. *)
Theorem select_paths_path_all (paths : list PathSummary) :
  ∃ selected,
    select_paths (S (length paths)) PATH paths = Done selected ∧
    selected ≡ₚ paths.
Proof.
  destruct (select_loop_spec (S (length paths)) PATH paths ∅ [])
    as (new & Hrun & Hsub & Hperm); [lia|].
  by exists new.
Qed.

(** On the sample, the second path covers what the others cover: it
    alone is selected for [OPCODE], and it comes first for [PATH]. *)
Example select_paths_opcode_sample :
  select_paths 4 OPCODE ex_paths
    = Done [mkPathSummary "x=1" "2" None {[0%nat; 2%nat; 4%nat]}].
Proof. vm_compute. reflexivity. Qed.

Example select_paths_path_sample :
  formatted_args <$> default [] (match select_paths 4 PATH ex_paths with
                                 | Done l => Some l
                                 | _ => None
                                 end)
    = ["x=1"; "x=0"; "x=2"].
Proof. vm_compute. reflexivity. Qed.

End PathCoverFacts.
